(** * define: resolution-and-caching engine of the word-definition daemon

    A shallow embedding of [define.go]: the lemma generator, the LRU memory
    cache, the persisted map with its dirty flag and flush tick, and the
    resolver [resolveDefinition] with its provider chain.

    Conventions.
    - A Go [string] is an immutable byte sequence; it is a Rocq [string]
      (one [ascii] per byte), so [len] is [String.length] and literals with
      non-ASCII characters stand for their UTF-8 bytes.
    - [time.Time] and [time.Duration] are integers ([Z], nanoseconds).
      Go saturates a [Duration] at 64 bits (about 292 years); that
      saturation is outside the model.
    - Everything the program obtains from outside (the clock, the two HTTP
      services, the [dict] process, file writes, environment paths, the
      Unicode case tables) is an operation of the classes [Unicode] and
      [Host]; the theorems hold for every instance. *)

From Stdlib Require Import ZArith Lia Ascii.
From stdpp Require Import gmap strings list.

Local Open Scope Z_scope.

(* ===================================================================== *)
(** * Go library: package [strings] *)
(* ===================================================================== *)

(** The slow paths of [strings.ToLower] and [strings.ToUpper]
    ([strings.Map(unicode.ToLower, s)] and its upper-case sibling), taken
    only for strings holding a byte >= 0x80. *)
Class Unicode := {
  unicodeToLower : string → string;
  unicodeToUpper : string → string;
}.

Module Go.

(** The numeric value of a byte. *)
Definition byteval (c : ascii) : Z := Z.of_N (N_of_ascii c).

(** [len(s)] *)
Definition len (s : string) : Z := Z.of_nat (String.length s).

(** Line feed, written ["\n"] in Go. *)
Definition LF : string := String "010" "".

(** [s[:n]] and [s[n:]] for [0 <= n <= len(s)]. Go panics outside that
    range; every use in the program is guarded so that it stays inside. *)
Fixpoint take (n : nat) (s : string) : string :=
  match n, s with
  | S n', String c s' => String c (take n' s')
  | _, _ => ""
  end.

Fixpoint drop (n : nat) (s : string) : string :=
  match n, s with
  | S n', String _ s' => drop n' s'
  | _, _ => s
  end.

Definition sliceTo (s : string) (n : Z) : string := take (Z.to_nat n) s.
Definition sliceFrom (s : string) (n : Z) : string := drop (Z.to_nat n) s.

(** [strings.HasSuffix]:
    [len(s) >= len(suffix) && s[len(s)-len(suffix):] == suffix]. *)
Definition HasSuffix (s suffix : string) : bool :=
  (len suffix <=? len s) && String.eqb (sliceFrom s (len s - len suffix)) suffix.

(** [strings.TrimSuffix] *)
Definition TrimSuffix (s suffix : string) : string :=
  if HasSuffix s suffix then sliceTo s (len s - len suffix) else s.

(** [strings.Contains] *)
Fixpoint Contains (s substr : string) : bool :=
  String.prefix substr s ||
  match s with
  | String _ s' => Contains s' substr
  | "" => false
  end.

Fixpoint isASCII (s : string) : bool :=
  match s with
  | "" => true
  | String c s' => (byteval c <? 128) && isASCII s'
  end.

Fixpoint mapBytes (f : ascii → ascii) (s : string) : string :=
  match s with
  | "" => ""
  | String c s' => String (f c) (mapBytes f s')
  end.

(** ['A' <= c && c <= 'Z'  =>  c += 'a' - 'A'] *)
Definition lowerByte (c : ascii) : ascii :=
  if (65 <=? byteval c) && (byteval c <=? 90)
  then ascii_of_N (N_of_ascii c + 32) else c.

(** ['a' <= c && c <= 'z'  =>  c -= 'a' - 'A'] *)
Definition upperByte (c : ascii) : ascii :=
  if (97 <=? byteval c) && (byteval c <=? 122)
  then ascii_of_N (N_of_ascii c - 32) else c.

(** [strings.ToLower]: the ASCII fast path maps bytes; a string with
    a non-ASCII byte goes through the Unicode tables. *)
Definition ToLower `{Unicode} (s : string) : string :=
  if isASCII s then mapBytes lowerByte s else unicodeToLower s.

(** [strings.ToUpper] *)
Definition ToUpper `{Unicode} (s : string) : string :=
  if isASCII s then mapBytes upperByte s else unicodeToUpper s.

(** ** [strings.TrimSpace]

    [TrimSpace] removes every leading and then every trailing rune that
    [unicode.IsSpace] accepts. A rune is decoded as white space exactly when
    the bytes at that end are the UTF-8 encoding of one of
    U+0009..U+000D, U+0020, U+0085, U+00A0, U+1680, U+2000..U+200A,
    U+2028, U+2029, U+202F, U+205F, U+3000; an invalid or truncated
    sequence decodes to U+FFFD, which is not white space. The function is
    written on the byte list of the string. *)

(** ['\t', '\n', '\v', '\f', '\r', ' '] *)
Definition asciiSpace (b0 : Z) : bool :=
  ((9 <=? b0) && (b0 <=? 13)) || (b0 =? 32).

(** U+0085 = C2 85, U+00A0 = C2 A0 *)
Definition space2 (b0 b1 : Z) : bool :=
  (b0 =? 194) && ((b1 =? 133) || (b1 =? 160)).

(** U+1680 = E1 9A 80; U+2000..U+200A = E2 80 80..8A; U+2028, U+2029,
    U+202F = E2 80 A8, A9, AF; U+205F = E2 81 9F; U+3000 = E3 80 80 *)
Definition space3 (b0 b1 b2 : Z) : bool :=
  ((b0 =? 225) && (b1 =? 154) && (b2 =? 128))
  || ((b0 =? 226) && (b1 =? 128) &&
      (((128 <=? b2) && (b2 <=? 138)) || (b2 =? 168) || (b2 =? 169) || (b2 =? 175)))
  || ((b0 =? 226) && (b1 =? 129) && (b2 =? 159))
  || ((b0 =? 227) && (b1 =? 128) && (b2 =? 128)).

(** Width in bytes of the white-space rune at the start of [l], 0 if the
    first rune is not white space (or [l] is empty). *)
Definition leadSpace (l : list ascii) : nat :=
  match l with
  | c0 :: c1 :: c2 :: _ =>
      if asciiSpace (byteval c0) then 1%nat
      else if space2 (byteval c0) (byteval c1) then 2%nat
      else if space3 (byteval c0) (byteval c1) (byteval c2) then 3%nat
      else 0%nat
  | c0 :: c1 :: _ =>
      if asciiSpace (byteval c0) then 1%nat
      else if space2 (byteval c0) (byteval c1) then 2%nat
      else 0%nat
  | c0 :: _ => if asciiSpace (byteval c0) then 1%nat else 0%nat
  | [] => 0%nat
  end.

(** Width of the white-space rune at the end of a list given in reverse
    (last byte first), as [utf8.DecodeLastRuneInString] finds it. *)
Definition trailSpace (r : list ascii) : nat :=
  match r with
  | c0 :: c1 :: c2 :: _ =>
      if asciiSpace (byteval c0) then 1%nat
      else if space2 (byteval c1) (byteval c0) then 2%nat
      else if space3 (byteval c2) (byteval c1) (byteval c0) then 3%nat
      else 0%nat
  | c0 :: c1 :: _ =>
      if asciiSpace (byteval c0) then 1%nat
      else if space2 (byteval c1) (byteval c0) then 2%nat
      else 0%nat
  | c0 :: _ => if asciiSpace (byteval c0) then 1%nat else 0%nat
  | [] => 0%nat
  end.

(** Strip white-space runes while there is one; [n] bounds the number of
    runes and is the length of the list where the function is used. *)
Fixpoint stripWhile (width : list ascii → nat) (n : nat) (l : list ascii)
  : list ascii :=
  match n with
  | O => l
  | S n' =>
      match width l with
      | O => l
      | w => stripWhile width n' (List.skipn w l)
      end
  end.

Definition trimLeftSpace (l : list ascii) : list ascii :=
  stripWhile leadSpace (length l) l.

Definition trimRightSpace (l : list ascii) : list ascii :=
  List.rev (stripWhile trailSpace (length l) (List.rev l)).

Definition TrimSpace (s : string) : string :=
  String.string_of_list_ascii
    (trimRightSpace (trimLeftSpace (String.list_ascii_of_string s))).

(** [l] has no white space at either end. *)
Definition trimmedBytes (l : list ascii) : Prop :=
  leadSpace l = 0%nat ∧ trailSpace (List.rev l) = 0%nat.

Definition trimmed (s : string) : Prop :=
  trimmedBytes (String.list_ascii_of_string s).

End Go.

(* ===================================================================== *)
(** * Constants and plain data of [define.go] *)
(* ===================================================================== *)

Definition hour : Z := 3600 * 1000000000.

Definition maxWordLen : Z := 64.
Definition memCacheMax : Z := 2500.
Definition cacheTTL : Z := 30 * 24 * hour.
Definition bodyMaxChars : Z := 1400.
Definition offlineRefreshAfter : Z := 12 * hour.

Record config := {
  debug : bool;
  daemon : bool;
  forceOnline : bool;
  noOffline : bool;
  fullView : bool;
}.

Record paths := {
  wlPaste : string;
  dict : string;
  zenity : string;
}.

Record diskEntry := {
  Title : string;
  Body : string;
  Full : string;
  TS : Z;
  Source : string;
}.

Record cacheItem := {
  key : string;
  title : string;
  body : string;
  full : string;
  ts : Z;
  src : string;
}.

(** [lruCache]: [ll] is the recency list, front first. The Go struct also
    holds [items], the index from a key to its element of [ll]; the two are
    kept in step by every method (an element is in [ll] exactly when its key
    is in [items], and keys are not repeated), so [items[k]] is the first
    element of [ll] with key [k] and the index is not stored here. *)
Record lruCache := {
  ll : list cacheItem;
  max : Z;
  ttl : Z;
}.

(** What a provider hands back: [(o, nil)] or [("", err)]. *)
Inductive lookupResult :=
  | LookupOk (o : string)
  | LookupErr.

Inductive provider := Primary | Wiktionary | Offline.

(** How [os.WriteFile] can end: everything written; the open failed and
    the file is untouched; the file was truncated and only the first [n]
    bytes were written before the error. *)
Inductive writeOutcome :=
  | WriteOk
  | WriteOpenErr
  | WriteShort (n : nat).

(** The outside of the process. Each operation takes the state of the
    world and hands back the next one, so answers may change from call to
    call. *)
Class Host := {
  World : Type;
  (** [time.Now()], in nanoseconds *)
  clock : World → Z * World;
  (** the HTTP round trip and decoding of [lookupPrimary] *)
  primaryService : string → World → lookupResult * World;
  (** the HTTP round trip and decoding of [lookupWiktionary] *)
  wiktionaryService : string → World → lookupResult * World;
  (** the runs of [dict] and the clean-up of their output in
      [offlineLookup]; the first argument is [p.dict] *)
  dictProcess : string → string → World → lookupResult * World;
  (** the outcome of [os.WriteFile name data] *)
  writeFileOutcome : string → string → World → writeOutcome * World;
  (** whether [os.Rename old new] succeeds *)
  renameOutcome : string → string → World → bool * World;
  (** [json.Marshal] of the persisted map; [None] is an error *)
  jsonMarshal : gmap string diskEntry → option string;
  (** [cacheFilePath()] and [lastFilePath()] *)
  cacheFilePath : string;
  lastFilePath : string;
}.

(* ===================================================================== *)
(** * Pure functions *)
(* ===================================================================== *)

Section Pure.
Context `{Unicode}.

(** [wordRe]: one or more bytes, each a letter, a digit, an underscore,
    a hyphen or an apostrophe. *)
Definition wordByte (c : ascii) : bool :=
  let b := Go.byteval c in
  ((48 <=? b) && (b <=? 57)) || ((65 <=? b) && (b <=? 90))
  || ((97 <=? b) && (b <=? 122)) || (b =? 95) || (b =? 45) || (b =? 39).

Fixpoint allBytes (f : ascii → bool) (s : string) : bool :=
  match s with
  | "" => true
  | String c s' => f c && allBytes f s'
  end.

Definition validWord (w : string) : bool :=
  negb (String.eqb w "") && (Go.len w <=? maxWordLen) && allBytes wordByte w.

(** The loop over [cands] with its [seen] set. *)
Fixpoint dedupe (cands : list string) (seen : gset string) (out : list string)
  : list string :=
  match cands with
  | [] => out
  | c :: rest =>
      if decide (c ∈ seen) then dedupe rest seen out
      else dedupe rest ({[c]} ∪ seen) (out ++ [c])
  end.

Definition lemmaCandidates (w : string) : list string :=
  let w := Go.ToLower w in
  let cands := [w] in
  let cands :=
    if Go.HasSuffix w "ies" && (4 <? Go.len w)
    then cands ++ [Go.sliceTo w (Go.len w - 3) +:+ "y"] else cands in
  let cands :=
    if Go.HasSuffix w "es" && (4 <? Go.len w)
    then cands ++ [Go.sliceTo w (Go.len w - 2)] else cands in
  let cands :=
    if Go.HasSuffix w "s" && (3 <? Go.len w) && negb (Go.HasSuffix w "ss")
    then cands ++ [Go.TrimSuffix w "s"] else cands in
  dedupe cands ∅ [].

Definition cap1 (s : string) : string :=
  if String.eqb s "" then s
  else Go.ToUpper (Go.sliceTo s 1) +:+ Go.sliceFrom s 1.

Definition truncationMarker : string :=
  Go.LF +:+ Go.LF +:+ "… (click to open full)".

Definition clampBody (s : string) : string :=
  let s := Go.TrimSpace s in
  if Go.len s <=? bodyMaxChars then s
  else
    let head := Go.sliceTo s (bodyMaxChars - 80) in
    Go.TrimSpace head +:+ truncationMarker.

Definition sourceEmoji (src : string) : string :=
  if String.eqb src "online" then "☁️"
  else if String.eqb src "wiktionary" then "🧾"
  else if String.eqb src "offline" then "🗄️"
  else "❓".

(** ** The memory cache *)

Definition newLRU (max ttl : Z) : lruCache :=
  {| ll := []; max := max; ttl := ttl |}.

(** [c.items[k]] *)
Definition lruFind (k : string) (l : list cacheItem) : option cacheItem :=
  List.find (λ it, String.eqb (key it) k) l.

(** [c.ll.Remove(el)] for the element [el = c.items[k]] *)
Fixpoint lruRemove (k : string) (l : list cacheItem) : list cacheItem :=
  match l with
  | [] => []
  | it :: l' => if String.eqb (key it) k then l' else it :: lruRemove k l'
  end.

(** [lruCache.get]; [now] is the clock reading behind [time.Since], which
    is taken only when the key is present. *)
Definition lruCache_get (now : Z) (k : string) (c : lruCache)
  : option cacheItem * lruCache :=
  match lruFind k (ll c) with
  | Some it =>
      if now - ts it >? ttl c
      then (None, {| ll := lruRemove k (ll c); max := max c; ttl := ttl c |})
      else (Some it, {| ll := it :: lruRemove k (ll c); max := max c; ttl := ttl c |})
  | None => (None, c)
  end.

(** The eviction loop of [lruCache.set]: while [c.ll.Len() > c.max], take
    [last := c.ll.Back()], stop if it is [nil], else remove it. Each round
    removes one element, so [length l] rounds are enough. *)
Fixpoint evict (rounds : nat) (max : Z) (l : list cacheItem) : list cacheItem :=
  match rounds with
  | O => l
  | S rounds' =>
      if Z.of_nat (length l) >? max then
        match l with
        | [] => l
        | _ => evict rounds' max (removelast l)
        end
      else l
  end.

(** [lruCache.set]; [now] is its [time.Now()]. *)
Definition lruCache_set (now : Z) (k title body full src : string) (c : lruCache)
  : lruCache :=
  match lruFind k (ll c) with
  | Some it =>
      let it' := {| key := key it; title := title; body := body; full := full;
                    ts := now; src := src |} in
      {| ll := it' :: lruRemove k (ll c); max := max c; ttl := ttl c |}
  | None =>
      let el := {| key := k; title := title; body := body; full := full;
                   ts := now; src := src |} in
      let l := el :: ll c in
      {| ll := evict (length l) (max c) l; max := max c; ttl := ttl c |}
  end.

End Pure.

(* ===================================================================== *)
(** * Shared state and effects *)
(* ===================================================================== *)

(** One provider query as the resolver sees it: which provider, for which
    candidate, with what answer. The list of these in [store] is a record
    of what happened and is read by no operation. *)
Definition event : Type := provider * string * lookupResult.

(** The objects [resolveDefinition] and the flush tick work on: [*mem],
    the map [disk], [*diskDirty], the files under [cacheDir()], and the
    world outside. *)
Record store `{Host} := {
  mem : lruCache;
  disk : gmap string diskEntry;
  diskDirty : bool;
  files : gmap string string;
  calls : list event;
  world : World;
}.

Section Effects.
Context `{Unicode} `{Host}.

(** A store with one field replaced. *)
Definition withMem (c : lruCache) (s : store) : store :=
  {| mem := c; disk := disk s; diskDirty := diskDirty s; files := files s;
     calls := calls s; world := world s |}.
Definition withDisk (d : gmap string diskEntry) (s : store) : store :=
  {| mem := mem s; disk := d; diskDirty := diskDirty s; files := files s;
     calls := calls s; world := world s |}.
Definition withDirty (b : bool) (s : store) : store :=
  {| mem := mem s; disk := disk s; diskDirty := b; files := files s;
     calls := calls s; world := world s |}.
Definition withFiles (f : gmap string string) (s : store) : store :=
  {| mem := mem s; disk := disk s; diskDirty := diskDirty s; files := f;
     calls := calls s; world := world s |}.
Definition withCalls (l : list event) (s : store) : store :=
  {| mem := mem s; disk := disk s; diskDirty := diskDirty s; files := files s;
     calls := l; world := world s |}.
Definition withWorld (w : World) (s : store) : store :=
  {| mem := mem s; disk := disk s; diskDirty := diskDirty s; files := files s;
     calls := calls s; world := w |}.

(** A computation on the store. *)
Definition M (A : Type) : Type := store → A * store.

Definition ret {A} (a : A) : M A := λ s, (a, s).

Definition bind {A B} (c : M A) (k : A → M B) : M B :=
  λ s, let (a, s') := c s in k a s'.

Notation "x <- c ;; k" := (bind c (λ x, k))
  (at level 20, c at level 99, k at level 200, only parsing).
Notation "' x <- c ;; k" := (bind c (λ x, k))
  (at level 20, x pattern, c at level 99, k at level 200, only parsing).

Definition get {A} (f : store → A) : M A := λ s, (f s, s).

Definition setMem (c : lruCache) : M unit := λ s, (tt, withMem c s).
Definition setDisk (d : gmap string diskEntry) : M unit := λ s, (tt, withDisk d s).
Definition setDiskDirty (b : bool) : M unit := λ s, (tt, withDirty b s).
Definition setFiles (f : gmap string string) : M unit := λ s, (tt, withFiles f s).

(** Run an operation of the host on the current world. *)
Definition host {A} (op : World → A * World) : M A := λ s,
  let (a, w) := op (world s) in (a, withWorld w s).

Definition logCall (e : event) : M unit := λ s,
  (tt, withCalls (calls s ++ [e]) s).

(** [time.Now()] and [time.Since(t)] *)
Definition time_Now : M Z := host clock.
Definition time_Since (t : Z) : M Z := now <- time_Now ;; ret (now - t).

(** [os.WriteFile]: the returned flag is [err == nil]. *)
Definition os_WriteFile (name data : string) : M bool :=
  o <- host (writeFileOutcome name data) ;;
  match o with
  | WriteOk => f <- get files ;; _ <- setFiles (<[name := data]> f) ;; ret true
  | WriteOpenErr => ret false
  | WriteShort n =>
      f <- get files ;;
      _ <- setFiles (<[name := Go.take n data]> f) ;; ret false
  end.

(** [os.Rename]: atomic; on failure nothing changes. *)
Definition os_Rename (old new : string) : M bool :=
  f <- get files ;;
  match f !! old with
  | None => ret false
  | Some content =>
      ok <- host (renameOutcome old new) ;;
      if ok then _ <- setFiles (<[new := content]> (delete old f)) ;; ret true
      else ret false
  end.

Definition saveDiskCacheAtomic (path : string) (m : gmap string diskEntry)
  : M unit :=
  let tmp := path +:+ ".tmp" in
  match jsonMarshal m with
  | None => ret tt
  | Some b =>
      ok <- os_WriteFile tmp b ;;
      if negb ok then ret tt
      else _ <- os_Rename tmp path ;; ret tt
  end.

Definition writeLast (full : string) : M unit :=
  _ <- os_WriteFile lastFilePath full ;; ret tt.

(** The body of the ticker loop in [runDaemon], run under [diskMu]. *)
Definition flushTick : M unit :=
  dirty <- get diskDirty ;;
  if dirty then
    m <- get disk ;;
    _ <- saveDiskCacheAtomic cacheFilePath m ;;
    setDiskDirty false
  else ret tt.

(** [mem.get(key)] with its clock reading *)
Definition mem_get (k : string) : M (option cacheItem) :=
  c <- get mem ;;
  match lruFind k (ll c) with
  | Some _ =>
      now <- time_Now ;;
      let (r, c') := lruCache_get now k c in
      _ <- setMem c' ;; ret r
  | None => ret None
  end.

(** [mem.set(...)] with its clock reading *)
Definition mem_set (k title body full src : string) : M unit :=
  c <- get mem ;;
  now <- time_Now ;;
  setMem (lruCache_set now k title body full src c).

(** The three providers as the resolver calls them. *)
Definition lookupPrimary (word : string) : M lookupResult :=
  r <- host (primaryService word) ;;
  _ <- logCall (Primary, word, r) ;; ret r.

Definition lookupWiktionary (word : string) : M lookupResult :=
  r <- host (wiktionaryService word) ;;
  _ <- logCall (Wiktionary, word, r) ;; ret r.

Definition offlineLookup (p : paths) (word : string) : M lookupResult :=
  r <- (if String.eqb (dict p) "" then ret LookupErr
        else host (dictProcess (dict p) word)) ;;
  _ <- logCall (Offline, word, r) ;; ret r.

(** The local variables [out, used, source] of [resolveDefinition]. *)
Definition found : Type := string * string * string.

(** One of the three loops over [lemmaCandidates(word)]: the first
    candidate with [err == nil && o != ""] sets [out, used, source] and
    breaks. *)
Fixpoint forCandidates (lookup : string → M lookupResult) (kind : string)
    (cands : list string) (acc : found) : M found :=
  match cands with
  | [] => ret acc
  | cand :: rest =>
      r <- lookup cand ;;
      match r with
      | LookupOk o =>
          if negb (String.eqb o "") then ret (o, cand, kind)
          else forCandidates lookup kind rest acc
      | LookupErr => forCandidates lookup kind rest acc
      end
  end.

Definition result : Type := string * string * string * string.

(** Lines 606-616: the look-up in the memory cache and then in the
    persisted map. [None] falls through to the provider chain. *)
Definition lookupCached (k : string) : M (option result) :=
  r <- mem_get k ;;
  match r with
  | Some it => ret (Some (title it, body it, full it, src it))
  | None =>
      d <- get disk ;;
      match d !! k with
      | Some de =>
          stale <- (if String.eqb (Source de) "offline"
                    then age <- time_Since (TS de) ;; ret (age >? offlineRefreshAfter)
                    else ret false) ;;
          if stale then ret None
          else
            age <- time_Since (TS de) ;;
            if age <=? cacheTTL then
              _ <- mem_set k (Title de) (Body de) (Full de) (Source de) ;;
              ret (Some (Title de, Body de, Full de, Source de))
            else ret None
      | None => ret None
      end
  end.

(** Lines 618-647: the provider chain. *)
Definition lookupChain (cfg : config) (p : paths) (word : string) : M found :=
  let acc : found := ("", "", "none") in
  acc <- forCandidates lookupPrimary "online" (lemmaCandidates word) acc ;;
  acc <- (if String.eqb (acc.1.1) ""
          then forCandidates lookupWiktionary "wiktionary" (lemmaCandidates word) acc
          else ret acc) ;;
  acc <- (if String.eqb (acc.1.1) "" && negb (noOffline cfg)
          then forCandidates (offlineLookup p) "offline" (lemmaCandidates word) acc
          else ret acc) ;;
  ret (if String.eqb (acc.1.1) "" then ("No definition found.", word, "none")
       else acc).

Definition showWord (word used : string) : string :=
  if negb (String.eqb used "") && negb (String.eqb (Go.ToLower word) used)
  then cap1 word +:+ " → " +:+ cap1 used
  else cap1 word.

(** Lines 618-664: what [resolveDefinition] does once both cache tiers
    have missed. *)
Definition resolveFresh (cfg : config) (p : paths) (word : string) : M result :=
  let k := Go.ToLower word in
  '(out, used, source) <- lookupChain cfg p word ;;
  let full := Go.TrimSpace out in
  _ <- writeLast full ;;
  let body := "<b><i>" +:+ showWord word used +:+ "</i></b>" +:+ Go.LF +:+ clampBody full in
  let title := "📘 " +:+ cap1 word +:+ " " +:+ sourceEmoji source in
  _ <- mem_set k title body full source ;;
  now <- time_Now ;;
  d <- get disk ;;
  _ <- setDisk (<[k := {| Title := title; Body := body; Full := full; TS := now;
                     Source := source |}]> d) ;;
  _ <- setDiskDirty true ;;
  ret (title, body, full, source).

Definition resolveDefinition (cfg : config) (p : paths) (word : string) : M result :=
  r <- lookupCached (Go.ToLower word) ;;
  match r with
  | Some res => ret res
  | None => resolveFresh cfg p word
  end.

End Effects.

(* ===================================================================== *)
(** * Test doubles *)
(* ===================================================================== *)

(** Case tables that leave non-ASCII strings alone. *)
Definition plainUnicode : Unicode :=
  {| unicodeToLower := id; unicodeToUpper := id |}.

(** A snapshot format for the stub host: the keys with their full texts. *)
Definition stubMarshal (m : gmap string diskEntry) : option string :=
  Some (foldr (λ kv acc, kv.1 +:+ "=" +:+ Full kv.2 +:+ ";" +:+ acc) ""
              (map_to_list m)).

(** A host whose world is the clock alone: every reading is one
    nanosecond after the last, the providers answer by fixed tables, and
    file writes and renames end the same way each time. *)
Definition stubHost (prim wik off : string → lookupResult)
    (wr : writeOutcome) (rn : bool) : Host :=
  {| World := Z;
     clock := λ w, (w, w + 1);
     primaryService := λ c w, (prim c, w);
     wiktionaryService := λ c w, (wik c, w);
     dictProcess := λ _ c w, (off c, w);
     writeFileOutcome := λ _ _ w, (wr, w);
     renameOutcome := λ _ _ w, (rn, w);
     jsonMarshal := stubMarshal;
     cacheFilePath := "/home/u/.cache/define/cache.json";
     lastFilePath := "/home/u/.cache/define/last.txt" |}.

Definition failAll : string → lookupResult := λ _, LookupErr.

Definition defaultConfig : config :=
  {| debug := false; daemon := true; forceOnline := false; noOffline := false;
     fullView := false |}.

Definition stubPaths : paths :=
  {| wlPaste := "/usr/bin/wl-paste"; dict := "/usr/bin/dict";
     zenity := "/usr/bin/zenity" |}.

(** The state of a daemon that has just started with no cache file. *)
Definition freshStore `{Host} (w : World) : store :=
  {| mem := newLRU memCacheMax cacheTTL; disk := ∅; diskDirty := false;
     files := ∅; calls := []; world := w |}.

(** Three cache items with distinct keys. *)
Definition itemA : cacheItem :=
  {| key := "a"; title := "A"; body := "body a"; full := "full a"; ts := 0;
     src := "online" |}.
Definition itemB : cacheItem :=
  {| key := "b"; title := "B"; body := "body b"; full := "full b"; ts := 1;
     src := "wiktionary" |}.
Definition itemC : cacheItem :=
  {| key := "c"; title := "C"; body := "body c"; full := "full c"; ts := 2;
     src := "offline" |}.

Definition noOfflineConfig : config :=
  {| debug := false; daemon := true; forceOnline := false; noOffline := true;
     fullView := false |}.

(** A primary provider that knows "legend" but not "legends". *)
Definition legendPrimary : string → lookupResult :=
  λ c, if String.eqb c "legend" then LookupOk "noun: An unrealistic story."
       else LookupErr.

(** An offline dictionary that knows "cat". *)
Definition catOffline : string → lookupResult :=
  λ c, if String.eqb c "cat" then LookupOk "A small domesticated feline."
       else LookupErr.

(** A provider whose answer is longer than the body cap: 1500 bytes. *)
Definition longText : string :=
  String.concat "" (replicate 300 "word ").
Definition longPrimary : string → lookupResult := λ _, LookupOk longText.

Definition hostLegend : Host := stubHost legendPrimary failAll failAll WriteOk true.
Definition hostNone : Host := stubHost failAll failAll failAll WriteOk true.
Definition hostCatOffline : Host := stubHost failAll failAll catOffline WriteOk true.
Definition hostLong : Host := stubHost longPrimary failAll failAll WriteOk true.
(** A host on which every file write stops after three bytes. *)
Definition hostDiskFull : Host :=
  stubHost failAll failAll failAll (WriteShort 3) true.

(** A persisted entry for "cat", and a daemon state that holds it unsaved
    next to an older snapshot on disk. *)
Definition catEntry (source : string) (t : Z) : diskEntry :=
  {| Title := "📘 Cat"; Body := "<b><i>Cat</i></b>"; Full := "A small domesticated feline.";
     TS := t; Source := source |}.

Definition dirtyStore `{Host} (w : World) : store :=
  {| mem := newLRU memCacheMax cacheTTL;
     disk := {[ "cat" := catEntry "online" 0 ]};
     diskDirty := true;
     files := {[ cacheFilePath := "old snapshot" ]};
     calls := []; world := w |}.

(** A daemon state just after a restart: the memory cache is empty, the
    persisted map holds one entry for "cat". *)
Definition restartedStore `{Host} (e : diskEntry) (w : World) : store :=
  {| mem := newLRU memCacheMax cacheTTL; disk := {[ "cat" := e ]};
     diskDirty := false; files := ∅; calls := []; world := w |}.


(* ===================================================================== *)
(** * Go library: more of package [strings] *)
(* ===================================================================== *)

Module GoStrings.
Import Go.

(** [strings.HasPrefix]:
    [len(s) >= len(prefix) && s[:len(prefix)] == prefix]. *)
Definition HasPrefix (s prefix : string) : bool := String.prefix prefix s.

(** [strings.IndexByte]: the index of the first [c] in [s], -1 if there
    is none. *)
Fixpoint IndexByte (s : string) (c : ascii) : Z :=
  match s with
  | "" => -1
  | String b s' =>
      if Ascii.eqb b c then 0
      else let i := IndexByte s' c in if i <? 0 then -1 else i + 1
  end.

(** [strings.Join] *)
Fixpoint Join (elems : list string) (sep : string) : string :=
  match elems with
  | [] => ""
  | e :: rest =>
      match rest with
      | [] => e
      | _ => e +:+ sep +:+ Join rest sep
      end
  end.

(** ** [strings.Trim] with the cut set of [pickWord]

    The cut set (the blank, tab, carriage return, line feed, the double
    quote, the four curly quotes and the characters .,;:!?()[]{}) holds
    runes outside ASCII,
    so [Trim] is [trimLeftUnicode(trimRightUnicode(s, cutset), cutset)]:
    at each end the rune there is decoded and removed while the cut set
    contains it. The runes of the set are seventeen ASCII characters and
    U+201C, U+201D, U+2018, U+2019, whose encodings are E2 80 9C, 9D, 98
    and 99; an invalid sequence decodes to U+FFFD, which is not in the
    set. *)
Definition cutByte (b : Z) : bool :=
  (b =? 32) || (b =? 9) || (b =? 13) || (b =? 10) || (b =? 34)
  || (b =? 46) || (b =? 44) || (b =? 59) || (b =? 58) || (b =? 33)
  || (b =? 63) || (b =? 40) || (b =? 41) || (b =? 91) || (b =? 93)
  || (b =? 123) || (b =? 125).

Definition cut3 (b0 b1 b2 : Z) : bool :=
  (b0 =? 226) && (b1 =? 128)
  && ((b2 =? 156) || (b2 =? 157) || (b2 =? 152) || (b2 =? 153)).

(** Width of the cut-set rune at the start of [l], 0 if there is none. *)
Definition leadCut (l : list ascii) : nat :=
  match l with
  | c0 :: c1 :: c2 :: _ =>
      if cutByte (byteval c0) then 1%nat
      else if cut3 (byteval c0) (byteval c1) (byteval c2) then 3%nat
      else 0%nat
  | c0 :: _ => if cutByte (byteval c0) then 1%nat else 0%nat
  | [] => 0%nat
  end.

(** Width of the cut-set rune at the end of a list given in reverse. *)
Definition trailCut (r : list ascii) : nat :=
  match r with
  | c0 :: c1 :: c2 :: _ =>
      if cutByte (byteval c0) then 1%nat
      else if cut3 (byteval c2) (byteval c1) (byteval c0) then 3%nat
      else 0%nat
  | c0 :: _ => if cutByte (byteval c0) then 1%nat else 0%nat
  | [] => 0%nat
  end.

Definition trimRightCut (l : list ascii) : list ascii :=
  List.rev (stripWhile trailCut (length l) (List.rev l)).

Definition trimLeftCut (l : list ascii) : list ascii :=
  stripWhile leadCut (length l) l.

Definition TrimCutset (s : string) : string :=
  String.string_of_list_ascii
    (trimLeftCut (trimRightCut (String.list_ascii_of_string s))).

(** ** [strings.Fields]

    The fields of [s] are its maximal runs of runes that are not white
    space ([unicode.IsSpace]). The loop below reads [l] byte by byte:
    [skip] counts the bytes still to pass of a white-space rune, [cur] is
    the field being read and [inField] tells whether one is open. A
    white-space rune starts with a byte below 0x80 or with C2, E1, E2 or
    E3, none of which is a continuation byte, so it is found at the same
    offsets whether the runes before it are passed one rune or one byte at
    a time. *)
Fixpoint fieldsLoop (l : list ascii) (skip : nat) (cur : list ascii)
    (inField : bool) : list (list ascii) :=
  match l with
  | [] => if inField then [cur] else []
  | c :: rest =>
      match skip with
      | S k => fieldsLoop rest k cur inField
      | O =>
          match leadSpace l with
          | O => fieldsLoop rest 0 (cur ++ [c]) true
          | S w => (if inField then [cur] else []) ++ fieldsLoop rest w [] false
          end
      end
  end.

Definition Fields (s : string) : list string :=
  map String.string_of_list_ascii
      (fieldsLoop (String.list_ascii_of_string s) 0 [] false).

End GoStrings.

(* ===================================================================== *)
(** * The command line and the word picker *)
(* ===================================================================== *)

Definition dedupeWindow : Z := 250 * 1000000.
Definition minute : Z := 60 * 1000000000.

(** One round of the loop of [parseArgs]. *)
Definition parseArg (cfg : config) (a : string) : config :=
  if String.eqb a "--debug" then
    {| debug := true; daemon := daemon cfg; forceOnline := forceOnline cfg;
       noOffline := noOffline cfg; fullView := fullView cfg |}
  else if String.eqb a "--daemon" then
    {| debug := debug cfg; daemon := true; forceOnline := forceOnline cfg;
       noOffline := noOffline cfg; fullView := fullView cfg |}
  else if String.eqb a "--force-online" then
    {| debug := debug cfg; daemon := daemon cfg; forceOnline := true;
       noOffline := noOffline cfg; fullView := fullView cfg |}
  else if String.eqb a "--no-offline" then
    {| debug := debug cfg; daemon := daemon cfg; forceOnline := forceOnline cfg;
       noOffline := true; fullView := fullView cfg |}
  else if String.eqb a "--full" then
    {| debug := debug cfg; daemon := daemon cfg; forceOnline := forceOnline cfg;
       noOffline := noOffline cfg; fullView := true |}
  else cfg.

Definition parseArgs (args : list string) : config :=
  foldl parseArg
        {| debug := false; daemon := false; forceOnline := false;
           noOffline := false; fullView := false |}
        args.

Fixpoint filterOutFlags (args : list string) : list string :=
  match args with
  | [] => []
  | a :: rest =>
      if GoStrings.HasPrefix a "--" then filterOutFlags rest
      else a :: filterOutFlags rest
  end.

(** [ensureCommonPATH] as a function from the value of [PATH] it reads to
    the value it sets. *)
Definition ensureCommonPATH (p : string) : string :=
  foldl (λ p d, if Go.Contains p d then p else d +:+ ":" +:+ p)
        p ["/usr/local/bin"; "/usr/bin"; "/bin"].

Definition pickWord (s : string) : string :=
  let s := Go.TrimSpace s in
  if String.eqb s "" then ""
  else
    let i := GoStrings.IndexByte s "010" in
    let s := if 0 <=? i then Go.sliceTo s i else s in
    let s := GoStrings.TrimCutset s in
    if String.eqb s "" then ""
    else
      match GoStrings.Fields s with
      | [] => ""
      | part :: _ => part
      end.

(** What [main] goes on to do. *)
Inductive action :=
  | OpenFull                (* [openFullFromLast(p)] *)
  | RunDaemon               (* [runDaemon(cfg, p)] *)
  | Send (word : string)    (* [clientSend(cfg, word)] *)
  | Nothing.                (* return *)

(** [main], up to the call it ends with. [selection] is what
    [getSelectedTextWayland] returns; it is asked for only when no
    argument is left after the flags. *)
Definition mainAction (args : list string) (selection : string) : action :=
  let cfg := parseArgs args in
  if fullView cfg then OpenFull
  else if daemon cfg then RunDaemon
  else
    let rest := filterOutFlags args in
    let word :=
      if (0 <? length rest)%nat then pickWord (GoStrings.Join rest " ")
      else pickWord selection in
    if negb (validWord word) then Nothing else Send word.

(* ===================================================================== *)
(** * Histories of the memory cache *)
(* ===================================================================== *)

(** A call of one of the two methods of [lruCache], with its clock
    reading. *)
Inductive lruOp :=
  | OpGet (now : Z) (k : string)
  | OpSet (now : Z) (k title body full src : string).

Definition lruStep (c : lruCache) (op : lruOp) : lruCache :=
  match op with
  | OpGet now k => (lruCache_get now k c).2
  | OpSet now k title body full src => lruCache_set now k title body full src c
  end.

(** The cache after a run of calls. *)
Definition lruRun (ops : list lruOp) (c : lruCache) : lruCache :=
  foldl lruStep c ops.

(* ===================================================================== *)
(** * The request filter of the daemon *)
(* ===================================================================== *)

(** [deduper.last]: for each key, the time of the last request let
    through. *)
Definition deduper : Type := gmap string Z.

Definition newDeduper : deduper := ∅.

(** [deduper.allow]; [now] is its [time.Now()]. *)
Definition deduper_allow (now : Z) (key : string) (d : deduper)
  : bool * deduper :=
  match d !! key with
  | Some t =>
      if now - t <? dedupeWindow then (false, d)
      else (true, <[key := now]> d)
  | None => (true, <[key := now]> d)
  end.

(** A run of requests for one key, at the given clock readings. *)
Fixpoint allowEach (times : list Z) (key : string) (d : deduper)
  : list bool * deduper :=
  match times with
  | [] => ([], d)
  | now :: rest =>
      let (ok, d1) := deduper_allow now key d in
      let (oks, d2) := allowEach rest key d1 in
      (ok :: oks, d2)
  end.

(** The state of a running daemon: the store its resolver works on and
    the filter. *)
Record daemonState `{Host} := {
  dstore : store;
  dlast : deduper;
}.

Section Daemon.
Context `{Unicode} `{Host}.

(** The handler of one connection in [runDaemon], from
    [SetReadDeadline] on; [input] is [buf[:n]], the bytes that [Read]
    delivered. The result is what goes to [notifyDBusAndHandleClick],
    [None] when the handler returns before that. Handlers of different
    connections exclude each other in [allow] and in [resolveDefinition];
    this is one handler with no other running in between. *)
Definition handleConn (cfg : config) (p : paths) (input : string)
    (d : daemonState) : option (string * string * string) * daemonState :=
  let (_, s0) := time_Now (dstore d) in
  let word := pickWord (Go.TrimSpace input) in
  if negb (validWord word) then (None, {| dstore := s0; dlast := dlast d |})
  else
    let key := Go.ToLower word in
    let (now, s1) := time_Now s0 in
    let (ok, l) := deduper_allow now key (dlast d) in
    if negb ok then (None, {| dstore := s1; dlast := l |})
    else
      let (r, s2) := resolveDefinition cfg p word s1 in
      (Some (r.1.1.1, r.1.1.2, r.1.2), {| dstore := s2; dlast := l |}).

End Daemon.

(* ===================================================================== *)
(** * Loading the persisted cache, and the client *)
(* ===================================================================== *)

(** How [json.Unmarshal(b, &m)] can end for [var m map[string]diskEntry]:
    with an error; without error and with [m] still [nil] (the JSON value
    null); without error and with a map. *)
Inductive decoded :=
  | DecodeErr
  | DecodeNil
  | DecodeMap (m : gmap string diskEntry).

(** More of the outside of the process. *)
Class Loader `{Host} := {
  (** whether [os.ReadFile] succeeds on a file that is there *)
  readFileOutcome : string → World → bool * World;
  (** [json.Unmarshal] into a [map[string]diskEntry] *)
  jsonUnmarshal : string → decoded;
  (** whether the socket is there and [net.DialTimeout] connects to it *)
  dialOutcome : World → bool * World;
}.

(** How [clientSend] ends: the word was written to the daemon; the
    definition resolved in this process went to the notification; or the
    process ended in a panic. *)
Inductive sent :=
  | ToDaemon (word : string)
  | Shown (title body full : string)
  | Panicked.

Section Client.
Context `{Unicode} `{Host} `{!Loader}.

(** [os.ReadFile]; [None] is an error. *)
Definition os_ReadFile (name : string) : M (option string) :=
  bind (host (readFileOutcome name)) (λ ok,
  bind (get files) (λ f,
  ret (if ok : bool then f !! name else None))).

(** [loadDiskCache]; the result [None] is the [nil] map, which
    [json.Unmarshal] leaves in [m] when the file holds null. *)
Definition loadDiskCache (path : string) : M (option (gmap string diskEntry)) :=
  bind (os_ReadFile path) (λ b,
  match b with
  | None => ret (Some ∅)
  | Some b =>
      match jsonUnmarshal b with
      | DecodeErr => ret (Some ∅)
      | DecodeNil => ret None
      | DecodeMap m => ret (Some m)
      end
  end).

(** [clientSend]; [p] is what [resolvePaths()] returns. The memory
    cache, the map and the flag are those of this process: whatever the
    store holds for them at the start is replaced. A [nil] map reads as
    an empty one, and the assignment [disk[key] = ...] of
    [resolveDefinition] panics on it; that assignment is made exactly when
    the resolution sets the flag, after the provider queries, the write of
    [last.txt] and the readings of the clock. *)
Definition clientSend (cfg : config) (p : paths) (word : string) : M sent :=
  bind (host dialOutcome) (λ up,
  if up : bool then ret (ToDaemon word)
  else
    bind (setMem (newLRU 64 (10 * minute))) (λ _,
    bind (loadDiskCache cacheFilePath) (λ m,
    bind (setDisk (default ∅ m)) (λ _,
    bind (setDiskDirty false) (λ _,
    bind (resolveDefinition cfg p word) (λ r,
    bind (get diskDirty) (λ dirty,
    match m with
    | None => if dirty : bool then ret Panicked
              else ret (Shown r.1.1.1 r.1.1.2 r.1.2)
    | Some _ =>
        bind (if dirty : bool
              then bind (get disk) (λ d, saveDiskCacheAtomic cacheFilePath d)
              else ret tt) (λ _,
        ret (Shown r.1.1.1 r.1.1.2 r.1.2))
    end))))))).

End Client.

(* ===================================================================== *)
(** * The text of the two remote services *)
(* ===================================================================== *)

(** [dictAPIEntry] and the two anonymous structs inside it. The field
    [Definition] of the innermost struct is [DefinitionText] here. *)
Record apiDefinition := {
  DefinitionText : string;
  Example : string;
}.

Record apiMeaning := {
  PartOfSpeech : string;
  Definitions : list apiDefinition;
}.

Record dictAPIEntry := {
  Word : string;
  Meanings : list apiMeaning;
}.

(** [wiktionaryDef]; its field [Definitions] is [WikiDefinitions] here. *)
Record wiktionaryDef := {
  WikiDefinitions : list string;
}.

(** [strings.ReplaceAll(s, old, "")] for [old] of one byte. *)
Fixpoint removeByte (c : ascii) (s : string) : string :=
  match s with
  | "" => ""
  | String b s' => if Ascii.eqb b c then removeByte c s' else String b (removeByte c s')
  end.

(** The loop of [lookupPrimary] over [entries[0].Meanings], lines 393-416,
    with its builder [b] and its counter [added]. *)
Fixpoint primaryMeanings (ms : list apiMeaning) (added : nat) (b : string)
  : string :=
  match ms with
  | [] => b
  | m :: rest =>
      match Definitions m with
      | [] => primaryMeanings rest added b
      | d :: _ =>
          let b := if (0 <? added)%nat then b +:+ Go.LF +:+ Go.LF else b in
          let b := if negb (String.eqb (PartOfSpeech m) "")
                   then b +:+ PartOfSpeech m +:+ Go.LF else b in
          let b := if negb (String.eqb (DefinitionText d) "")
                   then b +:+ DefinitionText d else b in
          let b := if negb (String.eqb (Example d) "")
                   then b +:+ Go.LF +:+ "Example: " +:+ Example d else b in
          let added := S added in
          if (3 <=? added)%nat then b else primaryMeanings rest added b
      end
  end.

(** [lookupPrimary] from line 387 on: from the decoded [entries] to what
    the function returns. *)
Definition primaryText (entries : list dictAPIEntry) : lookupResult :=
  match entries with
  | [] => LookupErr
  | e :: _ =>
      match Meanings e with
      | [] => LookupErr
      | ms =>
          let out := Go.TrimSpace (primaryMeanings ms 0 "") in
          if String.eqb out "" then LookupErr else LookupOk out
      end
  end.

(** The inner loop of [lookupWiktionary], lines 457-473, over the
    definitions of one bucket; it hands back [count] and [b]. *)
Fixpoint wiktionaryBucket (ds : list string) (count : nat) (b : string)
  : nat * string :=
  match ds with
  | [] => (count, b)
  | d :: rest =>
      let dd := Go.TrimSpace d in
      if String.eqb dd "" then wiktionaryBucket rest count b
      else
        let b := if (0 <? count)%nat then b +:+ Go.LF else b in
        let dd := removeByte "[" dd in
        let dd := removeByte "]" dd in
        let b := b +:+ "• " +:+ dd in
        let count := S count in
        if (7 <=? count)%nat then (count, b) else wiktionaryBucket rest count b
  end.

(** The outer loop, lines 456-477. *)
Fixpoint wiktionaryBuckets (defs : list wiktionaryDef) (count : nat) (b : string)
  : string :=
  match defs with
  | [] => b
  | bucket :: rest =>
      let (count, b) := wiktionaryBucket (WikiDefinitions bucket) count b in
      if (7 <=? count)%nat then b else wiktionaryBuckets rest count b
  end.

(** [lookupWiktionary] from line 449 on; [defs] is [payload["en"]]. *)
Definition wiktionaryText (defs : list wiktionaryDef) : lookupResult :=
  match defs with
  | [] => LookupErr
  | _ =>
      let out := Go.TrimSpace (wiktionaryBuckets defs 0 "") in
      if String.eqb out "" then LookupErr else LookupOk out
  end.

(* ===================================================================== *)
(** * Vocabulary of the statements *)
(* ===================================================================== *)

(** The keys of a cache, most recently touched first. *)
Definition keysOf (c : lruCache) : list string := map key (ll c).

(** [c.set(...)] with the arguments, and the clock reading, that leave
    the item [it] in the cache. *)
Definition lruCache_put (it : cacheItem) (c : lruCache) : lruCache :=
  lruCache_set (ts it) (key it) (title it) (body it) (full it) (src it) c.

(** A run of [set] calls, in order. *)
Definition putAll (its : list cacheItem) (c : lruCache) : lruCache :=
  foldl (λ c it, lruCache_put it c) c its.

(** A provider's answer that the resolver passes over: an error, or no
    text. *)
Definition failed (r : lookupResult) : bool :=
  match r with
  | LookupOk o => String.eqb o ""
  | LookupErr => true
  end.

(** The [source] string the resolver records for a provider. *)
Definition sourceKind (pr : provider) : string :=
  match pr with
  | Primary => "online"
  | Wiktionary => "wiktionary"
  | Offline => "offline"
  end.

(** The providers a configuration lets the resolver ask, in order. *)
Definition providerOrder (cfg : config) : list provider :=
  [Primary; Wiktionary] ++ (if noOffline cfg then [] else [Offline]).

(** Every candidate against the first provider, then every candidate
    against the second, and so on. *)
Definition planFor (providers : list provider) (cands : list string)
  : list (provider * string) :=
  flat_map (λ pr, map (pair pr) cands) providers.

(** What it means for a run of queries [evs], ending with the variables
    [(out, used, source)], to follow a plan: the queries are made in the
    order of the plan; either the last one is the first to yield text, and
    it fixes the text, the lemma used and the source, or the whole plan
    was tried without success and the placeholder is the outcome. *)
Definition followsPlan (plan : list (provider * string)) (word : string)
    (evs : list event) (acc : string * string * string) : Prop :=
  (∃ evs0 pr cand o rest,
      evs = evs0 ++ [(pr, cand, LookupOk o)]
      ∧ o ≠ ""
      ∧ Forall (λ ev : event, failed ev.2 = true) evs0
      ∧ plan = map fst evs ++ rest
      ∧ acc = (o, cand, sourceKind pr))
  ∨ (Forall (λ ev : event, failed ev.2 = true) evs
      ∧ map fst evs = plan
      ∧ acc = ("No definition found.", word, "none")).

(** The operations that leave both cache tiers, the dirty flag and the
    files alone. *)
Definition keeps `{Host} (s s' : store) : Prop :=
  mem s' = mem s ∧ disk s' = disk s ∧ diskDirty s' = diskDirty s
  ∧ files s' = files s.

(** The same, part of the way through a plan: [done] has been tried and
    [todo] is still ahead. *)
Definition partway (done todo : list (provider * string))
    (evs : list event) (acc : string * string * string) : Prop :=
  (∃ evs0 pr cand o rest,
      evs = evs0 ++ [(pr, cand, LookupOk o)]
      ∧ o ≠ ""
      ∧ Forall (λ ev : event, failed ev.2 = true) evs0
      ∧ done ++ todo = map fst evs ++ rest
      ∧ acc = (o, cand, sourceKind pr))
  ∨ (Forall (λ ev : event, failed ev.2 = true) evs
      ∧ map fst evs = done
      ∧ acc = ("", "", "none")).


(** A look-up that changes nothing but the world and adds its own query
    to the record. *)
Definition tracked `{Host} (pr : provider) (lookup : string → M lookupResult)
  : Prop :=
  ∀ cand s,
    keeps s (lookup cand s).2
    ∧ calls (lookup cand s).2 = calls s ++ [(pr, cand, (lookup cand s).1)].

(** The representation invariant of the memory cache: no key twice. *)
Definition lruWf (c : lruCache) : Prop := NoDup (keysOf c).

(* ===================================================================== *)
(** * Tactics *)
(* ===================================================================== *)

(** Unfold the operations of [M] down to functions on the store. *)
Ltac munfold :=
  unfold time_Since, time_Now;
  unfold bind, ret, get, host, setMem, setDisk, setDiskDirty, setFiles, logCall;
  cbv beta iota.

(** Case analysis on every test of a computation. *)
Ltac mcases :=
  repeat match goal with
  | |- context [match ?x with _ => _ end] =>
      lazymatch x with
      | context [match _ with _ => _ end] => fail
      | _ => destruct x eqn:?
      end
  end.

(** Closing a comparison of two integers that have been computed. *)
Ltac zcompare := vm_compute; first [reflexivity | discriminate].

(* ===================================================================== *)
(** * Vocabulary for the word picker *)
(* ===================================================================== *)

(** An ASCII byte that is neither white space nor in the cut set of
    [pickWord]. *)
Definition plainByte (c : ascii) : Prop :=
  Go.byteval c < 128 ∧ Go.asciiSpace (Go.byteval c) = false
  ∧ GoStrings.cutByte (Go.byteval c) = false.

(** A string made of word bytes, and not empty. *)
Definition wordy (w : string) : Prop := allBytes wordByte w = true ∧ w ≠ "".

(** The part of a string that follows its leading word shrinks from the
    right and is otherwise left alone. *)
Definition cutBack (f : string → string) : Prop :=
  ∀ w y, wordy w → ∃ y1 r, f (w +:+ y) = w +:+ y1 ∧ y = y1 +:+ r.

(** The cut at the first line feed, lines 212-214. *)
Definition firstLine (s : string) : string :=
  let i := GoStrings.IndexByte s "010" in if 0 <=? i then Go.sliceTo s i else s.

(** What may follow the word: nothing, or a blank and anything. *)
Definition blankOrEnd (y : string) : Prop := y = "" ∨ ∃ y', y = String " " y'.

(* ===================================================================== *)
(** * Vocabulary for the text of the services *)
(* ===================================================================== *)

(** A meaning with its first definition only. *)
Definition firstDefinition (m : apiMeaning) : apiMeaning :=
  {| PartOfSpeech := PartOfSpeech m; Definitions := take 1 (Definitions m) |}.

(** The meanings that are shown: the first three that have a definition,
    each with its first definition. *)
Definition shownMeanings (ms : list apiMeaning) : list apiMeaning :=
  take 3 (map firstDefinition
              (List.filter (λ m, negb (Nat.eqb (length (Definitions m)) 0)) ms)).

(** The definitions that are shown: of all the definitions of all the
    buckets, in order, the first seven that are not blank. *)
Definition shownDefinitions (defs : list wiktionaryDef) : list string :=
  take 7 (List.filter (λ d, negb (String.eqb (Go.TrimSpace d) ""))
                      (concat (map WikiDefinitions defs))).

(** A byte that is not a square bracket. *)
Definition noBracket (c : ascii) : bool :=
  negb (Ascii.eqb c "[" || Ascii.eqb c "]").

(** A byte that is not ASCII white space. *)
Definition noSpaceByte (c : ascii) : bool := negb (Go.asciiSpace (Go.byteval c)).

(* ===================================================================== *)
(** * More test doubles *)
(* ===================================================================== *)

(** A history of a cache of capacity 2: three keys are set, two are read,
    one of them long after it was set. *)
Definition sampleOps : list lruOp :=
  [ OpSet 0 "a" "A" "body a" "full a" "online";
    OpSet 1 "b" "B" "body b" "full b" "wiktionary";
    OpGet 2 "a";
    OpSet 3 "c" "C" "body c" "full c" "offline";
    OpGet 200 "c";
    OpSet 201 "a" "A2" "body a2" "full a2" "none" ].

(** A cache of capacity 2 and TTL 100 that holds "b" and, behind it,
    "a". *)
Definition twoItems : lruCache := putAll [itemA; itemB] (newLRU 2 100).

(** Options that differ from [defaultConfig] in debug, daemon and
    forceOnline, and paths that differ from [stubPaths] in all but
    [dict]. *)
Definition forceOnlineConfig : config :=
  {| debug := true; daemon := false; forceOnline := true; noOffline := false;
     fullView := false |}.

Definition otherPaths : paths :=
  {| wlPaste := ""; dict := "/usr/bin/dict"; zenity := "" |}.

(** A daemon that has just started, and one that let "cat" through at
    time 0. *)
Definition daemonStart `{Host} (w : World) : daemonState :=
  {| dstore := freshStore w; dlast := newDeduper |}.

Definition daemonAfterCat `{Host} (w : World) : daemonState :=
  {| dstore := freshStore w; dlast := {[ "cat" := 0 ]} |}.

(** A decoder that knows two files: one that holds null, and a snapshot
    with one entry for "cat". *)
Definition stubDecode (b : string) : decoded :=
  if String.eqb b "null" then DecodeNil
  else if String.eqb b "cat snapshot"
       then DecodeMap {[ "cat" := catEntry "online" 0 ]}
  else DecodeErr.

(** No daemon is running, and a file that is there can be read. *)
Definition stubLoader (h : Host) : @Loader h :=
  {| readFileOutcome := λ _ w, (true, w);
     jsonUnmarshal := stubDecode;
     dialOutcome := λ w, (false, w) |}.

Definition loaderLegend : @Loader hostLegend := stubLoader hostLegend.
Definition loaderNone : @Loader hostNone := stubLoader hostNone.

(** What a client finds when it starts: the given content of
    [cache.json], if any, and no other file. The caches and the flag are
    those of a process that has not set them yet. *)
Definition clientStore `{Host} (content : option string) (w : World) : store :=
  {| mem := newLRU 0 0; disk := ∅; diskDirty := false;
     files := match content with
              | Some b => {[ cacheFilePath := b ]}
              | None => ∅
              end;
     calls := []; world := w |}.

(* ===================================================================== *)
(** * Bytes and characters *)
(* ===================================================================== *)

(** The number of characters of a text in UTF-8: its bytes other than
    those that continue a character (0x80 to 0xBF). [len] counts bytes;
    the two agree on ASCII text only. *)
Fixpoint charCount (s : string) : Z :=
  match s with
  | "" => 0
  | String c s' =>
      (if (128 <=? Go.byteval c) && (Go.byteval c <=? 191) then 0 else 1)
      + charCount s'
  end.

(** A provider whose answer is 701 characters of two bytes each. *)
Definition accentText : string :=
  String.concat "" (replicate 701 "é").
Definition accentPrimary : string → lookupResult := λ _, LookupOk accentText.
Definition hostAccents : Host := stubHost accentPrimary failAll failAll WriteOk true.

(* ===================================================================== *)
(** * Facts about the string functions *)
(* ===================================================================== *)

Module GoFacts.
Import Go.

Lemma length_bytes s :
  length (String.list_ascii_of_string s) = String.length s.
Proof. induction s as [|c s IH]; simpl; congruence. Qed.

Lemma app_cons c a b : String c a +:+ b = String c (a +:+ b).
Proof. reflexivity. Qed.

Lemma app_nil_l b : "" +:+ b = b.
Proof. reflexivity. Qed.

Lemma bytes_app a b :
  String.list_ascii_of_string (a +:+ b)
  = String.list_ascii_of_string a ++ String.list_ascii_of_string b.
Proof.
  induction a as [|c a IH]; [reflexivity|].
  rewrite app_cons. simpl. congruence.
Qed.

Lemma of_bytes_app l1 l2 :
  String.string_of_list_ascii (l1 ++ l2)
  = String.string_of_list_ascii l1 +:+ String.string_of_list_ascii l2.
Proof.
  induction l1 as [|c l1 IH]; [reflexivity|].
  simpl. rewrite app_cons. congruence.
Qed.

Lemma length_app a b :
  String.length (a +:+ b) = (String.length a + String.length b)%nat.
Proof.
  induction a as [|c a IH]; [reflexivity|].
  rewrite app_cons. simpl. congruence.
Qed.

Lemma len_app a b : len (a +:+ b) = len a + len b.
Proof. unfold len. rewrite length_app. lia. Qed.

Lemma bytes_take n s :
  String.list_ascii_of_string (take n s)
  = List.firstn n (String.list_ascii_of_string s).
Proof.
  revert s. induction n as [|n IH]; intros [|c s]; simpl; try reflexivity.
  by rewrite IH.
Qed.

Lemma take_drop n s : take n s +:+ drop n s = s.
Proof.
  revert s. induction n as [|n IH]; intros [|c s]; simpl; try reflexivity.
  by rewrite app_cons, IH.
Qed.

Lemma length_take n s : (n ≤ String.length s)%nat → String.length (take n s) = n.
Proof.
  revert s. induction n as [|n IH]; intros [|c s]; simpl; intros Hn;
    try reflexivity; try lia.
  rewrite IH; [reflexivity | lia].
Qed.

(** *** Stripping *)

Lemma stripWhile_suffix width n l : ∃ a, l = a ++ stripWhile width n l.
Proof.
  revert l. induction n as [|n IH]; intros l; simpl.
  - by exists [].
  - destruct (width l) as [|w] eqn:Hw.
    + by exists [].
    + destruct (IH (List.skipn (S w) l)) as [a Ha].
      exists (List.firstn (S w) l ++ a).
      rewrite <- app_assoc, <- Ha. symmetry. apply firstn_skipn.
Qed.

Lemma stripWhile_none width n l : width l = 0%nat → stripWhile width n l = l.
Proof. intros Hw. destruct n; simpl; [reflexivity | by rewrite Hw]. Qed.

Lemma stripWhile_done width n l :
  width [] = 0%nat → (length l ≤ n)%nat → width (stripWhile width n l) = 0%nat.
Proof.
  intros Hnil. revert l. induction n as [|n IH]; intros l Hl; simpl.
  - destruct l; [exact Hnil | simpl in Hl; lia].
  - destruct (width l) as [|w] eqn:Hw; [exact Hw|].
    apply IH. rewrite length_skipn. lia.
Qed.

(** A white-space rune at the start of a list is still there when the
    list is extended. *)
Lemma leadSpace_app a b : leadSpace a ≠ 0%nat → leadSpace (a ++ b) = leadSpace a.
Proof.
  destruct a as [|c0 [|c1 [|c2 a]]]; simpl; try congruence.
  - destruct b as [|d0 [|d1 b]]; simpl;
      destruct (asciiSpace (byteval c0)); congruence.
  - destruct b as [|d0 b]; simpl;
      destruct (asciiSpace (byteval c0)); try congruence;
      destruct (space2 (byteval c0) (byteval c1)); congruence.
Qed.

Lemma leadSpace_prefix a b : leadSpace (a ++ b) = 0%nat → leadSpace a = 0%nat.
Proof.
  intros Hab. destruct (decide (leadSpace a = 0%nat)) as [|Hne]; [done|].
  rewrite (leadSpace_app a b Hne) in Hab. done.
Qed.

Lemma trimLeftSpace_suffix l : ∃ a, l = a ++ trimLeftSpace l.
Proof. apply stripWhile_suffix. Qed.

Lemma trimRightSpace_prefix l : ∃ b, l = trimRightSpace l ++ b.
Proof.
  unfold trimRightSpace.
  destruct (stripWhile_suffix trailSpace (length l) (List.rev l)) as [a Ha].
  exists (List.rev a).
  rewrite <- rev_app_distr, <- Ha. symmetry. apply rev_involutive.
Qed.

Lemma trimLeftSpace_id l : leadSpace l = 0%nat → trimLeftSpace l = l.
Proof. apply stripWhile_none. Qed.

Lemma trimRightSpace_id l : trailSpace (List.rev l) = 0%nat → trimRightSpace l = l.
Proof.
  intros Hl. unfold trimRightSpace. rewrite stripWhile_none by exact Hl.
  apply rev_involutive.
Qed.

Lemma trimSpace_trimmed l : trimmedBytes (trimRightSpace (trimLeftSpace l)).
Proof.
  split.
  - destruct (trimRightSpace_prefix (trimLeftSpace l)) as [b Hb].
    apply (leadSpace_prefix _ b). rewrite <- Hb.
    apply stripWhile_done; [reflexivity | lia].
  - unfold trimRightSpace. rewrite rev_involutive.
    apply stripWhile_done; [reflexivity | by rewrite length_rev].
Qed.

Lemma trimmed_trimSpace l :
  trimmedBytes l → trimRightSpace (trimLeftSpace l) = l.
Proof.
  intros [Hl Hr]. rewrite trimLeftSpace_id by exact Hl.
  by apply trimRightSpace_id.
Qed.

(** *** [TrimSpace] *)

Lemma TrimSpace_trimmed s : trimmed (TrimSpace s).
Proof.
  unfold trimmed, TrimSpace.
  rewrite String.list_ascii_of_string_of_list_ascii. apply trimSpace_trimmed.
Qed.

Lemma trimmed_TrimSpace s : trimmed s → TrimSpace s = s.
Proof.
  intros Hs. unfold TrimSpace. rewrite trimmed_trimSpace by exact Hs.
  apply String.string_of_list_ascii_of_string.
Qed.

Lemma TrimSpace_idemp s : TrimSpace (TrimSpace s) = TrimSpace s.
Proof. apply trimmed_TrimSpace, TrimSpace_trimmed. Qed.

(** [TrimSpace s] is a slice of [s]. *)
Lemma TrimSpace_slice s : ∃ a b, s = a +:+ TrimSpace s +:+ b.
Proof.
  unfold TrimSpace.
  destruct (trimLeftSpace_suffix (String.list_ascii_of_string s)) as [a Ha].
  destruct (trimRightSpace_prefix (trimLeftSpace (String.list_ascii_of_string s)))
    as [b Hb].
  exists (String.string_of_list_ascii a), (String.string_of_list_ascii b).
  rewrite <- !of_bytes_app, <- Hb, <- Ha.
  symmetry. apply String.string_of_list_ascii_of_string.
Qed.

Lemma TrimSpace_len s : len (TrimSpace s) ≤ len s.
Proof.
  destruct (TrimSpace_slice s) as (a & b & Hs).
  rewrite Hs at 2. rewrite !len_app. unfold len. lia.
Qed.

(** Cutting a trimmed string and trimming the piece gives a prefix of the
    string: nothing is removed at the front. *)
Lemma TrimSpace_take_prefix n s :
  trimmed s → ∃ rest, s = TrimSpace (take n s) +:+ rest.
Proof.
  intros [Hl _]. unfold TrimSpace. rewrite bytes_take.
  set (l := String.list_ascii_of_string s) in *.
  assert (Hhead : leadSpace (List.firstn n l) = 0%nat).
  { apply (leadSpace_prefix _ (List.skipn n l)). by rewrite firstn_skipn. }
  rewrite trimLeftSpace_id by exact Hhead.
  destruct (trimRightSpace_prefix (List.firstn n l)) as [b Hb].
  exists (String.string_of_list_ascii (b ++ List.skipn n l)).
  rewrite <- of_bytes_app, app_assoc, <- Hb, firstn_skipn.
  symmetry. apply String.string_of_list_ascii_of_string.
Qed.

End GoFacts.

(* ===================================================================== *)
(** * The lemma generator and the body clamp *)
(* ===================================================================== *)

Section PureFacts.
Context `{Unicode}.

Lemma dedupe_extends cands seen out :
  ∃ rest, dedupe cands seen out = out ++ rest.
Proof.
  revert seen out. induction cands as [|c cands IH]; intros seen out; simpl.
  - exists []. by rewrite app_nil_r.
  - destruct (decide (c ∈ seen)); [apply IH|].
    destruct (IH ({[c]} ∪ seen) (out ++ [c])) as [rest Hrest].
    exists (c :: rest). rewrite Hrest, <- app_assoc. reflexivity.
Qed.

Lemma dedupe_NoDup cands seen out :
  NoDup out → (∀ x, x ∈ out → x ∈ seen) → NoDup (dedupe cands seen out).
Proof.
  revert seen out. induction cands as [|c cands IH]; intros seen out Hnd Hsub;
    simpl; [exact Hnd|].
  destruct (decide (c ∈ seen)) as [Hin|Hnin]; [by apply IH|].
  apply IH.
  - apply NoDup_app. split_and!; [exact Hnd | | apply NoDup_singleton].
    intros x Hx ->%list_elem_of_singleton. apply Hnin, Hsub, Hx.
  - intros x [Hx|Hx%list_elem_of_singleton]%elem_of_app; set_solver.
Qed.

Lemma lemmaCandidates_head w :
  ∃ rest, lemmaCandidates w = Go.ToLower w :: rest.
Proof.
  unfold lemmaCandidates.
  match goal with |- context [dedupe ?l ∅ []] => assert (Hl : ∃ t, l = Go.ToLower w :: t) end.
  { repeat match goal with |- context [if ?b then _ else _] => destruct b end;
      simpl; eauto. }
  destruct Hl as [t ->]. simpl.
  destruct (decide (Go.ToLower w ∈ (∅ : gset string))) as [Hin|_]; [set_solver|].
  apply (dedupe_extends t _ [Go.ToLower w]).
Qed.

Lemma lemmaCandidates_NoDup w : NoDup (lemmaCandidates w).
Proof.
  apply dedupe_NoDup; [apply NoDup_nil_2 | intros x Hx; by apply elem_of_nil in Hx].
Qed.

Lemma length_take_le n s : (String.length (Go.take n s) ≤ n)%nat.
Proof.
  revert s. induction n as [|n IH]; intros [|c s]; simpl; try lia.
  specialize (IH s). lia.
Qed.

Lemma len_truncationMarker : Go.len truncationMarker = 26.
Proof. reflexivity. Qed.

(** [clampBody] on a text that is already trimmed, as [full] is. *)
Lemma clampBody_short s :
  Go.trimmed s → Go.len s ≤ bodyMaxChars → clampBody s = s.
Proof.
  intros Hs Hlen. unfold clampBody.
  rewrite (GoFacts.trimmed_TrimSpace s Hs).
  destruct (Go.len s <=? bodyMaxChars) eqn:E; [reflexivity | lia].
Qed.

Lemma clampBody_long s :
  Go.trimmed s → bodyMaxChars < Go.len s →
  clampBody s = Go.TrimSpace (Go.sliceTo s (bodyMaxChars - 80)) +:+ truncationMarker
  ∧ (∃ rest, s = Go.TrimSpace (Go.sliceTo s (bodyMaxChars - 80)) +:+ rest)
  ∧ Go.len (clampBody s) ≤ bodyMaxChars.
Proof.
  intros Hs Hlen.
  assert (Hc : clampBody s
               = Go.TrimSpace (Go.sliceTo s (bodyMaxChars - 80)) +:+ truncationMarker).
  { unfold clampBody. rewrite (GoFacts.trimmed_TrimSpace s Hs).
    destruct (Go.len s <=? bodyMaxChars) eqn:E; [lia | reflexivity]. }
  split_and!; [exact Hc | by apply GoFacts.TrimSpace_take_prefix |].
  rewrite Hc, GoFacts.len_app, len_truncationMarker.
  pose proof (GoFacts.TrimSpace_len (Go.sliceTo s (bodyMaxChars - 80))) as Ht.
  pose proof (length_take_le (Z.to_nat (bodyMaxChars - 80)) s) as Hk.
  unfold Go.sliceTo, Go.len, bodyMaxChars in *. lia.
Qed.

End PureFacts.

Section LemmaGenerator.
Context `{Unicode}.

(** C3 (amended). [lemmaCandidates] is a function of its argument alone;
    its result has no duplicates and starts with the lower-cased word; and
    lemmas("cats") = ["cats"; "cat"],
    lemmas("puppies") = ["puppies"; "puppy"; "puppi"; "puppie"] (the "-es"
    strip and the "-s" strip apply to it as well),
    lemmas("class") = ["class"]. *)
Theorem lemmaCandidates_ordered_unique :
  (∀ w, NoDup (lemmaCandidates w)
        ∧ ∃ rest, lemmaCandidates w = Go.ToLower w :: rest)
  ∧ lemmaCandidates "cats" = ["cats"; "cat"]
  ∧ lemmaCandidates "puppies" = ["puppies"; "puppy"; "puppi"; "puppie"]
  ∧ lemmaCandidates "class" = ["class"].
Proof.
  split_and!; [| reflexivity..].
  intros w. split; [apply lemmaCandidates_NoDup | apply lemmaCandidates_head].
Qed.

End LemmaGenerator.

(** C3 as stated fails on "puppies": the word also ends in "es" and in a
    single "s", so two more candidates follow "puppy". *)
Lemma lemmaCandidates_puppies_has_four :
  @lemmaCandidates plainUnicode "puppies" ≠ ["puppies"; "puppy"].
Proof. vm_compute. discriminate. Qed.

(* ===================================================================== *)
(** * The memory cache *)
(* ===================================================================== *)

Section LruFacts.

Lemma evict_take rounds max l :
  (length l ≤ rounds)%nat → evict rounds max l = take (Z.to_nat max) l.
Proof.
  revert l. induction rounds as [|rounds IH]; intros l Hl; simpl.
  - destruct l; [by rewrite take_nil | simpl in Hl; lia].
  - destruct (Z.gtb_spec (Z.of_nat (length l)) max) as [Hgt|Hle].
    + destruct l as [|x l']; [by rewrite take_nil|].
      rewrite IH.
      * rewrite removelast_firstn_len, take_take. f_equal. simpl length in *. lia.
      * rewrite removelast_firstn_len, length_take. simpl length in *. lia.
    + symmetry. apply take_ge. lia.
Qed.

Lemma lruFind_None k l : lruFind k l = None ↔ k ∉ map key l.
Proof.
  unfold lruFind. induction l as [|it l IH]; simpl.
  - split; [intros _; apply not_elem_of_nil | done].
  - rewrite not_elem_of_cons. destruct (String.eqb_spec (key it) k) as [->|Hne].
    + split; [done | intros [? _]; done].
    + rewrite IH. split; [intros ?; split; congruence | intros [_ ?]; done].
Qed.

Lemma lruFind_Some k l it :
  lruFind k l = Some it → it ∈ l ∧ key it = k.
Proof.
  unfold lruFind. intros Hf. apply find_some in Hf as [Hin Hk].
  split; [by apply list_elem_of_In | by apply String.eqb_eq].
Qed.

(** With keys not repeated, the element found for a key is the element
    that carries it. *)
Lemma lruFind_elem l it :
  NoDup (map key l) → it ∈ l → lruFind (key it) l = Some it.
Proof.
  unfold lruFind. induction l as [|x l IH]; simpl; intros Hnd Hin.
  - by apply elem_of_nil in Hin.
  - apply NoDup_cons in Hnd as [Hx Hnd].
    apply elem_of_cons in Hin as [->|Hin].
    + by rewrite String.eqb_refl.
    + destruct (String.eqb_spec (key x) (key it)) as [Heq|_]; [|by apply IH].
      exfalso. apply Hx. rewrite Heq. by apply list_elem_of_fmap_2.
Qed.

Lemma lruRemove_length k l it :
  lruFind k l = Some it → length l = S (length (lruRemove k l)).
Proof.
  unfold lruFind. induction l as [|x l IH]; simpl; [done|].
  destruct (String.eqb (key x) k); [done|].
  intros Hf. simpl. by rewrite <- IH.
Qed.

Lemma lruRemove_subset k l x : x ∈ lruRemove k l → x ∈ l.
Proof.
  induction l as [|y l IH]; simpl; [done|].
  destruct (String.eqb (key y) k); rewrite ?elem_of_cons; intuition.
Qed.

Lemma lruRemove_other k l x : x ∈ l → key x ≠ k → x ∈ lruRemove k l.
Proof.
  induction l as [|y l IH]; simpl; [done|].
  intros [->|Hx]%elem_of_cons Hk.
  - apply String.eqb_neq in Hk. rewrite Hk. by left.
  - destruct (String.eqb (key y) k); [done | right; by apply IH].
Qed.

Lemma lruRemove_keys k l :
  NoDup (map key l) →
  NoDup (map key (lruRemove k l)) ∧ k ∉ map key (lruRemove k l).
Proof.
  induction l as [|y l IH]; simpl; intros Hnd.
  - split; [constructor | apply not_elem_of_nil].
  - apply NoDup_cons in Hnd as [Hy Hnd].
    destruct (String.eqb_spec (key y) k) as [<-|Hne]; [done|].
    destruct (IH Hnd) as [IH1 IH2]. simpl. split.
    + apply NoDup_cons. split; [|done].
      intros (x & Hx1 & Hx2)%list_elem_of_fmap. apply Hy.
      rewrite Hx1. apply list_elem_of_fmap_2. by eapply lruRemove_subset.
    + rewrite not_elem_of_cons. split; [congruence | done].
Qed.

Lemma cacheItem_eta it :
  {| key := key it; title := title it; body := body it; full := full it;
     ts := ts it; src := src it |} = it.
Proof. by destruct it. Qed.

(** [set] of a key that is not cached: the item goes to the front and the
    list is cut at the capacity from the back. *)
Lemma lruCache_put_fresh it c :
  key it ∉ keysOf c →
  ll (lruCache_put it c) = take (Z.to_nat (max c)) (it :: ll c).
Proof.
  intros Hk. unfold lruCache_put, lruCache_set.
  apply lruFind_None in Hk. rewrite Hk. cbn [ll].
  rewrite cacheItem_eta. by apply evict_take.
Qed.

Lemma lruCache_put_max it c : max (lruCache_put it c) = max c.
Proof. unfold lruCache_put, lruCache_set. by destruct (lruFind _ _). Qed.

Lemma lruCache_put_ttl it c : ttl (lruCache_put it c) = ttl c.
Proof. unfold lruCache_put, lruCache_set. by destruct (lruFind _ _). Qed.

(** A hit moves the element to the front. *)
Lemma lruCache_get_hit now k c it :
  lruFind k (ll c) = Some it → now - ts it ≤ ttl c →
  lruCache_get now k c
  = (Some it, {| ll := it :: lruRemove k (ll c); max := max c; ttl := ttl c |}).
Proof.
  intros Hf Hage. unfold lruCache_get. rewrite Hf.
  destruct (Z.gtb_spec (now - ts it) (ttl c)); [lia | reflexivity].
Qed.

(** Filling an empty cache with distinct keys keeps the last [n] of them,
    most recent first. *)
Lemma putAll_new (n : nat) t its :
  NoDup (map key its) →
  ll (putAll its (newLRU (Z.of_nat n) t)) = take n (rev its)
  ∧ max (putAll its (newLRU (Z.of_nat n) t)) = Z.of_nat n
  ∧ ttl (putAll its (newLRU (Z.of_nat n) t)) = t.
Proof.
  induction its as [|it its IH] using rev_ind; intros Hnd.
  - simpl. by rewrite take_nil.
  - rewrite fmap_app in Hnd. apply NoDup_app in Hnd as (Hnd & Hdisj & _).
    destruct (IH Hnd) as (IHl & IHm & IHt).
    unfold putAll in *. rewrite foldl_snoc.
    rewrite lruCache_put_max, lruCache_put_ttl. split_and!; [|done..].
    rewrite lruCache_put_fresh.
    + rewrite IHm, IHl, Nat2Z.id, rev_unit.
      destruct n as [|n]; [done|]. simpl. f_equal.
      rewrite take_take. f_equal. lia.
    + unfold keysOf. rewrite IHl. intros Hin.
      apply (Hdisj (key it)); [|simpl; by left].
      apply list_elem_of_fmap in Hin as (x & -> & Hx).
      apply list_elem_of_fmap_2.
      apply subseteq_take, list_elem_of_In, in_rev in Hx.
      by apply list_elem_of_In.
Qed.

(** The methods keep the representation invariant, so a key has one
    element and [c.items[k]] is that element. *)
Lemma lruCache_get_wf now k c : lruWf c → lruWf (lruCache_get now k c).2.
Proof.
  unfold lruWf, keysOf, lruCache_get. intros Hwf.
  destruct (lruFind k (ll c)) as [it|] eqn:Hf; [|done].
  destruct (lruRemove_keys k (ll c) Hwf) as [Hnd Hk].
  destruct (now - ts it >? ttl c); cbn [snd ll]; [done|].
  apply lruFind_Some in Hf as [_ <-]. simpl. by apply NoDup_cons.
Qed.

Lemma lruCache_set_wf now k t b f sr c :
  lruWf c → lruWf (lruCache_set now k t b f sr c).
Proof.
  unfold lruWf, keysOf, lruCache_set. intros Hwf.
  destruct (lruFind k (ll c)) as [it|] eqn:Hf; cbn [ll].
  - destruct (lruRemove_keys k (ll c) Hwf) as [Hnd Hk].
    apply lruFind_Some in Hf as [_ <-]. simpl. by apply NoDup_cons.
  - rewrite evict_take by done.
    apply (sublist_NoDup _ (map key ({| key := k; title := t; body := b;
                                        full := f; ts := now; src := sr |}
                                      :: ll c))).
    + simpl. apply NoDup_cons. split; [by apply lruFind_None | done].
    + change (map key) with (fmap (M:=list) key). rewrite fmap_take.
      apply sublist_take.
Qed.

(** [set] never leaves more elements than the capacity. *)
Lemma lruCache_set_bound now k t b f sr c :
  Z.of_nat (length (ll c)) ≤ max c →
  Z.of_nat (length (ll (lruCache_set now k t b f sr c))) ≤ max c.
Proof.
  unfold lruCache_set. intros Hlen.
  destruct (lruFind k (ll c)) as [it|] eqn:Hf; cbn [ll].
  - simpl. rewrite (lruRemove_length k (ll c) it Hf) in Hlen. simpl in Hlen. lia.
  - rewrite evict_take by done. rewrite length_take. simpl length in *. lia.
Qed.

End LruFacts.

Section LruEviction.

Lemma NoDup_keys_rev (its : list cacheItem) :
  NoDup (map key its) → NoDup (map key (rev its)).
Proof.
  intros Hnd. rewrite map_rev. apply NoDup_ListNoDup, List.NoDup_rev.
  by apply NoDup_ListNoDup.
Qed.

Lemma elem_of_rev {A} (x : A) (l : list A) : x ∈ rev l ↔ x ∈ l.
Proof. rewrite !list_elem_of_In. symmetry. apply in_rev. Qed.

(** C8 (amended). Inserting N+1 distinct keys into an empty memory cache
    of capacity N evicts exactly the key inserted first, the least
    recently touched one, and keeps every other key. A [get] that hits
    (the entry is within the TTL) moves its key to the front; the insert
    that follows then removes the entry at the back of the list, and when
    the capacity is at least 2 the touched key is not that entry and stays
    cached. *)
Theorem lru_evicts_least_recently_touched
    (n : nat) (t : Z) (its : list cacheItem) (new : cacheItem) :
  NoDup (map key (its ++ [new])) →
  length its = n →
  let c := putAll its (newLRU (Z.of_nat n) t) in
  keysOf (lruCache_put new c) = rev (tail (map key (its ++ [new])))
  ∧ ∀ it now, it ∈ its → now - ts it ≤ t →
      let c' := (lruCache_get now (key it) c).2 in
      (lruCache_get now (key it) c).1 = Some it
      ∧ ll c' = it :: lruRemove (key it) (rev its)
      ∧ ll (lruCache_put new c') = new :: removelast (ll c')
      ∧ ((2 ≤ n)%nat → it ∈ ll (lruCache_put new c')).
Proof.
  intros Hnd Hlen c.
  pose proof Hnd as Hnd'. rewrite fmap_app in Hnd'.
  apply NoDup_app in Hnd' as (Hits & Hnew & _).
  assert (Hfresh : key new ∉ map key its).
  { intros Hin. apply (Hnew _ Hin). simpl. by left. }
  destruct (putAll_new n t its Hits) as (Hll & Hmax & Httl). fold c in Hll, Hmax, Httl.
  rewrite take_ge in Hll by (rewrite length_rev; lia).
  split.
  - unfold keysOf. rewrite lruCache_put_fresh.
    2:{ unfold keysOf. rewrite Hll, map_rev. by rewrite elem_of_rev. }
    rewrite Hmax, Hll, Nat2Z.id, fmap_app. simpl.
    destruct its as [|a its']; simpl in *; subst n; [done|].
    rewrite rev_unit, <- map_rev. simpl. f_equal.
    rewrite take_app_length'; [done|]. by rewrite length_rev.
  - intros it now Hit Hage c'.
    assert (Hf : lruFind (key it) (ll c) = Some it).
    { rewrite Hll. apply lruFind_elem; [by apply NoDup_keys_rev | by apply elem_of_rev]. }
    assert (Hget : lruCache_get now (key it) c
                   = (Some it, {| ll := it :: lruRemove (key it) (ll c);
                                  max := max c; ttl := ttl c |})).
    { apply lruCache_get_hit; [done | by rewrite Httl]. }
    subst c'. rewrite Hget. cbn [fst snd ll]. rewrite Hll.
    assert (Hlen' : length (it :: lruRemove (key it) (rev its)) = n).
    { simpl. rewrite <- (lruRemove_length (key it) (rev its) it) by (by rewrite <- Hll).
      by rewrite length_rev. }
    assert (Hput : ll (lruCache_put new {| ll := it :: lruRemove (key it) (rev its);
                                          max := max c; ttl := ttl c |})
                   = new :: removelast (it :: lruRemove (key it) (rev its))).
    { rewrite lruCache_put_fresh.
      - cbn [ll max]. rewrite Hmax, Nat2Z.id, removelast_firstn_len, Hlen'.
        destruct n as [|n']; [simpl in Hlen'; lia | reflexivity].
      - unfold keysOf. cbn [ll]. intros [Heq|Hin]%elem_of_cons.
        + apply Hfresh. rewrite Heq. by apply list_elem_of_fmap_2.
        + apply Hfresh. apply list_elem_of_fmap in Hin as (x & -> & Hx).
          apply list_elem_of_fmap_2.
          apply lruRemove_subset in Hx. exact (proj1 (elem_of_rev _ _) Hx). }
    split_and!; [done | done | exact Hput |].
    intros Hn. rewrite Hput.
    destruct (lruRemove (key it) (rev its)) as [|y rest] eqn:Hrest.
    + simpl in Hlen'. lia.
    + right. simpl. by left.
Qed.

Lemma lru_evicts_least_recently_touched_witness :
  NoDup (map key ([itemA; itemB] ++ [itemC]))
  ∧ length [itemA; itemB] = 2%nat
  ∧ itemA ∈ [itemA; itemB]
  ∧ 5 - ts itemA ≤ cacheTTL
  ∧ (2 ≤ 2)%nat
  ∧ keysOf (lruCache_put itemC (putAll [itemA; itemB] (newLRU 2 cacheTTL)))
    = ["c"; "b"]
  ∧ itemA ∈ ll (lruCache_put itemC
                  (lruCache_get 5 "a" (putAll [itemA; itemB] (newLRU 2 cacheTTL))).2).
Proof.
  assert (Hnd : NoDup (map key ([itemA; itemB] ++ [itemC]))).
  { apply (bool_decide_unpack (NoDup (map key ([itemA; itemB] ++ [itemC])))).
    vm_compute. exact I. }
  assert (Hin : itemA ∈ [itemA; itemB]) by (by left).
  assert (Hage : 5 - ts itemA ≤ cacheTTL) by (vm_compute; discriminate).
  destruct (lru_evicts_least_recently_touched 2 cacheTTL [itemA; itemB] itemC
              Hnd eq_refl) as [Hkeys Htouch].
  destruct (Htouch itemA 5 Hin Hage) as (_ & _ & _ & Hkept).
  split_and!; [exact Hnd | reflexivity | exact Hin | exact Hage | lia
              | exact Hkeys | exact (Hkept (le_n 2))].
Defined.

(** C8 as stated fails for a cache of capacity 1: the key "a" is touched
    by a [get] that hits, and the second insert still evicts it. *)
Lemma lru_touched_key_evicted_at_capacity_one :
  let c := putAll [itemA] (newLRU 1 cacheTTL) in
  (lruCache_get 5 "a" c).1 = Some itemA
  ∧ keysOf (lruCache_put itemB (lruCache_get 5 "a" c).2) = ["b"]
  ∧ itemA ∉ ll (lruCache_put itemB (lruCache_get 5 "a" c).2).
Proof.
  split_and!; [reflexivity | reflexivity |].
  intros Hin. vm_compute in Hin.
  apply list_elem_of_singleton in Hin. discriminate Hin.
Qed.

End LruEviction.

(* ===================================================================== *)
(** * The resolver *)
(* ===================================================================== *)

Section ResolverFacts.
Context `{Unicode} `{Host}.

Lemma keeps_refl s : keeps s s.
Proof. by repeat split. Qed.

Lemma keeps_trans s1 s2 s3 : keeps s1 s2 → keeps s2 s3 → keeps s1 s3.
Proof. unfold keeps. intros (?&?&?&?) (?&?&?&?). split_and!; congruence. Qed.

(** ** The providers *)

Lemma lookupPrimary_tracked : tracked Primary lookupPrimary.
Proof.
  intros cand s. unfold lookupPrimary. munfold.
  destruct (primaryService cand (world s)) as [r w]. by repeat split.
Qed.

Lemma lookupWiktionary_tracked : tracked Wiktionary lookupWiktionary.
Proof.
  intros cand s. unfold lookupWiktionary. munfold.
  destruct (wiktionaryService cand (world s)) as [r w]. by repeat split.
Qed.

Lemma offlineLookup_tracked p : tracked Offline (offlineLookup p).
Proof.
  intros cand s. unfold offlineLookup. munfold.
  destruct (String.eqb (dict p) ""); [by repeat split|].
  destruct (dictProcess (dict p) cand (world s)) as [r w]. by repeat split.
Qed.

Lemma forCandidates_cons lookup kind cand rest acc s :
  forCandidates lookup kind (cand :: rest) acc s
  = match (lookup cand s).1 with
    | LookupOk o =>
        if negb (String.eqb o "") then ((o, cand, kind), (lookup cand s).2)
        else forCandidates lookup kind rest acc (lookup cand s).2
    | LookupErr => forCandidates lookup kind rest acc (lookup cand s).2
    end.
Proof.
  simpl. unfold bind. destruct (lookup cand s) as [[o|] s1]; [|done].
  cbn [fst snd]. by destruct (negb (String.eqb o "")).
Qed.

(** One loop over the candidates. *)
Lemma forCandidates_trace pr lookup kind cands acc s :
  tracked pr lookup →
  let r := forCandidates lookup kind cands acc s in
  keeps s r.2
  ∧ ∃ evs, calls r.2 = calls s ++ evs
      ∧ ((Forall (λ ev : event, failed ev.2 = true) evs
          ∧ map fst evs = map (pair pr) cands ∧ r.1 = acc)
         ∨ (∃ evs0 cand o pre post,
              evs = evs0 ++ [(pr, cand, LookupOk o)] ∧ o ≠ ""
              ∧ Forall (λ ev : event, failed ev.2 = true) evs0
              ∧ cands = pre ++ cand :: post
              ∧ map fst evs0 = map (pair pr) pre
              ∧ r.1 = (o, cand, kind))).
Proof.
  intros Htr. revert s. induction cands as [|cand rest IH]; intros s.
  - simpl. split; [apply keeps_refl|]. exists []. rewrite app_nil_r.
    split; [done|]. left. by repeat split.
  - cbv zeta. rewrite forCandidates_cons. destruct (Htr cand s) as [Hk Hc].
    destruct (lookup cand s) as [r s1] eqn:Hl. cbn [fst snd] in Hk, Hc |- *.
    assert (Hgo : failed r = true →
      let r' := forCandidates lookup kind rest acc s1 in
      keeps s r'.2
      ∧ ∃ evs, calls r'.2 = calls s ++ evs
          ∧ ((Forall (λ ev : event, failed ev.2 = true) evs
              ∧ map fst evs = (pr, cand) :: map (pair pr) rest ∧ r'.1 = acc)
             ∨ (∃ evs0 cand0 o pre post,
                  evs = evs0 ++ [(pr, cand0, LookupOk o)] ∧ o ≠ ""
                  ∧ Forall (λ ev : event, failed ev.2 = true) evs0
                  ∧ cand :: rest = pre ++ cand0 :: post
                  ∧ map fst evs0 = map (pair pr) pre
                  ∧ r'.1 = (o, cand0, kind)))).
    { intros Hf. destruct (IH s1) as [Hk' (evs & Hevs & Hout)].
      split; [by eapply keeps_trans|].
      exists ((pr, cand, r) :: evs). split.
      { rewrite Hevs, Hc, <- app_assoc. reflexivity. }
      destruct Hout as [(Hall & Hmap & Hacc)|(evs0 & c0 & o & pre & post & He & Ho & Hall & Hc0 & Hmap & Hacc)].
      - left. split_and!; [by constructor | simpl; by rewrite Hmap | done].
      - right. exists ((pr, cand, r) :: evs0), c0, o, (cand :: pre), post.
        split_and!; [by rewrite He | done | by constructor | by rewrite Hc0
                    | simpl; by rewrite Hmap | done]. }
    destruct r as [o|]; [|by apply Hgo].
    destruct (String.eqb_spec o "") as [->|Hne]; [by apply Hgo|].
    cbn [negb fst snd]. split; [done|].
    exists [(pr, cand, LookupOk o)]. split; [done|]. right.
    exists [], cand, o, [], rest. by repeat split.
Qed.


Lemma planFor_order cfg cands :
  planFor (providerOrder cfg) cands
  = map (pair Primary) cands ++ map (pair Wiktionary) cands
    ++ (if noOffline cfg then [] else map (pair Offline) cands).
Proof.
  unfold planFor, providerOrder. destruct (noOffline cfg); simpl;
    by rewrite ?app_nil_r.
Qed.

(** One of the three loops with its guard, after part of the plan. *)
Lemma chain_step pr lookup cands done todo evs (acc acc' : found) s0 s s' :
  tracked pr lookup →
  calls s = calls s0 ++ evs →
  partway done (map (pair pr) cands ++ todo) evs acc →
  (if String.eqb acc.1.1 ""
   then forCandidates lookup (sourceKind pr) cands acc
   else ret acc) s = (acc', s') →
  keeps s s'
  ∧ ∃ evs', calls s' = calls s0 ++ evs'
      ∧ partway (done ++ map (pair pr) cands) todo evs' acc'.
Proof.
  intros Htr Hcalls [(evs0 & pr0 & cand & o & rest & He & Ho & Hall & Hplan & ->)
                    |(Hall & Hmap & ->)]; cbn [fst snd].
  - apply String.eqb_neq in Ho as Ho'. rewrite Ho'. unfold ret.
    intros [= <- <-].
    split; [apply keeps_refl|]. exists evs. split; [done|]. left.
    exists evs0, pr0, cand, o, rest. split_and!; try done.
    by rewrite <- app_assoc.
  - rewrite String.eqb_refl. intros Hrun.
    destruct (forCandidates_trace pr lookup (sourceKind pr) cands ("", "", "none") s Htr)
      as [Hk (evs2 & Hevs2 & Hout)].
    rewrite Hrun in Hk, Hevs2, Hout. cbn [fst snd] in Hk, Hevs2, Hout.
    split; [done|]. exists (evs ++ evs2). split.
    { by rewrite Hevs2, Hcalls, app_assoc. }
    destruct Hout as [(Hall2 & Hmap2 & Hacc)
                     |(evs0 & cand & o & pre & post & He & Ho & Hall2 & Hc & Hmap2 & Hacc)].
    + right. split_and!; [by apply Forall_app | | done].
      rewrite map_app. f_equal; [exact Hmap | exact Hmap2].
    + left. exists (evs ++ evs0), pr, cand, o, (map (pair pr) post ++ todo).
      split_and!; [by rewrite He, app_assoc | done | by apply Forall_app | | done].
      rewrite He, Hc, !map_app, <- !app_assoc. simpl.
      f_equal; [exact (eq_sym Hmap)|]. f_equal. exact (eq_sym Hmap2).
Qed.

(** The provider chain follows the plan of the configuration. *)
Lemma lookupChain_trace cfg p word s acc s' :
  lookupChain cfg p word s = (acc, s') →
  keeps s s'
  ∧ ∃ evs, calls s' = calls s ++ evs
      ∧ followsPlan (planFor (providerOrder cfg) (lemmaCandidates word)) word evs acc.
Proof.
  rewrite planFor_order. unfold lookupChain.
  set (cands := lemmaCandidates word).
  assert (Hp0 : partway [] (map (pair Primary) cands ++ map (pair Wiktionary) cands
                 ++ (if noOffline cfg then [] else map (pair Offline) cands))
                 [] ("", "", "none")).
  { right. by repeat split. }
  assert (Hc0 : calls s = calls s ++ []) by (by rewrite app_nil_r).
  unfold bind at 1.
  destruct (forCandidates lookupPrimary "online" cands ("", "", "none") s)
    as [acc1 s1] eqn:E1.
  destruct (chain_step Primary lookupPrimary cands _ _ _ _ acc1 s s s1
              lookupPrimary_tracked Hc0 Hp0 E1) as [Hk1 (evs1 & Hc1 & Hp1)].
  unfold bind at 1.
  destruct ((if String.eqb acc1.1.1 ""
             then forCandidates lookupWiktionary "wiktionary" cands acc1
             else ret acc1) s1) as [acc2 s2] eqn:E2.
  destruct (chain_step Wiktionary lookupWiktionary cands _ _ _ _ acc2 s s1 s2
              lookupWiktionary_tracked Hc1 Hp1 E2) as [Hk2 (evs2 & Hc2 & Hp2)].
  unfold bind at 1.
  destruct ((if String.eqb acc2.1.1 "" && negb (noOffline cfg)
             then forCandidates (offlineLookup p) "offline" cands acc2
             else ret acc2) s2) as [acc3 s3] eqn:E3.
  assert (Hlast : keeps s2 s3 ∧ ∃ evs3, calls s3 = calls s ++ evs3
    ∧ partway (map (pair Primary) cands ++ map (pair Wiktionary) cands
               ++ (if noOffline cfg then [] else map (pair Offline) cands))
              [] evs3 acc3).
  { destruct (noOffline cfg).
    - rewrite andb_false_r in E3. injection E3 as <- <-.
      split; [apply keeps_refl|]. exists evs2. split; [done|].
      by rewrite !app_nil_l, !app_nil_r in *.
    - rewrite andb_true_r in E3.
      assert (Hp2' : partway (([] ++ map (pair Primary) cands)
                              ++ map (pair Wiktionary) cands)
                       (map (pair Offline) cands ++ []) evs2 acc2).
      { by rewrite app_nil_r. }
      destruct (chain_step Offline (offlineLookup p) cands _ _ _ _ acc3 s s2 s3
                  (offlineLookup_tracked p) Hc2 Hp2' E3) as [Hk3 (evs3 & Hc3 & Hp3)].
      split; [done|]. exists evs3. split; [done|].
      by rewrite !app_nil_l, <- !app_assoc in Hp3. }
  destruct Hlast as (Hk3 & evs3 & Hc3 & Hp3).
  unfold ret. intros [= <- <-]. split.
  { eapply keeps_trans; [|exact Hk3]. by eapply keeps_trans. }
  exists evs3. split; [done|].
  destruct Hp3 as [(evs0 & pr0 & cand & o & rest & He & Ho & Hall & Hplan & ->)
                  |(Hall & Hmap & ->)]; cbn [fst snd].
  - apply String.eqb_neq in Ho as Ho'. rewrite Ho'. left.
    exists evs0, pr0, cand, o, rest. split_and!; try done.
    by rewrite app_nil_r in Hplan.
  - right. by repeat split.
Qed.


(** ** The two cache tiers *)

Lemma mem_get_absent k s :
  lruFind k (ll (mem s)) = None → mem_get k s = (None, s).
Proof. intros Hf. unfold mem_get. munfold. rewrite Hf. reflexivity. Qed.

Lemma mem_get_present k s it :
  lruFind k (ll (mem s)) = Some it →
  mem_get k s
  = ((lruCache_get (clock (world s)).1 k (mem s)).1,
     withMem (lruCache_get (clock (world s)).1 k (mem s)).2
             (withWorld (clock (world s)).2 s)).
Proof.
  intros Hf. unfold mem_get. munfold. rewrite Hf.
  destruct (clock (world s)) as [now w]. cbn [fst snd].
  by destruct (lruCache_get now k (mem s)).
Qed.

Lemma mem_set_run k t b f sr s :
  mem_set k t b f sr s
  = (tt, withMem (lruCache_set (clock (world s)).1 k t b f sr (mem s))
                 (withWorld (clock (world s)).2 s)).
Proof.
  unfold mem_set. munfold. by destruct (clock (world s)) as [now w].
Qed.

Lemma lruCache_get_max now k c : max (lruCache_get now k c).2 = max c.
Proof.
  unfold lruCache_get. destruct (lruFind k (ll c)); [|done].
  by destruct (now - ts _ >? ttl c).
Qed.

Lemma lruCache_get_ttl now k c : ttl (lruCache_get now k c).2 = ttl c.
Proof.
  unfold lruCache_get. destruct (lruFind k (ll c)); [|done].
  by destruct (now - ts _ >? ttl c).
Qed.

Lemma lruCache_set_max now k t b f sr c : max (lruCache_set now k t b f sr c) = max c.
Proof. unfold lruCache_set. by destruct (lruFind k (ll c)). Qed.

Lemma lruCache_set_ttl now k t b f sr c : ttl (lruCache_set now k t b f sr c) = ttl c.
Proof. unfold lruCache_set. by destruct (lruFind k (ll c)). Qed.

(** After [set], the entry is at the front if the cache holds anything
    at all. *)
Lemma lruCache_set_front now k t b f sr c :
  0 < max c →
  ∃ it rest, ll (lruCache_set now k t b f sr c) = it :: rest
    ∧ key it = k ∧ title it = t ∧ body it = b ∧ full it = f ∧ src it = sr
    ∧ ts it = now.
Proof.
  intros Hmax. unfold lruCache_set.
  destruct (lruFind k (ll c)) as [it|] eqn:Hf.
  - apply lruFind_Some in Hf as [_ Hk]. eexists _, _. cbn [ll].
    split; [reflexivity|]. by repeat split.
  - cbn [ll]. rewrite evict_take by done.
    destruct (Z.to_nat (max c)) as [|n] eqn:Hn; [lia|].
    eexists _, _. split; [reflexivity|]. by repeat split.
Qed.

(** A hit on the element at the front. *)
Lemma lruCache_get_front now k c it rest :
  ll c = it :: rest → key it = k → now - ts it ≤ ttl c →
  lruCache_get now k c = (Some it, c).
Proof.
  intros Hll Hk Hage. unfold lruCache_get, lruFind. rewrite Hll. simpl.
  rewrite Hk, String.eqb_refl.
  destruct (Z.gtb_spec (now - ts it) (ttl c)); [lia|].
  f_equal. destruct c; simpl in *. by subst.
Qed.

(** The cache look-up touches neither the persisted map, nor the dirty
    flag, nor any file, and asks no provider. *)
Lemma lookupCached_frame k s r s' :
  lookupCached k s = (r, s') →
  disk s' = disk s ∧ diskDirty s' = diskDirty s ∧ files s' = files s
  ∧ calls s' = calls s
  ∧ max (mem s') = max (mem s) ∧ ttl (mem s') = ttl (mem s).
Proof.
  unfold lookupCached, mem_get, mem_set. munfold. mcases.
  all: intros [= <- <-]; cbn [disk diskDirty files calls mem withMem withWorld].
  all: repeat match goal with
       | E : lruCache_get ?n ?k ?c = (_, ?c') |- _ =>
           pose proof (lruCache_get_max n k c) as ?;
           pose proof (lruCache_get_ttl n k c) as ?;
           rewrite E in *; clear E
       end; cbn [snd] in *.
  all: rewrite ?lruCache_set_max, ?lruCache_set_ttl.
  all: by repeat split.
Qed.

Lemma lruCache_get_Some now k c it c' :
  lruCache_get now k c = (Some it, c') →
  lruFind k (ll c) = Some it ∧ now - ts it ≤ ttl c
  ∧ c' = {| ll := it :: lruRemove k (ll c); max := max c; ttl := ttl c |}.
Proof.
  unfold lruCache_get. destruct (lruFind k (ll c)) as [it0|]; [|done].
  destruct (Z.gtb_spec (now - ts it0) (ttl c)); [done|].
  intros [= <- <-]. by repeat split.
Qed.

(** A hit leaves the entry at the front of the memory cache, whichever
    tier answered. *)
Lemma lookupCached_hit_front k s res s' :
  lookupCached k s = (Some res, s') → 0 < max (mem s) →
  ∃ it rest, ll (mem s') = it :: rest ∧ key it = k
    ∧ res = (title it, body it, full it, src it).
Proof.
  intros Hrun Hmax. revert Hrun.
  unfold lookupCached, mem_get, mem_set. munfold. mcases.
  all: intros [= <- <-]; cbn [mem withMem withWorld].
  all: try match goal with
       | E : lruCache_get ?n ?k ?c = (Some ?it, ?c') |- _ =>
           apply lruCache_get_Some in E as (Hf & _ & ->);
           apply lruFind_Some in Hf as [_ Hk];
           by exists it, (lruRemove k (ll c))
       end.
  all: match goal with
       | |- context [lruCache_set ?n ?k ?t ?b ?f ?sr ?c] =>
           assert (Hc : 0 < max c);
           [ try done;
             match goal with
             | E : lruCache_get ?n' ?k' ?c0 = (_, c) |- _ =>
                 pose proof (lruCache_get_max n' k' c0) as Hm; rewrite E in Hm;
                 cbn [snd] in Hm; by rewrite Hm
             end
           | destruct (lruCache_set_front n k t b f sr c Hc)
               as (it & rest & Hll & Hk & Ht & Hb & Hfu & Hs & _);
             exists it, rest; rewrite Hll, Hk, Ht, Hb, Hfu, Hs; by repeat split ]
       end.
Qed.

(** A fresh entry at the front of the memory cache answers the look-up;
    nothing but the clock is consulted. *)
Lemma lookupCached_front k s it rest :
  ll (mem s) = it :: rest → key it = k →
  (clock (world s)).1 - ts it ≤ ttl (mem s) →
  lookupCached k s
  = (Some (title it, body it, full it, src it), withWorld (clock (world s)).2 s).
Proof.
  intros Hll Hk Hage. unfold lookupCached. unfold bind at 1.
  assert (Hf : lruFind k (ll (mem s)) = Some it).
  { unfold lruFind. rewrite Hll. simpl. by rewrite Hk, String.eqb_refl. }
  rewrite (mem_get_present k s it Hf).
  rewrite (lruCache_get_front _ k (mem s) it rest Hll Hk Hage).
  cbn [fst snd]. unfold ret. reflexivity.
Qed.

(** ** A resolution that runs the provider chain *)

Lemma os_WriteFile_frame name data s :
  let s' := (os_WriteFile name data s).2 in
  mem s' = mem s ∧ disk s' = disk s ∧ diskDirty s' = diskDirty s
  ∧ calls s' = calls s.
Proof.
  unfold os_WriteFile. munfold.
  destruct (writeFileOutcome name data (world s)) as [[| |n] w]; by repeat split.
Qed.

Lemma writeLast_frame full s :
  let s' := (writeLast full s).2 in
  mem s' = mem s ∧ disk s' = disk s ∧ diskDirty s' = diskDirty s
  ∧ calls s' = calls s.
Proof.
  pose proof (os_WriteFile_frame lastFilePath full s) as Hw.
  unfold writeLast. unfold bind, ret.
  by destruct (os_WriteFile lastFilePath full s).
Qed.

Lemma writeLast_ok full s :
  (writeFileOutcome lastFilePath full (world s)).1 = WriteOk →
  files (writeLast full s).2 !! lastFilePath = Some full.
Proof.
  unfold writeLast, os_WriteFile. munfold.
  destruct (writeFileOutcome lastFilePath full (world s)) as [o w].
  cbn [fst]. intros ->. cbn. apply lookup_insert_eq.
Qed.

Lemma resolveFresh_run cfg p word s out used source s2 :
  lookupChain cfg p word s = ((out, used, source), s2) →
  let k := Go.ToLower word in
  let full := Go.TrimSpace out in
  let body := "<b><i>" +:+ showWord word used +:+ "</i></b>" +:+ Go.LF
              +:+ clampBody full in
  let title := "📘 " +:+ cap1 word +:+ " " +:+ sourceEmoji source in
  ∃ now1 now2 s',
    resolveFresh cfg p word s = ((title, body, full, source), s')
    ∧ mem s' = lruCache_set now1 k title body full source (mem s)
    ∧ disk s' = <[k := {| Title := title; Body := body; Full := full;
                          TS := now2; Source := source |}]> (disk s)
    ∧ diskDirty s' = true
    ∧ calls s' = calls s2
    ∧ files s' = files (writeLast full s2).2.
Proof.
  intros Hchain k full body title.
  destruct (lookupChain_trace cfg p word s _ _ Hchain) as [(Hm & Hd & _ & _) _].
  destruct (writeLast_frame full s2) as (Hm3 & Hd3 & _ & Hc3).
  unfold resolveFresh. unfold bind at 1. rewrite Hchain.
  fold k full body title. unfold bind at 1.
  destruct (writeLast full s2) as [[] s3] eqn:Hw. cbn [snd] in *.
  unfold bind at 1. rewrite mem_set_run. munfold.
  destruct (clock (world s3)) as [now1 w1]. cbn [fst snd world withMem withWorld].
  destruct (clock w1) as [now2 w2].
  exists now1, now2. eexists. split; [reflexivity|].
  cbn [mem disk diskDirty calls files withMem withWorld withDisk withDirty].
  rewrite Hm3, Hm, Hd3, Hd. by repeat split.
Qed.

(* ===================================================================== *)
(** * Properties of [resolveDefinition] *)
(* ===================================================================== *)

Lemma resolveDefinition_hit cfg p word s res s1 :
  lookupCached (Go.ToLower word) s = (Some res, s1) →
  resolveDefinition cfg p word s = (res, s1).
Proof. intros Hc. unfold resolveDefinition, bind. by rewrite Hc. Qed.

Lemma resolveDefinition_miss cfg p word s s1 :
  lookupCached (Go.ToLower word) s = (None, s1) →
  resolveDefinition cfg p word s = resolveFresh cfg p word s1.
Proof. intros Hc. unfold resolveDefinition, bind. by rewrite Hc. Qed.

(** Whatever path a resolution takes, it leaves its result at the front of
    the memory cache (when the cache can hold an entry). *)
Lemma resolveDefinition_front cfg p word s res s' :
  resolveDefinition cfg p word s = (res, s') → 0 < max (mem s) →
  ∃ it rest, ll (mem s') = it :: rest ∧ key it = Go.ToLower word
    ∧ res = (title it, body it, full it, src it).
Proof.
  intros Hrun Hmax.
  destruct (lookupCached (Go.ToLower word) s) as [[res0|] s1] eqn:Hc.
  - rewrite (resolveDefinition_hit _ _ _ _ _ _ Hc) in Hrun.
    injection Hrun as <- <-. by eapply lookupCached_hit_front.
  - rewrite (resolveDefinition_miss _ _ _ _ _ Hc) in Hrun.
    destruct (lookupCached_frame _ _ _ _ Hc) as (_ & _ & _ & _ & Hm & _).
    destruct (lookupChain cfg p word s1) as [[[out used] source] s2] eqn:Hch.
    destruct (resolveFresh_run cfg p word s1 out used source s2 Hch)
      as (now1 & now2 & s'' & Hfresh & Hmem & _).
    rewrite Hfresh in Hrun. injection Hrun as <- <-.
    destruct (lruCache_set_front now1 (Go.ToLower word)
                ("📘 " +:+ cap1 word +:+ " " +:+ sourceEmoji source)
                ("<b><i>" +:+ showWord word used +:+ "</i></b>" +:+ Go.LF
                 +:+ clampBody (Go.TrimSpace out))
                (Go.TrimSpace out) source (mem s1))
      as (it & rest & Hll & Hk & Ht & Hb & Hf & Hs & _); [by rewrite Hm|].
    exists it, rest. rewrite Hmem, Hll, Hk, Ht, Hb, Hf, Hs. by repeat split.
Qed.

(** A call that finds its key fresh at the front of the memory cache
    returns that entry and asks no provider. *)
Lemma resolveDefinition_again cfg p word s it rest :
  ll (mem s) = it :: rest → key it = Go.ToLower word →
  (clock (world s)).1 - ts it ≤ ttl (mem s) →
  (resolveDefinition cfg p word s).1 = (title it, body it, full it, src it)
  ∧ calls (resolveDefinition cfg p word s).2 = calls s.
Proof.
  intros Hll Hk Hage.
  rewrite (resolveDefinition_hit cfg p word s _ _
             (lookupCached_front _ s it rest Hll Hk Hage)).
  by split.
Qed.

(** C1. After one call to [resolveDefinition] for a word, a second call
    whose word has the same lower-cased key, made while the entry left in
    the memory cache is within the TTL, returns the same
    [(title, body, full, source)] and invokes no provider: the record of
    provider queries is unchanged. It holds for every word, valid ones
    included. *)
Theorem resolveDefinition_idempotent_within_ttl
    cfg cfg' p p' word word' (s : store) :
  Go.ToLower word' = Go.ToLower word →
  0 < max (mem s) →
  let r1 := resolveDefinition cfg p word s in
  (∀ it, head (ll (mem r1.2)) = Some it →
         (clock (world r1.2)).1 - ts it ≤ ttl (mem r1.2)) →
  let r2 := resolveDefinition cfg' p' word' r1.2 in
  r2.1 = r1.1 ∧ calls r2.2 = calls r1.2.
Proof.
  intros Hkey Hmax r1 Hfresh r2. subst r1 r2.
  destruct (resolveDefinition cfg p word s) as [res s1] eqn:Hrun.
  cbn [fst snd] in *.
  destruct (resolveDefinition_front _ _ _ _ _ _ Hrun Hmax)
    as (it & rest & Hll & Hk & ->).
  apply resolveDefinition_again with (rest := rest); [done | congruence |].
  apply Hfresh. by rewrite Hll.
Qed.

(** C2 (amended). When the cache look-up misses, the resolver queries the
    providers its configuration allows, in the fixed order primary,
    secondary, offline (the offline provider only when [noOffline] is not
    set), every lemma candidate against one provider before the next
    provider is asked. The first query that yields non-empty text ends the
    search and fixes the text, the lemma used and the source kind of the
    result; when every allowed query fails the result is the placeholder
    with source "none". *)
Theorem resolveDefinition_follows_provider_order
    cfg p word (s s1 s' : store) title body full source :
  lookupCached (Go.ToLower word) s = (None, s1) →
  resolveDefinition cfg p word s = ((title, body, full, source), s') →
  ∃ evs out used,
    calls s' = calls s ++ evs
    ∧ followsPlan (planFor (providerOrder cfg) (lemmaCandidates word)) word
                  evs (out, used, source)
    ∧ full = Go.TrimSpace out
    ∧ body = "<b><i>" +:+ showWord word used +:+ "</i></b>" +:+ Go.LF
             +:+ clampBody full
    ∧ title = "📘 " +:+ cap1 word +:+ " " +:+ sourceEmoji source.
Proof.
  intros Hc Hrun. rewrite (resolveDefinition_miss _ _ _ _ _ Hc) in Hrun.
  destruct (lookupCached_frame _ _ _ _ Hc) as (_ & _ & _ & Hcalls & _).
  destruct (lookupChain cfg p word s1) as [[[out used] source0] s2] eqn:Hch.
  destruct (lookupChain_trace _ _ _ _ _ _ Hch) as [_ (evs & Hevs & Hplan)].
  destruct (resolveFresh_run cfg p word s1 out used source0 s2 Hch)
    as (now1 & now2 & s'' & Hfresh & _ & _ & _ & Hcalls' & _).
  rewrite Hfresh in Hrun. injection Hrun as <- <- <- <- <-.
  exists evs, out, used. rewrite Hcalls', Hevs, Hcalls. by repeat split.
Qed.

Lemma mem_get_frame k (s : store) r s1 :
  mem_get k s = (r, s1) →
  disk s1 = disk s ∧ diskDirty s1 = diskDirty s ∧ files s1 = files s
  ∧ calls s1 = calls s.
Proof.
  unfold mem_get. munfold. mcases. all: intros [= <- <-]; by repeat split.
Qed.

(** A resolution that runs the provider chain starts by asking the
    primary provider for the lower-cased word. *)
Lemma resolveFresh_asks_primary cfg p word (s : store) :
  ∃ r evs,
    calls (resolveFresh cfg p word s).2
    = calls s ++ (Primary, Go.ToLower word, r) :: evs.
Proof.
  destruct (lookupChain cfg p word s) as [[[out used] source] s2] eqn:Hch.
  destruct (lookupChain_trace _ _ _ _ _ _ Hch) as [_ (evs & Hevs & Hplan)].
  destruct (resolveFresh_run cfg p word s out used source s2 Hch)
    as (now1 & now2 & s' & Hfresh & _ & _ & _ & Hcalls & _).
  rewrite Hfresh. cbn [snd]. rewrite Hcalls, Hevs.
  rewrite planFor_order in Hplan.
  destruct (lemmaCandidates_head word) as [cs Hcs]. rewrite Hcs in Hplan.
  simpl in Hplan.
  assert (Hne : ∃ r evs', evs = (Primary, Go.ToLower word, r) :: evs').
  { destruct Hplan as [(evs0 & pr & cand & o & rest & He & _ & _ & Hpl & _)
                      |(_ & Hmap & _)].
    - destruct evs as [|[[pr1 c1] r1] evs'].
      + by destruct evs0.
      + simpl in Hpl. injection Hpl as <- <- _. by eexists _, _.
    - destruct evs as [|[[pr1 c1] r1] evs']; [done|].
      simpl in Hmap. injection Hmap as -> -> _. by eexists _, _. }
  destruct Hne as (r & evs' & ->). by exists r, evs'.
Qed.

(** C5 (amended). The 12-hour rule for offline-sourced entries is a rule
    of the persisted tier, which is consulted only when the memory cache
    has no fresh entry for the key. There, an entry with source "offline"
    that is more than 12 hours old is not returned and the provider chain
    runs again, while an entry of any other source kind that is no older
    than 30 days is returned and promoted into the memory cache without any
    provider call. An entry of the memory cache is returned, whatever its
    source kind, while it is no older than the TTL of that cache. *)
Theorem freshness_rule_by_tier cfg p word (s : store) :
  let k := Go.ToLower word in
  (∀ it,
     lruFind k (ll (mem s)) = Some it →
     (clock (world s)).1 - ts it ≤ ttl (mem s) →
     (resolveDefinition cfg p word s).1 = (title it, body it, full it, src it)
     ∧ calls (resolveDefinition cfg p word s).2 = calls s)
  ∧ (∀ s1 de,
       mem_get k s = (None, s1) →
       disk s !! k = Some de →
       Source de = "offline" →
       (clock (world s1)).1 - TS de > offlineRefreshAfter →
       resolveDefinition cfg p word s
       = resolveFresh cfg p word (withWorld (clock (world s1)).2 s1)
       ∧ ∃ r evs, calls (resolveDefinition cfg p word s).2
                  = calls s ++ (Primary, k, r) :: evs)
  ∧ (∀ s1 de,
       mem_get k s = (None, s1) →
       disk s !! k = Some de →
       Source de ≠ "offline" →
       (clock (world s1)).1 - TS de ≤ cacheTTL →
       (resolveDefinition cfg p word s).1
       = (Title de, Body de, Full de, Source de)
       ∧ calls (resolveDefinition cfg p word s).2 = calls s
       ∧ ∃ now, mem (resolveDefinition cfg p word s).2
                = lruCache_set now k (Title de) (Body de) (Full de) (Source de)
                               (mem s1)).
Proof.
  intros k. split_and!.
  - intros it Hfind Hage.
    assert (Hc : ∃ s1, lookupCached k s
                       = (Some (title it, body it, full it, src it), s1)).
    { unfold lookupCached. unfold bind at 1.
      rewrite (mem_get_present k s it Hfind).
      rewrite (lruCache_get_hit _ k (mem s) it Hfind Hage). cbn [fst snd].
      unfold ret. by eexists. }
    destruct Hc as [s1 Hc].
    rewrite (resolveDefinition_hit cfg p word s _ _ Hc). cbn [fst snd].
    split; [done|]. by destruct (lookupCached_frame _ _ _ _ Hc) as (_&_&_&?&_).
  - intros s1 de Hmem Hdisk Hsrc Hage.
    destruct (mem_get_frame _ _ _ _ Hmem) as (Hd & _ & _ & Hcalls).
    assert (Hc : lookupCached k s = (None, withWorld (clock (world s1)).2 s1)).
    { unfold lookupCached. unfold bind at 1. rewrite Hmem. munfold.
      rewrite Hd, Hdisk, Hsrc. cbn [String.eqb Ascii.eqb Bool.eqb].
      destruct (clock (world s1)) as [now w]. cbn [fst snd] in *.
      destruct (Z.gtb_spec (now - TS de) offlineRefreshAfter); [done | lia]. }
    rewrite (resolveDefinition_miss cfg p word s _ Hc). split; [done|].
    destruct (resolveFresh_asks_primary cfg p word
                (withWorld (clock (world s1)).2 s1)) as (r & evs & Hev).
    exists r, evs. rewrite Hev. cbn [calls withWorld]. by rewrite Hcalls.
  - intros s1 de Hmem Hdisk Hsrc Hage.
    destruct (mem_get_frame _ _ _ _ Hmem) as (Hd & _ & _ & Hcalls).
    apply String.eqb_neq in Hsrc.
    assert (Hc : ∃ s2 now, lookupCached k s
                   = (Some (Title de, Body de, Full de, Source de), s2)
                 ∧ mem s2 = lruCache_set now k (Title de) (Body de) (Full de)
                              (Source de) (mem s1)).
    { unfold lookupCached. unfold bind at 1. rewrite Hmem. munfold.
      rewrite Hd, Hdisk, Hsrc.
      destruct (clock (world s1)) as [now w]. cbn [fst snd] in *.
      destruct (Z.leb_spec (now - TS de) cacheTTL); [|lia].
      rewrite mem_set_run. cbn [mem world withMem withWorld].
      eexists _, _. split; reflexivity. }
    destruct Hc as (s2 & now & Hc & Hm2).
    rewrite (resolveDefinition_hit cfg p word s _ _ Hc). cbn [fst snd].
    split_and!; [done | | by exists now].
    by destruct (lookupCached_frame _ _ _ _ Hc) as (_&_&_&?&_).
Qed.

Lemma lookupPrimary_answer cand (s : store) :
  (lookupPrimary cand s).1 = (primaryService cand (world s)).1.
Proof.
  unfold lookupPrimary. munfold.
  by destruct (primaryService cand (world s)).
Qed.






(** A loop over two candidates of which the first fails and the second
    yields text. *)
Lemma forCandidates_second lookup kind c1 c2 acc (s : store) o :
  failed (lookup c1 s).1 = true →
  (lookup c2 (lookup c1 s).2).1 = LookupOk o →
  o ≠ "" →
  forCandidates lookup kind [c1; c2] acc s
  = ((o, c2, kind), (lookup c2 (lookup c1 s).2).2).
Proof.
  intros Hf Hok Ho. apply String.eqb_neq in Ho.
  assert (Hnext : forCandidates lookup kind [c2] acc (lookup c1 s).2
                  = ((o, c2, kind), (lookup c2 (lookup c1 s).2).2)).
  { rewrite forCandidates_cons, Hok, Ho. reflexivity. }
  rewrite forCandidates_cons.
  destruct (lookup c1 s) as [[o0|] sa]; cbn [fst snd] in *; [|exact Hnext].
  simpl in Hf. rewrite Hf. exact Hnext.
Qed.

(** C7 (amended). If the primary provider fails for "legends" but returns
    a definition for "legend", then [resolveDefinition "legends"], on a
    cache miss, asks the primary provider for "legends" and then for
    "legend" and succeeds with the lemma "legend" and source "online". The
    requested word and the used lemma are rendered as "Legends → Legend"
    in the header line of [body]; [title] holds the requested word and the
    source indicator only. *)
Theorem resolveDefinition_legends cfg p (s s1 : store) o :
  lookupCached "legends" s = (None, s1) →
  (∀ w, failed (primaryService "legends" w).1 = true) →
  (∀ w, (primaryService "legend" w).1 = LookupOk o) →
  o ≠ "" →
  let r := resolveDefinition cfg p "legends" s in
  r.1 = ("📘 Legends ☁️",
         "<b><i>Legends → Legend</i></b>" +:+ Go.LF +:+ clampBody (Go.TrimSpace o),
         Go.TrimSpace o, "online")
  ∧ ∃ r0, calls r.2 = calls s ++ [(Primary, "legends", r0);
                                  (Primary, "legend", LookupOk o)].
Proof.
  intros Hc Hfail Hok Ho r. subst r.
  change "legends" with (Go.ToLower "legends") in Hc.
  rewrite (resolveDefinition_miss _ _ _ _ _ Hc).
  destruct (lookupCached_frame _ _ _ _ Hc) as (_ & _ & _ & Hcalls & _).
  assert (Hch : ∃ r0 s2,
    lookupChain cfg p "legends" s1 = ((o, "legend", "online"), s2)
    ∧ calls s2 = calls s1 ++ [(Primary, "legends", r0);
                              (Primary, "legend", LookupOk o)]).
  { unfold lookupChain. unfold bind at 1.
    change (lemmaCandidates "legends") with ["legends"; "legend"].
    rewrite (forCandidates_second lookupPrimary "online" "legends" "legend"
               ("", "", "none") s1 o);
      [| by rewrite lookupPrimary_answer
       | by rewrite lookupPrimary_answer
       | exact Ho ].
    apply String.eqb_neq in Ho as Ho'.
    cbn [fst snd]. rewrite Ho'. unfold bind, ret. cbn [fst snd andb].
    rewrite Ho'. cbn [andb fst snd]. rewrite Ho'.
    destruct (lookupPrimary_tracked "legends" s1) as [_ Hc1].
    destruct (lookupPrimary_tracked "legend" (lookupPrimary "legends" s1).2)
      as [_ Hc2].
    rewrite lookupPrimary_answer, Hok in Hc2.
    eexists _, _. split; [reflexivity|].
    rewrite Hc2, Hc1, <- app_assoc. reflexivity. }
  destruct Hch as (r0 & s2 & Hch & Hcalls2).
  destruct (resolveFresh_run cfg p "legends" s1 _ _ _ s2 Hch)
    as (now1 & now2 & s' & Hfresh & _ & _ & _ & Hcalls' & _).
  rewrite Hfresh. cbn [fst snd]. split; [reflexivity|].
  exists r0. by rewrite Hcalls', Hcalls2, Hcalls.
Qed.

Lemma charCount_le_len s : 0 ≤ charCount s ≤ Go.len s.
Proof.
  unfold Go.len. induction s as [|c s IH]; simpl charCount; simpl String.length.
  - lia.
  - destruct ((128 <=? Go.byteval c) && (Go.byteval c <=? 191)); lia.
Qed.

(** C9 (amended). In a resolution that runs the provider chain, the [full]
    text that is returned and stored in both cache tiers is the trimmed
    provider output, whole; only [body] is clamped. [body] is the header
    line followed by [clampBody full]. The cap is on [len], the length in
    bytes: a [full] of at most 1400 bytes is rendered unchanged; a longer
    one is rendered as a trimmed prefix of [full] (of its first 1320
    bytes) followed by two line feeds and the marker text, as written out
    below. The rendering is never longer than 1400 bytes, and so never
    longer than 1400 characters. *)
Theorem full_text_never_truncated
    cfg p word (s s1 s2 s' : store) out used source0 rtitle rbody rfull rsource :
  lookupCached (Go.ToLower word) s = (None, s1) →
  lookupChain cfg p word s1 = ((out, used, source0), s2) →
  resolveDefinition cfg p word s = ((rtitle, rbody, rfull, rsource), s') →
  rfull = Go.TrimSpace out
  ∧ (∃ de, disk s' !! Go.ToLower word = Some de ∧ Full de = rfull ∧ Body de = rbody)
  ∧ (0 < max (mem s) →
     ∃ it rest, ll (mem s') = it :: rest ∧ key it = Go.ToLower word
                ∧ full it = rfull ∧ body it = rbody)
  ∧ rbody = "<b><i>" +:+ showWord word used +:+ "</i></b>" +:+ Go.LF
           +:+ clampBody rfull
  ∧ (Go.len rfull ≤ 1400 → clampBody rfull = rfull)
  ∧ (1400 < Go.len rfull →
     clampBody rfull
     = Go.TrimSpace (Go.sliceTo rfull 1320)
       +:+ Go.LF +:+ Go.LF +:+ "… (click to open full)"
     ∧ (∃ rest, rfull = Go.TrimSpace (Go.sliceTo rfull 1320) +:+ rest))
  ∧ Go.len (clampBody rfull) ≤ 1400
  ∧ charCount (clampBody rfull) ≤ 1400.
Proof.
  intros Hc Hch Hrun.
  pose proof Hrun as Hrun'.
  rewrite (resolveDefinition_miss _ _ _ _ _ Hc) in Hrun.
  destruct (lookupCached_frame _ _ _ _ Hc) as (_ & _ & _ & _ & Hm & _).
  destruct (resolveFresh_run cfg p word s1 out used source0 s2 Hch)
    as (now1 & now2 & s'' & Hfresh & _ & Hdisk & _).
  rewrite Hfresh in Hrun. injection Hrun as <- <- <- <- <-.
  pose proof (GoFacts.TrimSpace_trimmed out) as Htrim.
  assert (Hcap : Go.len (clampBody (Go.TrimSpace out)) ≤ 1400).
  { destruct (Z.le_gt_cases (Go.len (Go.TrimSpace out)) 1400) as [Hle|Hgt].
    - by rewrite (clampBody_short _ Htrim Hle).
    - apply (clampBody_long _ Htrim). unfold bodyMaxChars. lia. }
  split_and!.
  - reflexivity.
  - eexists. rewrite Hdisk, lookup_insert_eq. by repeat split.
  - intros Hmax.
    destruct (resolveDefinition_front _ _ _ _ _ _ Hrun' Hmax)
      as (it & rest & Hll & Hk & [= Ht Hb Hf Hs]).
    exists it, rest. by repeat split.
  - reflexivity.
  - intros Hle. by apply clampBody_short.
  - intros Hgt.
    destruct (clampBody_long _ Htrim Hgt) as (Hlong & Hpre & _).
    split; [exact Hlong | exact Hpre].
  - exact Hcap.
  - pose proof (charCount_le_len (clampBody (Go.TrimSpace out))). lia.
Qed.

(** Where a hit comes from, and what it does to the memory cache. *)
Lemma lookupCached_hit_origin k (s : store) res s1 :
  lookupCached k s = (Some res, s1) →
  (∃ it, lruFind k (ll (mem s)) = Some it
         ∧ res = (title it, body it, full it, src it)
         ∧ mem s1 = {| ll := it :: lruRemove k (ll (mem s));
                       max := max (mem s); ttl := ttl (mem s) |})
  ∨ (∃ de now now',
         disk s !! k = Some de
         ∧ res = (Title de, Body de, Full de, Source de)
         ∧ mem s1 = lruCache_set now k (Title de) (Body de) (Full de)
                      (Source de) (lruCache_get now' k (mem s)).2).
Proof.
  unfold lookupCached, mem_get, mem_set. munfold.
  destruct (lruFind k (ll (mem s))) as [it0|] eqn:Hfind.
  - destruct (clock (world s)) as [now' w'].
    destruct (lruCache_get now' k (mem s)) as [[it|] c'] eqn:Hget.
    + intros [= <- <-]. left. exists it.
      apply lruCache_get_Some in Hget as (Hfi & _ & ->).
      split_and!; [congruence | done | done].
    + cbn [disk mem world withMem withWorld]. mcases.
      all: intros [= <- <-]; cbn [mem withMem withWorld].
      all: right.
      all: match goal with
           | |- context [lruCache_set ?n _ _ _ _ _ _] =>
               eexists _, n, now'; rewrite Hget
           end.
      all: by repeat split.
  - cbn [disk mem world withMem withWorld]. mcases.
    all: intros [= <- <-]; cbn [mem withMem withWorld].
    all: right.
    all: match goal with
         | |- context [lruCache_set ?n _ _ _ _ _ _] =>
             eexists _, n, 0; unfold lruCache_get; rewrite Hfind
         end.
    all: by repeat split.
Qed.

(** C10. On a cache hit, from a fresh memory entry or from a persisted
    entry that passes its freshness rule, [resolveDefinition] returns the
    cached tuple and writes nothing but the memory cache: the entry moves
    to the front (memory hit) or is set into the memory cache (promotion).
    The persisted map, the dirty flag and every file, [last.txt] among
    them, are as before, and no provider is asked. A resolution that runs
    the provider chain is the only one that writes [last.txt], and when
    that write succeeds the file holds its [full] text. *)
Theorem cache_hit_writes_only_memory cfg p word (s : store) :
  let k := Go.ToLower word in
  (∀ res s1,
     lookupCached k s = (Some res, s1) →
     resolveDefinition cfg p word s = (res, s1)
     ∧ disk s1 = disk s ∧ diskDirty s1 = diskDirty s ∧ files s1 = files s
     ∧ calls s1 = calls s
     ∧ ((∃ it, lruFind k (ll (mem s)) = Some it
               ∧ res = (title it, body it, full it, src it)
               ∧ mem s1 = {| ll := it :: lruRemove k (ll (mem s));
                             max := max (mem s); ttl := ttl (mem s) |})
        ∨ (∃ de now now',
               disk s !! k = Some de
               ∧ res = (Title de, Body de, Full de, Source de)
               ∧ mem s1 = lruCache_set now k (Title de) (Body de) (Full de)
                            (Source de) (lruCache_get now' k (mem s)).2)))
  ∧ (∀ s1 out used source s2,
       lookupCached k s = (None, s1) →
       lookupChain cfg p word s1 = ((out, used, source), s2) →
       (writeFileOutcome lastFilePath (Go.TrimSpace out) (world s2)).1 = WriteOk →
       (resolveDefinition cfg p word s).1.1.2 = Go.TrimSpace out
       ∧ files (resolveDefinition cfg p word s).2 !! lastFilePath
         = Some (Go.TrimSpace out)).
Proof.
  intros k. split.
  - intros res s1 Hc.
    destruct (lookupCached_frame _ _ _ _ Hc) as (Hd & Hdd & Hf & Hcl & _).
    split; [by apply resolveDefinition_hit|]. split_and!; try done.
    by apply lookupCached_hit_origin.
  - intros s1 out used source s2 Hc Hch Hw.
    rewrite (resolveDefinition_miss _ _ _ _ _ Hc).
    destruct (resolveFresh_run cfg p word s1 out used source s2 Hch)
      as (now1 & now2 & s'' & Hfresh & _ & _ & _ & _ & Hfiles).
    rewrite Hfresh. cbn [fst snd]. split; [done|].
    rewrite Hfiles. by apply writeLast_ok.
Qed.

(* ===================================================================== *)
(** * The flush tick *)
(* ===================================================================== *)

Lemma tmp_path_differs path : path +:+ ".tmp" ≠ path.
Proof.
  intros Heq. apply (f_equal String.length) in Heq.
  rewrite GoFacts.length_app in Heq. simpl in Heq. lia.
Qed.

(** C4 (amended). When the persisted cache is dirty, the flush tick tries
    to save it and then clears the dirty flag whatever the outcome. If the
    save fails (the snapshot cannot be encoded, the temporary file cannot
    be written in full, or the rename fails) the previous [cache.json] is
    left as it was; the persisted map is untouched either way. Because the
    flag is cleared, the next tick does nothing: the save is attempted
    again only after a later resolution has set the flag. *)
Theorem flushTick_clears_dirty_flag (s : store) :
  diskDirty s = true →
  let s' := (flushTick s).2 in
  let tmp := cacheFilePath +:+ ".tmp" in
  diskDirty s' = false
  ∧ disk s' = disk s
  ∧ (∀ b, jsonMarshal (disk s) = Some b →
          (writeFileOutcome tmp b (world s)).1 ≠ WriteOk
          ∨ (renameOutcome tmp cacheFilePath
               (writeFileOutcome tmp b (world s)).2).1 = false →
          files s' !! cacheFilePath = files s !! cacheFilePath)
  ∧ (jsonMarshal (disk s) = None → files s' = files s)
  ∧ flushTick s' = (tt, s').
Proof.
  intros Hdirty s' tmp.
  pose proof (tmp_path_differs cacheFilePath) as Hne. fold tmp in Hne.
  assert (Hflag : diskDirty s' = false ∧ disk s' = disk s).
  { subst s'. unfold flushTick, saveDiskCacheAtomic, os_WriteFile, os_Rename.
    munfold. rewrite Hdirty. mcases; by split. }
  destruct Hflag as [Hflag Hdisk].
  split_and!; [exact Hflag | exact Hdisk | | |].
  - intros b Hb Hfail. subst s'.
    unfold flushTick, saveDiskCacheAtomic, os_WriteFile, os_Rename.
    munfold. rewrite Hdirty, Hb. fold tmp.
    destruct (writeFileOutcome tmp b (world s)) as [o w] eqn:Ho.
    cbn [fst snd] in Hfail.
    destruct o as [| |n]; cbn [negb files withFiles withWorld withDirty world].
    + rewrite lookup_insert_eq. cbn [world withFiles withWorld].
      destruct (renameOutcome tmp cacheFilePath w) as [ok w2].
      cbn [fst] in Hfail. destruct Hfail as [Hfail| ->]; [done|].
      cbn [snd files withFiles withWorld withDirty].
      by rewrite lookup_insert_ne.
    + reflexivity.
    + cbn [snd files withFiles withWorld withDirty].
      by rewrite lookup_insert_ne.
  - intros Hb. subst s'. unfold flushTick, saveDiskCacheAtomic. munfold.
    by rewrite Hdirty, Hb.
  - unfold flushTick at 1. munfold. by rewrite Hflag.
Qed.

End ResolverFacts.

(* ===================================================================== *)
(** * More on the memory cache *)
(* ===================================================================== *)

Section LruMore.

Lemma lruCache_get_bound now k c :
  (length (ll (lruCache_get now k c).2) ≤ length (ll c))%nat.
Proof.
  unfold lruCache_get. destruct (lruFind k (ll c)) as [it|] eqn:Hf; [|done].
  rewrite (lruRemove_length k (ll c) it Hf).
  destruct (now - ts it >? ttl c); simpl; lia.
Qed.

Lemma filter_all {A} (P : A → Prop) `{∀ x, Decision (P x)} (l : list A) :
  Forall P l → filter P l = l.
Proof.
  induction 1 as [|x l Hx _ IH]; [done|].
  rewrite filter_cons_True by done. by rewrite IH.
Qed.

(** With keys not repeated, removing the element of a key removes every
    element that carries it. *)
Lemma lruRemove_filter k l :
  NoDup (map key l) → lruRemove k l = filter (λ it, key it ≠ k) l.
Proof.
  induction l as [|y l IH]; simpl; intros Hnd; [done|].
  apply NoDup_cons in Hnd as [Hy Hnd].
  destruct (String.eqb_spec (key y) k) as [Hk|Hk].
  - rewrite filter_cons_False by (intros Hne; by apply Hne).
    symmetry. apply filter_all, Forall_forall. intros x Hx Hxk.
    apply Hy. rewrite Hk, <- Hxk. by apply list_elem_of_fmap_2.
  - rewrite filter_cons_True by done. f_equal. by apply IH.
Qed.

Lemma lruFind_remove_other k k' l :
  k' ≠ k → lruFind k' (lruRemove k l) = lruFind k' l.
Proof.
  intros Hne. unfold lruFind. induction l as [|y l IH]; simpl; [done|].
  destruct (String.eqb_spec (key y) k) as [Hk|Hk].
  - destruct (String.eqb_spec (key y) k') as [Hk'|_]; [congruence | done].
  - simpl. by rewrite IH.
Qed.

Lemma lruFind_cons_other k' it l :
  key it ≠ k' → lruFind k' (it :: l) = lruFind k' l.
Proof. intros Hne. unfold lruFind. simpl. by apply String.eqb_neq in Hne as ->. Qed.

Lemma lruStep_max c op : max (lruStep c op) = max c.
Proof.
  destruct op; simpl; [apply lruCache_get_max | apply lruCache_set_max].
Qed.

(** X1. Every cache that [newLRU] builds with a capacity that is not
    negative, and that is then used through [get] and [set] only, holds no
    key twice and never more elements than its capacity, whatever the
    calls and their clock readings. *)
Theorem lruCache_history_invariant (capacity t : Z) (ops : list lruOp) :
  0 ≤ capacity →
  let c := lruRun ops (newLRU capacity t) in
  lruWf c ∧ Z.of_nat (length (ll c)) ≤ capacity ∧ max c = capacity.
Proof.
  intros Hcap. cbv zeta. unfold lruRun.
  induction ops as [|op ops IH] using rev_ind.
  - simpl. split_and!; [apply NoDup_nil_2 | done | done].
  - rewrite foldl_snoc. destruct IH as (Hwf & Hlen & Hmax).
    set (c := foldl lruStep (newLRU capacity t) ops) in *.
    split_and!; [| |by rewrite lruStep_max].
    + destruct op; simpl; [by apply lruCache_get_wf | by apply lruCache_set_wf].
    + destruct op as [now k|now k ti b f sr]; simpl.
      * pose proof (lruCache_get_bound now k c). lia.
      * rewrite <- Hmax. apply lruCache_set_bound. lia.
Qed.

(** X2. What [set] stores, [get] returns: in a cache of capacity at
    least 1, a [get] of the key made while the entry is no older than the
    TTL yields the values and the time of the [set] and leaves the cache
    as it is; a [get] made later reports a miss and removes the entry. *)
Theorem lruCache_get_after_set now now' k t b f sr c :
  lruWf c → 0 < max c →
  let c' := lruCache_set now k t b f sr c in
  let it := {| key := k; title := t; body := b; full := f; ts := now;
               src := sr |} in
  (now' - now ≤ ttl c → lruCache_get now' k c' = (Some it, c'))
  ∧ (ttl c < now' - now →
       (lruCache_get now' k c').1 = None
       ∧ k ∉ keysOf (lruCache_get now' k c').2).
Proof.
  intros Hwf Hmax c' it.
  destruct (lruCache_set_front now k t b f sr c Hmax)
    as (it0 & rest & Hll & Hk & Ht & Hb & Hf & Hs & Hts).
  assert (Hit : it0 = it).
  { destruct it0; simpl in *. subst. reflexivity. }
  subst it0. fold c' in Hll.
  assert (Httl : ttl c' = ttl c) by apply lruCache_set_ttl.
  split.
  - intros Hage. apply lruCache_get_front with (rest := rest); [done | done |].
    rewrite Httl. exact Hage.
  - intros Hage.
    assert (Hfind : lruFind k (ll c') = Some it).
    { unfold lruFind. rewrite Hll. simpl. by rewrite String.eqb_refl. }
    unfold lruCache_get. rewrite Hfind, Httl. cbn [ts it].
    destruct (Z.gtb_spec (now' - now) (ttl c)) as [_|Hle]; [|lia].
    cbn [fst snd]. split; [done|].
    apply (lruRemove_keys k (ll c')).
    by apply (lruCache_set_wf now k t b f sr c).
Qed.

(** X3. A [get] of a key that is not cached changes nothing. A [get] of
    an entry older than the TTL reports a miss and deletes that entry and
    no other, the rest keeping their order. No [get] changes what is
    cached under another key. *)
Theorem lruCache_get_miss now k c :
  lruWf c →
  (k ∉ keysOf c → lruCache_get now k c = (None, c))
  ∧ (∀ it, lruFind k (ll c) = Some it → ttl c < now - ts it →
       (lruCache_get now k c).1 = None
       ∧ ll (lruCache_get now k c).2 = filter (λ x, key x ≠ k) (ll c))
  ∧ (∀ k', k' ≠ k →
       lruFind k' (ll (lruCache_get now k c).2) = lruFind k' (ll c)).
Proof.
  intros Hwf. split_and!.
  - intros Hk. apply lruFind_None in Hk. unfold lruCache_get. by rewrite Hk.
  - intros it Hf Hage. unfold lruCache_get. rewrite Hf.
    destruct (Z.gtb_spec (now - ts it) (ttl c)) as [_|Hle]; [|lia].
    cbn [fst snd ll]. split; [done | by apply lruRemove_filter].
  - intros k' Hne. unfold lruCache_get.
    destruct (lruFind k (ll c)) as [it|] eqn:Hf; [|done].
    apply lruFind_Some in Hf as [_ Hk].
    destruct (now - ts it >? ttl c); cbn [snd ll].
    + by apply lruFind_remove_other.
    + rewrite lruFind_cons_other by congruence. by apply lruFind_remove_other.
Qed.

(** X4. [set] evicts only to make room for a new key: for a key that is
    cached already the entry is overwritten and moved to the front, and
    for a new key in a cache that is not full the entry is pushed at the
    front; in both cases every other entry stays, in the same order. *)
Theorem lruCache_set_keeps_others now k t b f sr c :
  lruWf c →
  let it := {| key := k; title := t; body := b; full := f; ts := now;
               src := sr |} in
  (k ∈ keysOf c →
     ll (lruCache_set now k t b f sr c) = it :: filter (λ x, key x ≠ k) (ll c)
     ∧ length (ll (lruCache_set now k t b f sr c)) = length (ll c))
  ∧ (k ∉ keysOf c → Z.of_nat (length (ll c)) < max c →
     ll (lruCache_set now k t b f sr c) = it :: ll c).
Proof.
  intros Hwf it. split.
  - intros Hin. destruct (lruFind k (ll c)) as [it0|] eqn:Hf.
    + unfold lruCache_set. rewrite Hf. cbn [ll].
      pose proof (lruRemove_length k (ll c) it0 Hf) as Hlen.
      apply lruFind_Some in Hf as [_ Hk]. rewrite Hk.
      split; [|simpl; lia]. fold it. f_equal. by apply lruRemove_filter.
    + by apply lruFind_None in Hf.
  - intros Hk Hroom. apply lruFind_None in Hk.
    unfold lruCache_set. rewrite Hk. cbn [ll]. fold it.
    rewrite evict_take by done. apply take_ge. simpl. lia.
Qed.

End LruMore.

(* ===================================================================== *)
(** * The request filter *)
(* ===================================================================== *)

Section DeduperFacts.

Lemma deduper_allow_true now k d :
  (deduper_allow now k d).1 = true →
  (deduper_allow now k d).2 = <[k := now]> d.
Proof.
  unfold deduper_allow. destruct (d !! k) as [t|]; [|done].
  by destruct (now - t <? dedupeWindow).
Qed.

Lemma deduper_allow_within t0 now k d :
  d !! k = Some t0 → now - t0 < dedupeWindow →
  deduper_allow now k d = (false, d).
Proof.
  intros Hk Hage. unfold deduper_allow. rewrite Hk.
  destruct (Z.ltb_spec (now - t0) dedupeWindow); [done | lia].
Qed.

Lemma deduper_allow_after t0 now k d :
  d !! k = Some t0 → dedupeWindow ≤ now - t0 →
  deduper_allow now k d = (true, <[k := now]> d).
Proof.
  intros Hk Hage. unfold deduper_allow. rewrite Hk.
  destruct (Z.ltb_spec (now - t0) dedupeWindow); [lia | done].
Qed.

(** X5. The window of the filter starts at the last request let through:
    once a request for a key has passed at time [t0], every later request
    for that key whose clock reading is less than 250 ms after [t0] is
    refused and leaves the record as it is, however many there are, and
    the first request at 250 ms or more after [t0] passes. *)
Theorem deduper_burst t0 times t k d :
  (deduper_allow t0 k d).1 = true →
  Forall (λ now, now - t0 < dedupeWindow) times →
  dedupeWindow ≤ t - t0 →
  let d1 := (deduper_allow t0 k d).2 in
  allowEach times k d1 = (replicate (length times) false, d1)
  ∧ (deduper_allow t k d1).1 = true.
Proof.
  intros Hok Hall Ht d1.
  assert (Hd1 : d1 !! k = Some t0).
  { unfold d1. rewrite (deduper_allow_true _ _ _ Hok). apply lookup_insert_eq. }
  split.
  - clearbody d1. induction Hall as [|now times Hnow _ IH]; [done|].
    simpl. rewrite (deduper_allow_within t0 now k d1 Hd1 Hnow). by rewrite IH.
  - by rewrite (deduper_allow_after t0 t k d1 Hd1 Ht).
Qed.

(** X6. The filter keeps one record per key: a request for a key that
    has no record passes, and whether a request for one key passes does
    not depend on the requests made for other keys. *)
Theorem deduper_keys_independent now now' k k' d :
  (d !! k = None → (deduper_allow now k d).1 = true)
  ∧ (k' ≠ k →
     (deduper_allow now' k' (deduper_allow now k d).2).1
     = (deduper_allow now' k' d).1).
Proof.
  split.
  - intros Hk. unfold deduper_allow. by rewrite Hk.
  - intros Hne.
    assert (Hsame : (deduper_allow now k d).2 !! k' = d !! k').
    { unfold deduper_allow. destruct (d !! k) as [t|].
      - destruct (now - t <? dedupeWindow); [done|].
        cbn [snd]. by apply lookup_insert_ne.
      - cbn [snd]. by apply lookup_insert_ne. }
    unfold deduper_allow at 1 3. rewrite Hsame.
    destruct (d !! k') as [t|]; [|done].
    by destruct (now' - t <? dedupeWindow).
Qed.

End DeduperFacts.

(* ===================================================================== *)
(** * Valid words, their lemma candidates and the body clamp *)
(* ===================================================================== *)

Section WordFacts.
Context `{Unicode}.

Lemma allBytes_take f n s :
  allBytes f s = true → allBytes f (Go.take n s) = true.
Proof.
  revert s. induction n as [|n IH]; intros [|c s]; simpl; try done.
  intros [Hc Hs]%andb_true_iff. rewrite Hc. by apply IH.
Qed.

Lemma allBytes_app f a b :
  allBytes f (a +:+ b) = allBytes f a && allBytes f b.
Proof.
  induction a as [|c a IH]; [done|].
  rewrite GoFacts.app_cons. simpl. by rewrite IH, andb_assoc.
Qed.

Lemma allBytes_mapBytes f g s :
  (∀ c, f c = true → f (g c) = true) →
  allBytes f s = true → allBytes f (Go.mapBytes g s) = true.
Proof.
  intros Hfg. induction s as [|c s IH]; simpl; [done|].
  intros [Hc Hs]%andb_true_iff. by rewrite (Hfg c Hc), IH.
Qed.

Lemma length_mapBytes g s : String.length (Go.mapBytes g s) = String.length s.
Proof. induction s as [|c s IH]; simpl; congruence. Qed.

Lemma wordByte_lowerByte c : wordByte c = true → wordByte (Go.lowerByte c) = true.
Proof. by destruct c as [[] [] [] [] [] [] [] []]; vm_compute. Qed.

Lemma wordByte_below_128 c : wordByte c = true → (Go.byteval c <? 128) = true.
Proof. by destruct c as [[] [] [] [] [] [] [] []]; vm_compute. Qed.

Lemma wordBytes_isASCII s : allBytes wordByte s = true → Go.isASCII s = true.
Proof.
  induction s as [|c s IH]; simpl; [done|].
  intros [Hc Hs]%andb_true_iff. by rewrite (wordByte_below_128 c Hc), IH.
Qed.

Lemma validWord_intro c :
  c ≠ "" → (String.length c ≤ 64)%nat → allBytes wordByte c = true →
  validWord c = true.
Proof.
  intros Hne Hlen Hall. unfold validWord.
  apply String.eqb_neq in Hne. rewrite Hne, Hall. simpl.
  rewrite andb_true_r. apply Z.leb_le. unfold Go.len, maxWordLen. lia.
Qed.

Lemma validWord_elim c :
  validWord c = true →
  c ≠ "" ∧ (String.length c ≤ 64)%nat ∧ allBytes wordByte c = true.
Proof.
  unfold validWord. intros [[Hne Hlen]%andb_true_iff Hall]%andb_true_iff.
  split_and!; [|apply Z.leb_le in Hlen; unfold Go.len, maxWordLen in Hlen; lia|done].
  apply negb_true_iff, String.eqb_neq in Hne. exact Hne.
Qed.

Lemma take_nonempty n s : (0 < n)%nat → s ≠ "" → Go.take n s ≠ "".
Proof. destruct n, s; simpl; try done; lia. Qed.

Lemma length_take_le_length n s :
  (String.length (Go.take n s) ≤ String.length s)%nat.
Proof.
  revert s. induction n as [|n IH]; intros [|c s]; simpl; try lia.
  specialize (IH s). lia.
Qed.

Lemma validWord_take n w :
  validWord w = true → (0 < n)%nat → validWord (Go.take n w) = true.
Proof.
  intros (Hne & Hlen & Hall)%validWord_elim Hn. apply validWord_intro.
  - by apply take_nonempty.
  - pose proof (length_take_le_length n w). lia.
  - by apply allBytes_take.
Qed.

Lemma dedupe_subset cands seen out x :
  x ∈ dedupe cands seen out → x ∈ out ∨ x ∈ cands.
Proof.
  revert seen out. induction cands as [|c cands IH]; intros seen out; simpl.
  - by left.
  - destruct (decide (c ∈ seen)).
    + intros [?|?]%IH; [by left | right; by right].
    + intros [Hx|Hx]%IH; [|right; by right].
      apply elem_of_app in Hx as [Hx|Hx]; [by left|].
      apply list_elem_of_singleton in Hx as ->. right. by left.
Qed.

Lemma dedupe_length cands seen out :
  (length (dedupe cands seen out) ≤ length out + length cands)%nat.
Proof.
  revert seen out. induction cands as [|c cands IH]; intros seen out; simpl.
  - lia.
  - destruct (decide (c ∈ seen)).
    + specialize (IH seen out). lia.
    + specialize (IH ({[c]} ∪ seen) (out ++ [c])).
      rewrite length_app in IH. simpl in IH. lia.
Qed.

(** Where a lemma candidate comes from. *)
Lemma lemmaCandidates_cases w c :
  c ∈ lemmaCandidates w →
  let lw := Go.ToLower w in
  c = lw
  ∨ (4 < Go.len lw ∧ c = Go.sliceTo lw (Go.len lw - 3) +:+ "y")
  ∨ (4 < Go.len lw ∧ c = Go.sliceTo lw (Go.len lw - 2))
  ∨ (3 < Go.len lw ∧ c = Go.sliceTo lw (Go.len lw - 1)).
Proof.
  unfold lemmaCandidates. intros [Hc|Hc]%dedupe_subset;
    [by apply elem_of_nil in Hc|]. cbv zeta. revert Hc.
  set (lw := Go.ToLower w).
  destruct (Go.HasSuffix lw "ies" && (4 <? Go.len lw)) eqn:E1;
  destruct (Go.HasSuffix lw "es" && (4 <? Go.len lw)) eqn:E2;
  destruct (Go.HasSuffix lw "s" && (3 <? Go.len lw) && negb (Go.HasSuffix lw "ss")) eqn:E3.
  all: repeat match goal with
       | E : _ && _ = true |- _ => apply andb_true_iff in E as [? ?]
       end.
  all: repeat match goal with
       | E : (_ <? _) = true |- _ => apply Z.ltb_lt in E
       end.
  all: unfold Go.TrimSuffix; rewrite ?elem_of_app, ?list_elem_of_singleton.
  all: repeat match goal with
       | E : Go.HasSuffix _ "s" = true |- _ => rewrite E; clear E
       end.
  all: change (Go.len "s") with 1.
  all: intuition (subst; auto).
Qed.

Lemma lemmaCandidates_length w : (length (lemmaCandidates w) ≤ 4)%nat.
Proof.
  unfold lemmaCandidates.
  match goal with |- context [dedupe ?l ∅ []] =>
    pose proof (dedupe_length l ∅ []) as Hd;
    assert (Hl : (length l ≤ 4)%nat)
  end.
  { repeat match goal with |- context [if ?b then _ else _] => destruct b end;
      rewrite ?length_app; simpl; lia. }
  etrans; [exact Hd | exact Hl].
Qed.

(** X7. The lemma generator stays inside the set of valid words: for a
    valid word it yields at most four candidates and each of them is a
    valid word (not empty, at most 64 bytes, made of letters, digits,
    underscore, hyphen and apostrophe). *)
Theorem lemmaCandidates_valid w :
  validWord w = true →
  Forall (λ c, validWord c = true) (lemmaCandidates w)
  ∧ (length (lemmaCandidates w) ≤ 4)%nat.
Proof.
  intros Hw. split; [|apply lemmaCandidates_length].
  destruct (validWord_elim w Hw) as (Hne & Hlen & Hall).
  assert (Hlow : Go.ToLower w = Go.mapBytes Go.lowerByte w).
  { unfold Go.ToLower. by rewrite wordBytes_isASCII. }
  assert (Hlw : validWord (Go.ToLower w) = true).
  { rewrite Hlow. apply validWord_intro.
    - destruct w; [done | simpl; done].
    - by rewrite length_mapBytes.
    - apply allBytes_mapBytes; [apply wordByte_lowerByte | done]. }
  apply Forall_forall. intros c Hc.
  apply lemmaCandidates_cases in Hc. cbv zeta in Hc.
  set (lw := Go.ToLower w) in *.
  destruct Hc as [->|[[Hl ->]|[[Hl ->]|[Hl ->]]]]; [done | | |].
  - assert (Hpre : validWord (Go.sliceTo lw (Go.len lw - 3)) = true).
    { apply validWord_take; [done | lia]. }
    destruct (validWord_elim _ Hpre) as (Hne1 & Hlen1 & Hall1).
    apply validWord_intro.
    + destruct (Go.sliceTo lw (Go.len lw - 3)); [done | by rewrite GoFacts.app_cons].
    + rewrite GoFacts.length_app. simpl.
      pose proof (length_take_le (Z.to_nat (Go.len lw - 3)) lw).
      destruct (validWord_elim _ Hlw) as (_ & Hlen2 & _).
      unfold Go.sliceTo, Go.len in *. lia.
    + by rewrite allBytes_app, Hall1.
  - apply validWord_take; [done | lia].
  - apply validWord_take; [done | lia].
Qed.

(** X8. [clampBody] never yields more than 1400 bytes, whatever it is
    given, and what it yields is the trimmed text itself or a prefix of
    the trimmed text followed by the truncation marker. *)
Theorem clampBody_bounded s :
  Go.len (clampBody s) ≤ bodyMaxChars
  ∧ (clampBody s = Go.TrimSpace s
     ∨ ∃ pre rest, clampBody s = pre +:+ truncationMarker
                   ∧ Go.TrimSpace s = pre +:+ rest).
Proof.
  pose proof (GoFacts.TrimSpace_trimmed s) as Htr.
  destruct (Z.leb_spec (Go.len (Go.TrimSpace s)) bodyMaxChars) as [Hle|Hgt].
  - assert (Hc : clampBody s = Go.TrimSpace s).
    { unfold clampBody. by apply Z.leb_le in Hle as ->. }
    rewrite Hc. split; [done | by left].
  - assert (Hc : clampBody s = clampBody (Go.TrimSpace s)).
    { unfold clampBody. by rewrite GoFacts.TrimSpace_idemp. }
    destruct (clampBody_long (Go.TrimSpace s) Htr Hgt) as (Hlong & [rest Hrest] & Hlen).
    rewrite Hc. split; [done|]. right.
    exists (Go.TrimSpace (Go.sliceTo (Go.TrimSpace s) (bodyMaxChars - 80))), rest.
    by split.
Qed.

End WordFacts.

(* ===================================================================== *)
(** * The word picker *)
(* ===================================================================== *)

Section PickFacts.
Import Go GoStrings.

(** The bytes of a word are ASCII and are neither white space, nor in the
    cut set, nor a line feed. *)
Lemma wordByte_plain c :
  wordByte c = true →
  byteval c < 128 ∧ asciiSpace (byteval c) = false
  ∧ cutByte (byteval c) = false ∧ Ascii.eqb c "010" = false.
Proof.
  destruct c as [[] [] [] [] [] [] [] []]; vm_compute; intros Hw;
    try discriminate Hw; repeat split.
Qed.

Lemma space2_ascii b0 b1 : b0 < 128 ∨ b1 < 128 → space2 b0 b1 = false.
Proof.
  intros Hb. apply not_true_is_false. unfold space2. intros Ht.
  repeat (rewrite ?orb_true_iff, ?andb_true_iff, ?Z.eqb_eq, ?Z.leb_le in Ht).
  lia.
Qed.

Lemma space3_ascii b0 b1 b2 :
  b0 < 128 ∨ b1 < 128 ∨ b2 < 128 → space3 b0 b1 b2 = false.
Proof.
  intros Hb. apply not_true_is_false. unfold space3. intros Ht.
  repeat (rewrite ?orb_true_iff, ?andb_true_iff, ?Z.eqb_eq, ?Z.leb_le in Ht).
  lia.
Qed.

Lemma cut3_ascii b0 b1 b2 :
  b0 < 128 ∨ b1 < 128 ∨ b2 < 128 → cut3 b0 b1 b2 = false.
Proof.
  intros Hb. apply not_true_is_false. unfold cut3. intros Ht.
  repeat (rewrite ?orb_true_iff, ?andb_true_iff, ?Z.eqb_eq, ?Z.leb_le in Ht).
  lia.
Qed.

(** No white-space rune and no rune of the cut set starts at a plain
    byte. *)
Lemma leadSpace_plain c l : plainByte c → leadSpace (c :: l) = 0%nat.
Proof.
  intros (Hc & Hs & _). destruct l as [|c1 [|c2 l]]; simpl; rewrite Hs;
    rewrite ?space2_ascii, ?space3_ascii by (left; exact Hc); reflexivity.
Qed.

Lemma leadCut_plain c l : plainByte c → leadCut (c :: l) = 0%nat.
Proof.
  intros (Hc & _ & Hk). destruct l as [|c1 [|c2 l]]; simpl; rewrite Hk;
    rewrite ?cut3_ascii by (left; exact Hc); reflexivity.
Qed.

(** Nor does one end on a plain byte or reach across it. *)
Lemma trailSpace_boundary c t y :
  plainByte c → (trailSpace (y ++ c :: t) ≤ length y)%nat.
Proof.
  intros (Hc & Hs & _).
  destruct y as [|a [|b [|d y]]], t as [|t1 [|t2 t]]; simpl;
    rewrite ?Hs;
    rewrite ?(space2_ascii (byteval c)) by (left; exact Hc);
    rewrite ?(space2_ascii _ (byteval c)) by (right; exact Hc);
    rewrite ?(space3_ascii (byteval c)) by (left; exact Hc);
    rewrite ?(space3_ascii _ (byteval c)) by (right; left; exact Hc);
    rewrite ?(space3_ascii _ _ (byteval c)) by (right; right; exact Hc);
    repeat match goal with
    | |- context [if ?b then _ else _] => destruct b
    end; lia.
Qed.

Lemma trailCut_boundary c t y :
  plainByte c → (trailCut (y ++ c :: t) ≤ length y)%nat.
Proof.
  intros (Hc & _ & Hk).
  destruct y as [|a [|b [|d y]]], t as [|t1 [|t2 t]]; simpl;
    rewrite ?Hk;
    rewrite ?(cut3_ascii (byteval c)) by (left; exact Hc);
    rewrite ?(cut3_ascii _ (byteval c)) by (right; left; exact Hc);
    rewrite ?(cut3_ascii _ _ (byteval c)) by (right; right; exact Hc);
    repeat match goal with
    | |- context [if ?b then _ else _] => destruct b
    end; lia.
Qed.

(** Stripping stops in front of a tail it cannot reach into. *)
Lemma stripWhile_boundary width n y tail :
  (∀ y0, (width (y0 ++ tail) ≤ length y0)%nat) →
  ∃ pre y', y = pre ++ y' ∧ stripWhile width n (y ++ tail) = y' ++ tail.
Proof.
  intros Hb. revert y. induction n as [|n IH]; intros y; simpl.
  - by exists [], y.
  - destruct (width (y ++ tail)) as [|k] eqn:Hw.
    + by exists [], y.
    + pose proof (Hb y) as Hle. rewrite Hw in Hle.
      rewrite skipn_app.
      replace (S k - length y)%nat with 0%nat by lia. simpl skipn at 2.
      destruct (IH (List.skipn (S k) y)) as (pre & y' & Hy & Hs).
      exists (List.firstn (S k) y ++ pre), y'. split; [|exact Hs].
      rewrite <- app_assoc, <- Hy. symmetry. apply firstn_skipn.
Qed.

Lemma wordy_bytes w :
  wordy w →
  ∃ c l, String.list_ascii_of_string w = c :: l ∧ plainByte c.
Proof.
  intros [Hall Hne]. destruct w as [|c w]; [done|].
  exists c, (String.list_ascii_of_string w). split; [done|].
  simpl in Hall. apply andb_true_iff in Hall as [Hc _].
  destruct (wordByte_plain c Hc) as (? & ? & ? & _). by repeat split.
Qed.

Lemma wordy_bytes_rev w :
  wordy w →
  ∃ c l, List.rev (String.list_ascii_of_string w) = c :: l ∧ plainByte c.
Proof.
  intros [Hall Hne].
  assert (Hf : Forall plainByte (String.list_ascii_of_string w)).
  { clear Hne. induction w as [|c w IH]; simpl; [constructor|].
    simpl in Hall. apply andb_true_iff in Hall as [Hc Hw].
    constructor; [|by apply IH].
    destruct (wordByte_plain c Hc) as (? & ? & ? & _). by repeat split. }
  assert (Hnz : String.list_ascii_of_string w ≠ []) by (by destruct w).
  apply Forall_rev in Hf.
  destruct (List.rev (String.list_ascii_of_string w)) as [|c l] eqn:Hr.
  - apply (f_equal (@List.rev ascii)) in Hr. rewrite rev_involutive in Hr. done.
  - exists c, l. split; [done|]. by inversion Hf.
Qed.

Lemma trimRight_cutBack width :
  width [] = 0%nat →
  (∀ c l, plainByte c → ∀ y0, (width (y0 ++ c :: l) ≤ length y0)%nat) →
  ∀ w y, wordy w →
  ∃ Y1 R, List.rev (stripWhile width
                      (length (String.list_ascii_of_string (w +:+ y)))
                      (List.rev (String.list_ascii_of_string (w +:+ y))))
          = String.list_ascii_of_string w ++ Y1
    ∧ String.list_ascii_of_string y = Y1 ++ R.
Proof.
  intros _ Hb w y Hw.
  destruct (wordy_bytes_rev w Hw) as (c & l & Hrev & Hc).
  rewrite GoFacts.bytes_app, rev_app_distr, Hrev.
  destruct (stripWhile_boundary width
              (length (String.list_ascii_of_string w ++ String.list_ascii_of_string y))
              (List.rev (String.list_ascii_of_string y)) (c :: l) (Hb c l Hc))
    as (pre & y' & Hy & Hs).
  rewrite Hs. exists (List.rev y'), (List.rev pre). split.
  - rewrite rev_app_distr, <- Hrev, rev_involutive. reflexivity.
  - rewrite <- rev_app_distr, <- Hy, rev_involutive. reflexivity.
Qed.

Lemma of_bytes_split w Y1 R y :
  String.list_ascii_of_string y = Y1 ++ R →
  String.string_of_list_ascii (String.list_ascii_of_string w ++ Y1)
  = w +:+ String.string_of_list_ascii Y1
  ∧ y = String.string_of_list_ascii Y1 +:+ String.string_of_list_ascii R.
Proof.
  intros Hy. split.
  - by rewrite GoFacts.of_bytes_app, String.string_of_list_ascii_of_string.
  - rewrite <- GoFacts.of_bytes_app, <- Hy.
    symmetry. apply String.string_of_list_ascii_of_string.
Qed.

Lemma TrimSpace_cutBack : cutBack TrimSpace.
Proof.
  intros w y Hw. unfold TrimSpace.
  destruct (wordy_bytes w Hw) as (c & l & Hbytes & Hc).
  rewrite GoFacts.trimLeftSpace_id
    by (rewrite GoFacts.bytes_app, Hbytes; apply leadSpace_plain, Hc).
  unfold trimRightSpace.
  destruct (trimRight_cutBack trailSpace eq_refl
              (λ c l Hc y0, trailSpace_boundary c l y0 Hc) w y Hw)
    as (Y1 & R & Hs & Hy).
  rewrite Hs. destruct (of_bytes_split w Y1 R y Hy) as [H1 H2].
  by exists (String.string_of_list_ascii Y1), (String.string_of_list_ascii R).
Qed.

Lemma TrimCutset_cutBack : cutBack TrimCutset.
Proof.
  intros w y Hw. unfold TrimCutset, trimRightCut.
  destruct (wordy_bytes w Hw) as (c & l & Hbytes & Hc).
  destruct (trimRight_cutBack trailCut eq_refl
              (λ c l Hc y0, trailCut_boundary c l y0 Hc) w y Hw)
    as (Y1 & R & Hs & Hy).
  rewrite Hs. unfold trimLeftCut.
  rewrite GoFacts.stripWhile_none
    by (rewrite Hbytes; apply leadCut_plain, Hc).
  destruct (of_bytes_split w Y1 R y Hy) as [H1 H2].
  by exists (String.string_of_list_ascii Y1), (String.string_of_list_ascii R).
Qed.

Lemma IndexByte_range s c : -1 ≤ IndexByte s c.
Proof.
  induction s as [|b s IH]; simpl; [lia|].
  destruct (Ascii.eqb b c); [lia|].
  destruct (Z.ltb_spec (IndexByte s c) 0); lia.
Qed.

Lemma firstLine_prefix s : ∃ r, s = firstLine s +:+ r.
Proof.
  unfold firstLine. destruct (0 <=? IndexByte s "010").
  - exists (sliceFrom s (IndexByte s "010")). symmetry. apply GoFacts.take_drop.
  - exists "". clear. induction s as [|c s IH]; [done|].
    by rewrite GoFacts.app_cons, <- IH.
Qed.

Lemma firstLine_word w y :
  allBytes wordByte w = true → firstLine (w +:+ y) = w +:+ firstLine y.
Proof.
  induction w as [|c w IH]; [done|]. simpl. intros [Hc Hw]%andb_true_iff.
  destruct (wordByte_plain c Hc) as (_ & _ & _ & Hlf).
  specialize (IH Hw). unfold firstLine in *.
  rewrite !GoFacts.app_cons. simpl IndexByte. rewrite Hlf.
  pose proof (IndexByte_range (w +:+ y) "010") as Hr.
  destruct (Z.ltb_spec (IndexByte (w +:+ y) "010") 0) as [Hneg|Hpos].
  - destruct (Z.leb_spec 0 (IndexByte (w +:+ y) "010")) as [|_]; [lia|].
    simpl. by rewrite <- IH.
  - destruct (Z.leb_spec 0 (IndexByte (w +:+ y) "010")) as [_|]; [|lia].
    destruct (Z.leb_spec 0 (IndexByte (w +:+ y) "010" + 1)) as [_|]; [|lia].
    rewrite <- IH. unfold sliceTo.
    replace (Z.to_nat (IndexByte (w +:+ y) "010" + 1))
      with (S (Z.to_nat (IndexByte (w +:+ y) "010"))) by lia.
    reflexivity.
Qed.

Lemma firstLine_cutBack : cutBack firstLine.
Proof.
  intros w y [Hw _]. destruct (firstLine_prefix y) as [r Hr].
  exists (firstLine y), r. split; [by apply firstLine_word | exact Hr].
Qed.

Lemma blankOrEnd_prefix y y1 r : blankOrEnd y → y = y1 +:+ r → blankOrEnd y1.
Proof.
  intros [->|[y' ->]] Hy.
  - left. destruct y1; [done | by rewrite GoFacts.app_cons in Hy].
  - destruct y1 as [|c y1]; [by left|]. right. exists y1.
    rewrite GoFacts.app_cons in Hy. by injection Hy as <- _.
Qed.

Lemma leadSpace_blank c l :
  asciiSpace (byteval c) = true → leadSpace (c :: l) = 1%nat.
Proof. intros Hc. destruct l as [|c1 [|c2 l]]; simpl; by rewrite Hc. Qed.

Lemma fieldsLoop_word W Y cur b :
  Forall plainByte W → W ≠ [] →
  fieldsLoop (W ++ Y) 0 cur b = fieldsLoop Y 0 (cur ++ W) true.
Proof.
  intros HW. revert cur b. induction HW as [|c W Hc HW IH]; intros cur b Hne; [done|].
  simpl app. cbn [fieldsLoop]. rewrite (leadSpace_plain c (W ++ Y) Hc).
  destruct W as [|c' W'].
  - reflexivity.
  - rewrite IH by done. by rewrite <- app_assoc.
Qed.

Lemma Fields_word w y :
  wordy w → blankOrEnd y → ∃ rest, Fields (w +:+ y) = w :: rest.
Proof.
  intros Hw Hy. unfold Fields. rewrite GoFacts.bytes_app.
  assert (HW : Forall plainByte (String.list_ascii_of_string w)).
  { destruct Hw as [Hall _]. induction w as [|c w IH]; simpl; [constructor|].
    simpl in Hall. apply andb_true_iff in Hall as [Hc Hw].
    constructor; [|by apply IH].
    destruct (wordByte_plain c Hc) as (? & ? & ? & _). by repeat split. }
  rewrite fieldsLoop_word; [|done|destruct Hw as [_ Hne]; by destruct w].
  rewrite app_nil_l. destruct Hy as [->|[y' ->]].
  - exists []. simpl. by rewrite String.string_of_list_ascii_of_string.
  - eexists. simpl String.list_ascii_of_string. cbn [fieldsLoop].
    rewrite (leadSpace_blank " " _ eq_refl). cbn [map app].
    by rewrite String.string_of_list_ascii_of_string.
Qed.

Lemma wordy_app_nonempty w y : wordy w → String.eqb (w +:+ y) "" = false.
Proof.
  intros [_ Hne]. apply String.eqb_neq. destruct w; [done|].
  by rewrite GoFacts.app_cons.
Qed.

(** The word at the start of a text is what [pickWord] returns, provided
    the word ends the text or a blank follows it. *)
Lemma pickWord_leading_word w y :
  wordy w → blankOrEnd y → pickWord (w +:+ y) = w.
Proof.
  intros Hw Hy. unfold pickWord.
  destruct (TrimSpace_cutBack w y Hw) as (y1 & r1 & -> & Hy1).
  rewrite (wordy_app_nonempty w y1 Hw).
  pose proof (blankOrEnd_prefix y y1 r1 Hy Hy1) as Hb1.
  fold (firstLine (w +:+ y1)).
  destruct (firstLine_cutBack w y1 Hw) as (y2 & r2 & -> & Hy2).
  pose proof (blankOrEnd_prefix y1 y2 r2 Hb1 Hy2) as Hb2.
  destruct (TrimCutset_cutBack w y2 Hw) as (y3 & r3 & -> & Hy3).
  pose proof (blankOrEnd_prefix y2 y3 r3 Hb2 Hy3) as Hb3.
  rewrite (wordy_app_nonempty w y3 Hw).
  by destruct (Fields_word w y3 Hw Hb3) as [rest ->].
Qed.

Lemma validWord_wordy w : validWord w = true → wordy w.
Proof. intros (Hne & _ & Hall)%validWord_elim. by split. Qed.

Lemma app_empty_r w : w +:+ "" = w.
Proof. induction w as [|c w IH]; [done|]. by rewrite GoFacts.app_cons, IH. Qed.

(** A word has no white space to trim. *)
Lemma TrimSpace_word w : wordy w → TrimSpace w = w.
Proof.
  intros Hw. destruct (TrimSpace_cutBack w "" Hw) as (y1 & r1 & Ht & Hy1).
  rewrite app_empty_r in Ht. rewrite Ht.
  destruct y1; [apply app_empty_r | by rewrite GoFacts.app_cons in Hy1].
Qed.

(** X9. A valid word goes through [pickWord] unchanged, also after the
    trimming the daemon applies to what it reads, so the word a client
    writes to the socket is the word the daemon picks; and a valid word
    followed by a blank is picked whatever comes after the blank. *)
Theorem pickWord_valid_word w rest :
  validWord w = true →
  pickWord w = w
  ∧ pickWord (Go.TrimSpace w) = w
  ∧ pickWord (w +:+ " " +:+ rest) = w.
Proof.
  intros Hw. apply validWord_wordy in Hw as Hwd.
  assert (Hp : pickWord w = w).
  { rewrite <- (app_empty_r w) at 1. apply pickWord_leading_word; [done | by left]. }
  split_and!.
  - exact Hp.
  - by rewrite (TrimSpace_word w Hwd).
  - apply pickWord_leading_word; [done|]. right. by exists rest.
Qed.

Lemma leadSpace_zero_head c l :
  leadSpace (c :: l) = 0%nat → noSpaceByte c = true.
Proof.
  unfold noSpaceByte.
  destruct l as [|c1 [|c2 l]]; simpl; by destruct (asciiSpace (byteval c)).
Qed.

(** No field holds a byte of ASCII white space. *)
Lemma fieldsLoop_no_space l skip cur b :
  Forall (λ c, noSpaceByte c = true) cur →
  Forall (Forall (λ c, noSpaceByte c = true)) (fieldsLoop l skip cur b).
Proof.
  revert skip cur b. induction l as [|c l IH]; intros skip cur b Hcur.
  - simpl. destruct b; [by constructor | constructor].
  - cbn [fieldsLoop]. destruct skip as [|k]; [|by apply IH].
    destruct (leadSpace (c :: l)) as [|w] eqn:Hw.
    + apply IH, Forall_app. split; [done|].
      constructor; [by apply (leadSpace_zero_head c l) | constructor].
    + apply Forall_app. split; [destruct b; by repeat constructor|].
      apply IH. constructor.
Qed.

Lemma allBytes_of_bytes f l :
  Forall (λ c, f c = true) l → allBytes f (String.string_of_list_ascii l) = true.
Proof. induction 1 as [|c l Hc _ IH]; simpl; [done | by rewrite Hc, IH]. Qed.

(** X27. What [pickWord] returns holds no blank, tab, line feed, carriage
    return, vertical tab or form feed, whatever text it is given. *)
Theorem pickWord_no_space s : allBytes noSpaceByte (pickWord s) = true.
Proof.
  unfold pickWord.
  destruct (String.eqb (TrimSpace s) ""); [done|].
  match goal with |- context [TrimCutset ?t] => generalize (TrimCutset t) end.
  intros t. destruct (String.eqb t ""); [done|].
  unfold Fields.
  pose proof (fieldsLoop_no_space (String.list_ascii_of_string t) 0 [] false
                (Forall_nil_2 _)) as Hall.
  destruct (fieldsLoop (String.list_ascii_of_string t) 0 [] false) as [|f fs];
    [done|].
  simpl. apply allBytes_of_bytes. by inversion Hall.
Qed.

End PickFacts.

(* ===================================================================== *)
(** * The command line *)
(* ===================================================================== *)

Section ArgFacts.
Import Go GoStrings.

Lemma mem_cons (x a : string) (l : list string) :
  bool_decide (x ∈ a :: l) = String.eqb a x || bool_decide (x ∈ l).
Proof.
  destruct (String.eqb_spec a x) as [->|Hne]; simpl.
  - apply bool_decide_eq_true. by left.
  - apply bool_decide_ext. rewrite elem_of_cons.
    split; [intros [Hx|Hx]; [congruence | done] | by right].
Qed.

Lemma parseArgs_from cfg args :
  let cfg' := foldl parseArg cfg args in
  debug cfg' = debug cfg || bool_decide ("--debug" ∈ args)
  ∧ daemon cfg' = daemon cfg || bool_decide ("--daemon" ∈ args)
  ∧ forceOnline cfg' = forceOnline cfg || bool_decide ("--force-online" ∈ args)
  ∧ noOffline cfg' = noOffline cfg || bool_decide ("--no-offline" ∈ args)
  ∧ fullView cfg' = fullView cfg || bool_decide ("--full" ∈ args).
Proof.
  revert cfg. induction args as [|a args IH]; intros cfg; cbv zeta.
  - simpl. by rewrite !orb_false_r.
  - simpl foldl. destruct (IH (parseArg cfg a)) as (H1 & H2 & H3 & H4 & H5).
    rewrite H1, H2, H3, H4, H5, !mem_cons. clear.
    unfold parseArg.
    destruct (String.eqb_spec a "--debug") as [->|_]; [simpl; by rewrite !orb_true_r|].
    destruct (String.eqb_spec a "--daemon") as [->|_]; [simpl; by rewrite !orb_true_r|].
    destruct (String.eqb_spec a "--force-online") as [->|_]; [simpl; by rewrite !orb_true_r|].
    destruct (String.eqb_spec a "--no-offline") as [->|_]; [simpl; by rewrite !orb_true_r|].
    destruct (String.eqb_spec a "--full") as [->|_]; [simpl; by rewrite !orb_true_r|].
    done.
Qed.

(** X10. [parseArgs] sets each option exactly when its flag occurs among
    the arguments, whatever their order and number, and however often a
    flag is repeated; every other argument leaves the options alone. *)
Theorem parseArgs_flags args :
  debug (parseArgs args) = bool_decide ("--debug" ∈ args)
  ∧ daemon (parseArgs args) = bool_decide ("--daemon" ∈ args)
  ∧ forceOnline (parseArgs args) = bool_decide ("--force-online" ∈ args)
  ∧ noOffline (parseArgs args) = bool_decide ("--no-offline" ∈ args)
  ∧ fullView (parseArgs args) = bool_decide ("--full" ∈ args).
Proof.
  exact (parseArgs_from {| debug := false; daemon := false; forceOnline := false;
                           noOffline := false; fullView := false |} args).
Qed.

Lemma Join_cons w more :
  Join (w :: more) " " = w +:+ match more with
                               | [] => ""
                               | _ => String " " (Join more " ")
                               end.
Proof.
  destruct more as [|m more]; [by rewrite app_empty_r|]. reflexivity.
Qed.

(** X11. When the options ask neither for the full view nor for the
    daemon and the first argument that does not begin with two hyphens is
    a valid word, [main] sends that word, whatever arguments follow it
    and whatever the selection holds. *)
Theorem mainAction_sends_first_argument args w more selection :
  fullView (parseArgs args) = false →
  daemon (parseArgs args) = false →
  filterOutFlags args = w :: more →
  validWord w = true →
  mainAction args selection = Send w.
Proof.
  intros Hfull Hdaemon Hrest Hw. unfold mainAction.
  rewrite Hfull, Hdaemon, Hrest. cbn [length Nat.ltb Nat.leb].
  rewrite Join_cons, pickWord_leading_word.
  - by rewrite Hw.
  - by apply validWord_wordy.
  - destruct more; [by left | right; by eexists].
Qed.

Lemma prefix_app d x : String.prefix d (d +:+ x) = true.
Proof.
  induction d as [|c d IH]; [by destruct x|].
  rewrite GoFacts.app_cons. simpl. by destruct (ascii_dec c c).
Qed.

Lemma Contains_unfold s d :
  Contains s d
  = String.prefix d s || match s with
                         | String _ s' => Contains s' d
                         | "" => false
                         end.
Proof. by destruct s. Qed.

Lemma Contains_here d x : Contains (d +:+ x) d = true.
Proof. by rewrite Contains_unfold, prefix_app. Qed.

Lemma Contains_app_l a x d : Contains x d = true → Contains (a +:+ x) d = true.
Proof.
  intros Hx. induction a as [|c a IH]; [done|].
  rewrite GoFacts.app_cons. simpl. rewrite IH. apply orb_true_r.
Qed.

Lemma append_assoc a b c : (a +:+ b) +:+ c = a +:+ (b +:+ c).
Proof.
  induction a as [|x a IH]; [done|]. by rewrite !GoFacts.app_cons, IH.
Qed.

Lemma ensureDir_spec p d :
  let q := if Contains p d then p else d +:+ ":" +:+ p in
  Contains q d = true
  ∧ (∀ d', Contains p d' = true → Contains q d' = true)
  ∧ ∃ pre, q = pre +:+ p.
Proof.
  cbv zeta. destruct (Contains p d) eqn:Hc.
  - split_and!; [done | done | by exists ""].
  - split_and!; [apply Contains_here | |].
    + intros d' Hd'. by do 2 apply Contains_app_l.
    + exists (d +:+ ":"). symmetry. apply append_assoc.
Qed.

(** X12. [ensureCommonPATH] only ever puts directories in front of the
    value of PATH it finds; in the value it sets, each of /usr/local/bin,
    /usr/bin and /bin occurs (as a substring, which is what the code
    tests: /bin counts as present wherever /usr/bin is); and running it
    again changes nothing. *)
Theorem ensureCommonPATH_spec p :
  (∃ pre, ensureCommonPATH p = pre +:+ p)
  ∧ Contains (ensureCommonPATH p) "/usr/local/bin" = true
  ∧ Contains (ensureCommonPATH p) "/usr/bin" = true
  ∧ Contains (ensureCommonPATH p) "/bin" = true
  ∧ ensureCommonPATH (ensureCommonPATH p) = ensureCommonPATH p.
Proof.
  unfold ensureCommonPATH at 1 2 3 4. cbn [foldl].
  destruct (ensureDir_spec p "/usr/local/bin") as (Ha & Ka & [pa Ea]).
  set (p1 := if Contains p "/usr/local/bin" then p else _) in *.
  destruct (ensureDir_spec p1 "/usr/bin") as (Hb & Kb & [pb Eb]).
  set (p2 := if Contains p1 "/usr/bin" then p1 else _) in *.
  destruct (ensureDir_spec p2 "/bin") as (Hc & Kc & [pc Ec]).
  set (p3 := if Contains p2 "/bin" then p2 else _) in *.
  assert (H1 : Contains p3 "/usr/local/bin" = true) by auto.
  assert (H2 : Contains p3 "/usr/bin" = true) by auto.
  split_and!; [|done..|].
  - exists (pc +:+ pb +:+ pa).
    rewrite Ec, Eb, Ea, !append_assoc. reflexivity.
  - change (ensureCommonPATH p) with p3.
    unfold ensureCommonPATH. cbn [foldl]. by rewrite H1, H2, Hc.
Qed.

End ArgFacts.

(* ===================================================================== *)
(** * More on the resolver *)
(* ===================================================================== *)

Section ResolverMore.
Context `{Unicode} `{Host}.

Lemma planFor_elem providers cands pr cand :
  (pr, cand) ∈ planFor providers cands → pr ∈ providers ∧ cand ∈ cands.
Proof.
  unfold planFor. intros Hin. apply list_elem_of_In, in_flat_map in Hin.
  destruct Hin as (pr0 & Hpr & Hin). apply in_map_iff in Hin.
  destruct Hin as (c & [= <- <-] & Hc).
  split; by apply list_elem_of_In.
Qed.

Lemma planFor_length providers cands :
  length (planFor providers cands) = (length providers * length cands)%nat.
Proof.
  unfold planFor. induction providers as [|pr providers IH]; simpl; [done|].
  by rewrite length_app, length_map, IH.
Qed.

(** The queries of a run that follows a plan are queries of the plan. *)
Lemma followsPlan_within providers cands word evs acc :
  followsPlan (planFor providers cands) word evs acc →
  Forall (λ ev : event, ev.1.1 ∈ providers ∧ ev.1.2 ∈ cands) evs
  ∧ (length evs ≤ length providers * length cands)%nat.
Proof.
  intros Hplan.
  assert (Hpre : ∃ rest, planFor providers cands = map fst evs ++ rest).
  { destruct Hplan as [(evs0 & pr & cand & o & rest & _ & _ & _ & Hp & _)
                      |(_ & Hp & _)]; [by exists rest|].
    exists []. by rewrite app_nil_r. }
  destruct Hpre as [rest Hrest]. split.
  - apply Forall_forall. intros [[pr cand] r] Hev. cbn [fst snd].
    apply planFor_elem. rewrite Hrest. apply elem_of_app. left.
    change (pr, cand) with (fst (pr, cand, r)).
    apply list_elem_of_In, in_map, list_elem_of_In, Hev.
  - rewrite <- planFor_length, Hrest, length_app, length_map.
    apply Nat.le_add_r.
Qed.

Lemma providerOrder_length cfg : (length (providerOrder cfg) ≤ 3)%nat.
Proof. unfold providerOrder. destruct (noOffline cfg); simpl; lia. Qed.

(** The queries of the provider chain. *)
Lemma lookupChain_queries cfg p word (s : store) :
  let r := lookupChain cfg p word s in
  keeps s r.2
  ∧ ∃ evs : list event,
      calls r.2 = calls s ++ evs
      ∧ (length evs ≤ 12)%nat
      ∧ Forall (λ ev : event, ev.1.1 ∈ providerOrder cfg
                              ∧ ev.1.2 ∈ lemmaCandidates word) evs
      ∧ (r.1.2 = "none"
         ∨ ∃ pr, pr ∈ providerOrder cfg ∧ r.1.2 = sourceKind pr).
Proof.
  cbv zeta. destruct (lookupChain cfg p word s) as [acc s1] eqn:Hch.
  destruct (lookupChain_trace cfg p word s acc s1 Hch) as [Hk (evs & Hc & Hplan)].
  cbn [fst snd]. split; [exact Hk|]. exists evs.
  destruct (followsPlan_within _ _ _ _ _ Hplan) as [Hall Hlen].
  split_and!; [exact Hc | | exact Hall |].
  - pose proof (providerOrder_length cfg).
    pose proof (lemmaCandidates_length word). nia.
  - destruct Hplan as [(evs0 & pr & cand & o & rest & He & _ & _ & _ & ->)
                      |(_ & _ & ->)]; [|by left].
    right. exists pr. split; [|done].
    rewrite Forall_forall in Hall.
    apply (Hall (pr, cand, LookupOk o)). rewrite He. apply elem_of_app. right.
    by apply list_elem_of_singleton.
Qed.

(** [resolveDefinition] as one of its two paths. *)
Lemma resolveDefinition_paths cfg p word (s : store) :
  (∃ res, lookupCached (Go.ToLower word) s
          = (Some res, (resolveDefinition cfg p word s).2)
          ∧ (resolveDefinition cfg p word s).1 = res)
  ∨ (∃ s1, lookupCached (Go.ToLower word) s = (None, s1)
           ∧ resolveDefinition cfg p word s = resolveFresh cfg p word s1).
Proof.
  destruct (lookupCached (Go.ToLower word) s) as [[res|] s1] eqn:Hc.
  - left. exists res. by rewrite (resolveDefinition_hit _ _ _ _ _ _ Hc).
  - right. exists s1. by rewrite (resolveDefinition_miss _ _ _ _ _ Hc).
Qed.

(** What the second path leaves behind. *)
Lemma resolveFresh_effect cfg p word (s : store) :
  let r := resolveFresh cfg p word s in
  let k := Go.ToLower word in
  (∃ now, mem r.2 = lruCache_set now k r.1.1.1.1 r.1.1.1.2 r.1.1.2 r.1.2 (mem s))
  ∧ (∃ now, disk r.2 = <[k := {| Title := r.1.1.1.1; Body := r.1.1.1.2;
                                 Full := r.1.1.2; TS := now; Source := r.1.2 |}]>
                         (disk s))
  ∧ diskDirty r.2 = true
  ∧ calls r.2 = calls (lookupChain cfg p word s).2
  ∧ r.1.2 = (lookupChain cfg p word s).1.2.
Proof.
  cbv zeta.
  destruct (lookupChain cfg p word s) as [[[out used] source] s2] eqn:Hch.
  destruct (resolveFresh_run cfg p word s out used source s2 Hch)
    as (now1 & now2 & s' & Hrun & Hm & Hd & Hdirty & Hcalls & _).
  rewrite Hrun. cbn [fst snd].
  split_and!; [by exists now1 | by exists now2 | done | done | done].
Qed.

(** X13. One call of [resolveDefinition] makes at most twelve provider
    queries, each of them for a lemma candidate of the word and to a
    provider the configuration allows; a call answered from the cache
    makes none. *)
Theorem resolveDefinition_queries cfg p word (s : store) :
  let r := resolveDefinition cfg p word s in
  ∃ evs : list event,
    calls r.2 = calls s ++ evs
    ∧ (length evs ≤ 12)%nat
    ∧ Forall (λ ev : event, ev.1.1 ∈ providerOrder cfg
                            ∧ ev.1.2 ∈ lemmaCandidates word) evs
    ∧ (is_Some (lookupCached (Go.ToLower word) s).1 → evs = []).
Proof.
  cbv zeta.
  destruct (resolveDefinition_paths cfg p word s)
    as [(res & Hc & _)|(s1 & Hc & ->)].
  - destruct (lookupCached_frame _ _ _ _ Hc) as (_ & _ & _ & Hcalls & _).
    exists []. rewrite app_nil_r.
    split_and!; [done | simpl; lia | constructor | done].
  - destruct (lookupCached_frame _ _ _ _ Hc) as (_ & _ & _ & Hcalls & _).
    destruct (resolveFresh_effect cfg p word s1) as (_ & _ & _ & Hcs & _).
    destruct (lookupChain_queries cfg p word s1) as (_ & evs & He & Hlen & Hall & _).
    exists evs. rewrite Hcs, He, Hcalls.
    split_and!; [done | done | done |].
    rewrite Hc. cbn [fst]. by intros [? ?].
Qed.

(** X14. [resolveDefinition] never removes a persisted entry and never
    changes the entry of another key; it never clears the dirty flag; and
    it leaves the capacity and the TTL of the memory cache alone. *)
Theorem resolveDefinition_keeps_persisted cfg p word (s : store) :
  let r := resolveDefinition cfg p word s in
  (∀ k, k ≠ Go.ToLower word → disk r.2 !! k = disk s !! k)
  ∧ (∀ k, is_Some (disk s !! k) → is_Some (disk r.2 !! k))
  ∧ (diskDirty s = true → diskDirty r.2 = true)
  ∧ max (mem r.2) = max (mem s) ∧ ttl (mem r.2) = ttl (mem s).
Proof.
  cbv zeta.
  destruct (resolveDefinition_paths cfg p word s)
    as [(res & Hc & _)|(s1 & Hc & ->)].
  - destruct (lookupCached_frame _ _ _ _ Hc) as (Hd & Hdirty & _ & _ & Hm & Ht).
    rewrite Hd, Hdirty, Hm, Ht. by repeat split.
  - destruct (lookupCached_frame _ _ _ _ Hc) as (Hd & Hdirty & _ & _ & Hm & Ht).
    destruct (resolveFresh_effect cfg p word s1)
      as ([now1 Hmem] & [now2 Hdisk] & Hdy & _).
    rewrite Hdisk, Hmem, lruCache_set_max, lruCache_set_ttl, Hd, Hm, Ht.
    split_and!; [| | done | done | done].
    + intros k Hk. by apply lookup_insert_ne.
    + intros k Hk. destruct (decide (k = Go.ToLower word)) as [->|Hne].
      * rewrite lookup_insert_eq. by eexists.
      * by rewrite lookup_insert_ne.
Qed.

(** Whatever [get] and [set] keep, the cache look-up keeps. *)
Lemma lookupCached_mem_closed (P : lruCache → Prop) k (s : store) :
  (∀ now k c, P c → P (lruCache_get now k c).2) →
  (∀ now k t b f sr c, P c → P (lruCache_set now k t b f sr c)) →
  P (mem s) → P (mem (lookupCached k s).2).
Proof.
  intros Hget Hset Hs.
  unfold lookupCached, mem_get, mem_set. munfold. mcases.
  all: cbn [snd mem withMem withWorld].
  all: repeat match goal with
       | E : lruCache_get ?n ?k0 ?c = (_, ?c') |- _ =>
           assert (P c') by
             (replace c' with (lruCache_get n k0 c).2 by (by rewrite E);
              by apply Hget);
           clear E
       end.
  all: try done.
  all: by apply Hset.
Qed.

(** X15. [resolveDefinition] keeps the memory cache in order: if it holds
    no key twice and no more entries than its capacity before the call,
    the same is true after it, on every path. *)
Theorem resolveDefinition_keeps_cache_invariant cfg p word (s : store) :
  lruWf (mem s) → Z.of_nat (length (ll (mem s))) ≤ max (mem s) →
  let r := resolveDefinition cfg p word s in
  lruWf (mem r.2) ∧ Z.of_nat (length (ll (mem r.2))) ≤ max (mem r.2).
Proof.
  intros Hwf Hlen. cbv zeta.
  set (P := λ c : lruCache, lruWf c ∧ Z.of_nat (length (ll c)) ≤ max c).
  assert (Hget : ∀ now k c, P c → P (lruCache_get now k c).2).
  { intros now k c [Hw Hl]. split; [by apply lruCache_get_wf|].
    rewrite lruCache_get_max. pose proof (lruCache_get_bound now k c). lia. }
  assert (Hset : ∀ now k t b f sr c, P c → P (lruCache_set now k t b f sr c)).
  { intros now k t b f sr c [Hw Hl]. split; [by apply lruCache_set_wf|].
    rewrite lruCache_set_max. by apply lruCache_set_bound. }
  pose proof (lookupCached_mem_closed P (Go.ToLower word) s Hget Hset
                (conj Hwf Hlen)) as Hlook.
  destruct (resolveDefinition_paths cfg p word s)
    as [(res & Hc & _)|(s1 & Hc & ->)].
  - rewrite Hc in Hlook. exact Hlook.
  - rewrite Hc in Hlook. cbn [snd] in Hlook.
    destruct (resolveFresh_effect cfg p word s1) as ([now1 Hmem] & _).
    rewrite Hmem. by apply Hset.
Qed.

(** X16. Of its configuration [resolveDefinition] reads the option
    noOffline and the path of [dict], and nothing else: the options debug
    and forceOnline, among others, change neither its result nor what it
    does to the caches (so with forceOnline set a cached entry is still
    served without any query). *)
Theorem resolveDefinition_reads_two_settings cfg cfg' p p' word (s : store) :
  noOffline cfg = noOffline cfg' → dict p = dict p' →
  resolveDefinition cfg p word s = resolveDefinition cfg' p' word s.
Proof.
  intros Hno Hdict.
  unfold resolveDefinition, resolveFresh, lookupChain, offlineLookup.
  by rewrite Hno, Hdict.
Qed.

(** X17. A resolution that runs the provider chain stores under the
    lower-cased word, in the persisted map, exactly the title, body, full
    text and source it returns, and sets the dirty flag; the source is one
    of online, wiktionary, offline and none, and it is offline only if
    the option noOffline is not set. *)
Theorem resolveFresh_records_result cfg p word (s : store) :
  let r := resolveFresh cfg p word s in
  (∃ now, disk r.2 !! Go.ToLower word
          = Some {| Title := r.1.1.1.1; Body := r.1.1.1.2; Full := r.1.1.2;
                    TS := now; Source := r.1.2 |})
  ∧ diskDirty r.2 = true
  ∧ r.1.2 ∈ ["online"; "wiktionary"; "offline"; "none"]
  ∧ (noOffline cfg = true → r.1.2 ≠ "offline").
Proof.
  cbv zeta.
  destruct (resolveFresh_effect cfg p word s) as (_ & [now Hdisk] & Hdirty & _ & Hsrc).
  destruct (lookupChain_queries cfg p word s) as (_ & _ & _ & _ & _ & Hkind).
  rewrite <- Hsrc in Hkind.
  split_and!; [exists now; rewrite Hdisk; apply lookup_insert_eq | done | |].
  - destruct Hkind as [->|(pr & _ & ->)]; [set_solver|].
    destruct pr; simpl; set_solver.
  - intros Hno. destruct Hkind as [->|(pr & Hpr & ->)]; [done|].
    unfold providerOrder in Hpr. rewrite Hno in Hpr.
    destruct pr; simpl; [done | done |]. intros _. simpl in Hpr.
    repeat (apply elem_of_cons in Hpr as [Hpr|Hpr]; [discriminate|]).
    by apply elem_of_nil in Hpr.
Qed.

End ResolverMore.

(* ===================================================================== *)
(** * Saving the persisted cache *)
(* ===================================================================== *)

Section SaveFacts.
Context `{Unicode} `{Host}.

(** What a save leaves alone. *)
Lemma saveDiskCacheAtomic_others path m (s : store) :
  let s' := (saveDiskCacheAtomic path m s).2 in
  (∀ name, name ≠ path → name ≠ path +:+ ".tmp" →
           files s' !! name = files s !! name)
  ∧ mem s' = mem s ∧ disk s' = disk s ∧ diskDirty s' = diskDirty s
  ∧ calls s' = calls s.
Proof.
  cbv zeta. set (tmp := path +:+ ".tmp").
  unfold saveDiskCacheAtomic, os_WriteFile, os_Rename. munfold. fold tmp.
  destruct (jsonMarshal m) as [b|]; [|by repeat split].
  destruct (writeFileOutcome tmp b (world s)) as [[| |n] w];
    cbn [negb files withFiles withWorld world snd mem disk diskDirty calls].
  - rewrite lookup_insert_eq. cbn [world withFiles withWorld].
    destruct (renameOutcome tmp path w) as [[] w2];
      cbn [negb files withFiles withWorld world snd mem disk diskDirty calls].
    + split_and!; try done. intros name Hn1 Hn2.
      by rewrite lookup_insert_ne, lookup_delete_ne, lookup_insert_ne.
    + split_and!; try done. intros name Hn1 Hn2. by rewrite lookup_insert_ne.
  - by repeat split.
  - split_and!; try done. intros name Hn1 Hn2. by rewrite lookup_insert_ne.
Qed.

(** X18. [saveDiskCacheAtomic] is all or nothing for the file it saves
    to: afterwards the file holds what it held before, or it holds the
    whole encoding of the map and the temporary file is gone; a partly
    written encoding is only ever found in the temporary file. No other
    file is touched, and neither are the caches nor the dirty flag. *)
Theorem saveDiskCacheAtomic_all_or_nothing path m (s : store) :
  let s' := (saveDiskCacheAtomic path m s).2 in
  let tmp := path +:+ ".tmp" in
  (files s' !! path = files s !! path
   ∨ (files s' !! path = jsonMarshal m ∧ files s' !! tmp = None))
  ∧ (∀ name, name ≠ path → name ≠ tmp → files s' !! name = files s !! name)
  ∧ mem s' = mem s ∧ disk s' = disk s ∧ diskDirty s' = diskDirty s
  ∧ calls s' = calls s.
Proof.
  cbv zeta. split; [|apply saveDiskCacheAtomic_others].
  pose proof (tmp_path_differs path) as Hne.
  set (tmp := path +:+ ".tmp") in *.
  unfold saveDiskCacheAtomic, os_WriteFile, os_Rename. munfold. fold tmp.
  destruct (jsonMarshal m) as [b|]; [|by left].
  destruct (writeFileOutcome tmp b (world s)) as [[| |n] w];
    cbn [negb files withFiles withWorld world snd].
  - rewrite lookup_insert_eq. cbn [world withFiles withWorld].
    destruct (renameOutcome tmp path w) as [[] w2];
      cbn [negb files withFiles withWorld world snd].
    + right. rewrite lookup_insert_eq, lookup_insert_ne by done.
      by rewrite lookup_delete_eq.
    + left. by rewrite lookup_insert_ne.
  - by left.
  - left. by rewrite lookup_insert_ne.
Qed.

(** A save whose encoding, write and rename succeed. *)
Lemma saveDiskCacheAtomic_success path m (s : store) b :
  jsonMarshal m = Some b →
  (writeFileOutcome (path +:+ ".tmp") b (world s)).1 = WriteOk →
  (renameOutcome (path +:+ ".tmp") path
     (writeFileOutcome (path +:+ ".tmp") b (world s)).2).1 = true →
  let s' := (saveDiskCacheAtomic path m s).2 in
  files s' !! path = Some b ∧ files s' !! (path +:+ ".tmp") = None.
Proof.
  intros Hb Hw Hr. cbv zeta.
  pose proof (tmp_path_differs path) as Hne.
  set (tmp := path +:+ ".tmp") in *.
  unfold saveDiskCacheAtomic, os_WriteFile, os_Rename. munfold.
  fold tmp. rewrite Hb.
  destruct (writeFileOutcome tmp b (world s)) as [o w]. cbn [fst snd] in Hw, Hr.
  subst o. cbn [negb files withFiles withWorld world].
  rewrite lookup_insert_eq. cbn [world withFiles withWorld].
  destruct (renameOutcome tmp path w) as [ok w2]. cbn [fst] in Hr.
  subst ok. cbn [snd files withFiles withWorld].
  split; [apply lookup_insert_eq|].
  rewrite lookup_insert_ne by done. apply lookup_delete_eq.
Qed.

(** X19. A flush tick that finds the dirty flag set, and whose encoding,
    write and rename all succeed, leaves in [cache.json] the encoding of
    the persisted map as it is at that moment, removes the temporary
    file, and clears the flag; the map and the memory cache are as
    before. *)
Theorem flushTick_saves_snapshot (s : store) b :
  diskDirty s = true →
  jsonMarshal (disk s) = Some b →
  (writeFileOutcome (cacheFilePath +:+ ".tmp") b (world s)).1 = WriteOk →
  (renameOutcome (cacheFilePath +:+ ".tmp") cacheFilePath
     (writeFileOutcome (cacheFilePath +:+ ".tmp") b (world s)).2).1 = true →
  let s' := (flushTick s).2 in
  files s' !! cacheFilePath = Some b
  ∧ files s' !! (cacheFilePath +:+ ".tmp") = None
  ∧ diskDirty s' = false ∧ disk s' = disk s ∧ mem s' = mem s.
Proof.
  intros Hdirty Hb Hw Hr. cbv zeta.
  pose proof (tmp_path_differs cacheFilePath) as Hne.
  set (tmp := cacheFilePath +:+ ".tmp") in *.
  unfold flushTick, saveDiskCacheAtomic, os_WriteFile, os_Rename. munfold.
  fold tmp. rewrite Hdirty, Hb.
  destruct (writeFileOutcome tmp b (world s)) as [o w]. cbn [fst snd] in Hw, Hr.
  subst o. cbn [negb files withFiles withWorld world].
  rewrite lookup_insert_eq. cbn [world withFiles withWorld].
  destruct (renameOutcome tmp cacheFilePath w) as [ok w2]. cbn [fst] in Hr.
  subst ok. cbn [snd files withFiles withWorld withDirty diskDirty disk mem].
  split_and!; try done.
  - apply lookup_insert_eq.
  - rewrite lookup_insert_ne by done. apply lookup_delete_eq.
Qed.

End SaveFacts.

(* ===================================================================== *)
(** * The connection handler of the daemon *)
(* ===================================================================== *)

Section DaemonFacts.
Context `{Unicode} `{Host}.

Lemma keeps_withWorld w (s : store) : keeps s (withWorld w s).
Proof. by repeat split. Qed.

(** X20. A request from which no valid word can be picked is dropped
    without a trace: the handler notifies nothing, and the filter, both
    caches, the dirty flag, the files and the record of provider queries
    are as before. *)
Theorem handleConn_drops_invalid cfg p input (d : daemonState) :
  validWord (pickWord (Go.TrimSpace input)) = false →
  let r := handleConn cfg p input d in
  r.1 = None ∧ dlast r.2 = dlast d ∧ keeps (dstore d) (dstore r.2)
  ∧ calls (dstore r.2) = calls (dstore d).
Proof.
  intros Hbad. cbv zeta. unfold handleConn, time_Now, host.
  destruct (clock (world (dstore d))) as [t w]. rewrite Hbad. simpl.
  by repeat split.
Qed.

(** X21. A request for a word whose key was let through less than 250 ms
    before the handler's reading of the clock is dropped before the
    resolver is reached: nothing is notified, the record of the filter is
    not renewed, and the caches, the dirty flag, the files and the record
    of provider queries are as before. *)
Theorem handleConn_drops_repeat cfg p input (d : daemonState) t0 :
  validWord (pickWord (Go.TrimSpace input)) = true →
  dlast d !! Go.ToLower (pickWord (Go.TrimSpace input)) = Some t0 →
  (clock (clock (world (dstore d))).2).1 - t0 < dedupeWindow →
  let r := handleConn cfg p input d in
  r.1 = None ∧ dlast r.2 = dlast d ∧ keeps (dstore d) (dstore r.2)
  ∧ calls (dstore r.2) = calls (dstore d).
Proof.
  intros Hok Hlast Hage. cbv zeta. unfold handleConn, time_Now, host.
  destruct (clock (world (dstore d))) as [t w]. rewrite Hok.
  cbn [negb world withWorld fst snd] in *.
  destruct (clock w) as [now w1]. cbn [fst] in Hage.
  rewrite (deduper_allow_within t0 now _ _ Hlast Hage). simpl.
  by repeat split.
Qed.

(** X22. A valid word that a client wrote to the socket, and whose key
    was not let through in the last 250 ms, is resolved as it is: the
    handler notifies the title, body and full text that
    [resolveDefinition] returns for that very word, the store is the one
    the resolver leaves, and the filter records the key with the
    handler's reading of the clock. *)
Theorem handleConn_resolves cfg p w (d : daemonState) :
  validWord w = true →
  (∀ t0, dlast d !! Go.ToLower w = Some t0 →
         dedupeWindow ≤ (clock (clock (world (dstore d))).2).1 - t0) →
  let now := (clock (clock (world (dstore d))).2).1 in
  let s1 := withWorld (clock (clock (world (dstore d))).2).2 (dstore d) in
  let res := resolveDefinition cfg p w s1 in
  let r := handleConn cfg p w d in
  r.1 = Some (res.1.1.1.1, res.1.1.1.2, res.1.1.2)
  ∧ dstore r.2 = res.2
  ∧ dlast r.2 = <[Go.ToLower w := now]> (dlast d).
Proof.
  intros Hw Hlast. cbv zeta. unfold handleConn, time_Now, host.
  assert (Hpick : pickWord (Go.TrimSpace w) = w).
  { rewrite (TrimSpace_word w (validWord_wordy w Hw)).
    rewrite <- (app_empty_r w) at 1.
    apply pickWord_leading_word; [by apply validWord_wordy | by left]. }
  rewrite Hpick, Hw.
  destruct (clock (world (dstore d))) as [t w0].
  cbn [negb world withWorld fst snd] in *.
  destruct (clock w0) as [now w1]. cbn [fst snd] in *.
  assert (Hallow : deduper_allow now (Go.ToLower w) (dlast d)
                   = (true, <[Go.ToLower w := now]> (dlast d))).
  { unfold deduper_allow. destruct (dlast d !! Go.ToLower w) as [t0|]; [|done].
    specialize (Hlast t0 eq_refl).
    destruct (Z.ltb_spec (now - t0) dedupeWindow); [lia | done]. }
  rewrite Hallow. cbn [negb].
  change (withWorld w1 (withWorld w0 (dstore d))) with (withWorld w1 (dstore d)).
  destruct (resolveDefinition cfg p w (withWorld w1 (dstore d))) as [res s2].
  by repeat split.
Qed.

End DaemonFacts.

(* ===================================================================== *)
(** * The client that resolves in its own process *)
(* ===================================================================== *)

Section ClientFacts.
Context `{Unicode} `{Host} `{!Loader}.

(** The state [clientSend] resolves in, given what the store was after
    the dial and what [loadDiskCache] returned. *)
Lemma loadDiskCache_run path (s : store) :
  let ok := (readFileOutcome path (world s)).1 in
  let w := (readFileOutcome path (world s)).2 in
  loadDiskCache path s
  = (match (if ok then files s !! path else None) with
     | None => Some ∅
     | Some b =>
         match jsonUnmarshal b with
         | DecodeErr => Some ∅
         | DecodeNil => None
         | DecodeMap m => Some m
         end
     end, withWorld w s).
Proof.
  cbv zeta. unfold loadDiskCache, os_ReadFile. munfold.
  destruct (readFileOutcome path (world s)) as [ok w]. cbn [fst snd files withWorld].
  destruct (if ok then files s !! path else None) as [b|]; [|done].
  by destruct (jsonUnmarshal b).
Qed.

(** X23. [loadDiskCache] never fails: a cache file that is missing, that
    cannot be read or that cannot be decoded gives an empty map. It
    changes neither the caches, nor the flag, nor any file. *)
Theorem loadDiskCache_total path (s : store) :
  let r := loadDiskCache path s in
  ((files s !! path = None
    ∨ (readFileOutcome path (world s)).1 = false
    ∨ (∃ b, files s !! path = Some b ∧ jsonUnmarshal b = DecodeErr)) →
   r.1 = Some ∅)
  ∧ keeps s r.2 ∧ calls r.2 = calls s.
Proof.
  cbv zeta. rewrite loadDiskCache_run. cbn [fst snd]. split; [|by repeat split].
  intros [Hnone|[Hread|(b & Hb & Hdec)]].
  - rewrite Hnone. by destruct (readFileOutcome path (world s)).1.
  - by rewrite Hread.
  - rewrite Hb. destruct (readFileOutcome path (world s)).1; [|done].
    by rewrite Hdec.
Qed.

Lemma clientSend_local cfg p word (s : store) :
  (dialOutcome (world s)).1 = false →
  let s0 := withMem (newLRU 64 (10 * minute))
                    (withWorld (dialOutcome (world s)).2 s) in
  let ld := loadDiskCache cacheFilePath s0 in
  let s1 := withDirty false (withDisk (default ∅ ld.1) ld.2) in
  let rs := resolveDefinition cfg p word s1 in
  let shown := Shown rs.1.1.1.1 rs.1.1.1.2 rs.1.1.2 in
  clientSend cfg p word s
  = match ld.1 with
    | None => if diskDirty rs.2 then (Panicked, rs.2) else (shown, rs.2)
    | Some _ =>
        if diskDirty rs.2
        then (shown, (saveDiskCacheAtomic cacheFilePath (disk rs.2) rs.2).2)
        else (shown, rs.2)
    end.
Proof.
  intros Hdial. cbv zeta. unfold clientSend. munfold.
  destruct (dialOutcome (world s)) as [up w1]. cbn [fst snd] in *. subst up.
  destruct (loadDiskCache cacheFilePath
              (withMem (newLRU 64 (10 * minute)) (withWorld w1 s)))
    as [m s2]. cbn [fst snd].
  destruct (resolveDefinition cfg p word
              (withDirty false (withDisk (default ∅ m) s2))) as [r s3].
  cbn [fst snd diskDirty].
  destruct m as [m|]; destruct (diskDirty s3); try reflexivity.
  by destruct (saveDiskCacheAtomic cacheFilePath (disk s3) s3) as [[] s4].
Qed.

(** With nothing in the memory cache and nothing under the key in the
    map, the resolver runs the provider chain. *)
Lemma resolveDefinition_cold cfg p word (s : store) :
  ll (mem s) = [] → disk s !! Go.ToLower word = None →
  resolveDefinition cfg p word s = resolveFresh cfg p word s.
Proof.
  intros Hmem Hdisk. apply resolveDefinition_miss.
  unfold lookupCached. unfold bind at 1.
  rewrite mem_get_absent by (by rewrite Hmem). munfold. by rewrite Hdisk.
Qed.

(** A fresh entry of the map, found with nothing in the memory cache. *)
Lemma lookupCached_from_disk k (s : store) de :
  ll (mem s) = [] → disk s !! k = Some de →
  (if String.eqb (Source de) "offline"
   then (clock (world s)).1 - TS de ≤ offlineRefreshAfter
        ∧ (clock (clock (world s)).2).1 - TS de ≤ cacheTTL
   else (clock (world s)).1 - TS de ≤ cacheTTL) →
  (lookupCached k s).1 = Some (Title de, Body de, Full de, Source de).
Proof.
  intros Hmem Hdisk Hfresh. unfold lookupCached. unfold bind at 1.
  rewrite mem_get_absent by (by rewrite Hmem). munfold. rewrite Hdisk.
  destruct (String.eqb (Source de) "offline").
  - destruct Hfresh as [Hage1 Hage2].
    destruct (clock (world s)) as [now w]. cbn [fst snd world withWorld] in *.
    destruct (Z.gtb_spec (now - TS de) offlineRefreshAfter); [lia|].
    cbn [world withWorld].
    destruct (clock w) as [now2 w2]. cbn [fst] in Hage2.
    destruct (Z.leb_spec (now2 - TS de) cacheTTL); [|lia].
    rewrite mem_set_run. reflexivity.
  - destruct (clock (world s)) as [now w]. cbn [fst snd] in *.
    destruct (Z.leb_spec (now - TS de) cacheTTL); [|lia].
    rewrite mem_set_run. reflexivity.
Qed.

(** X24. A client that cannot reach the daemon and finds the word in
    [cache.json], in an entry that is still fresh (12 hours for an entry
    of source offline, 30 days otherwise), shows that entry; it asks no
    provider and writes no file. *)
Theorem clientSend_serves_from_file cfg p word (s : store) snap m de :
  (dialOutcome (world s)).1 = false →
  (readFileOutcome cacheFilePath (dialOutcome (world s)).2).1 = true →
  files s !! cacheFilePath = Some snap →
  jsonUnmarshal snap = DecodeMap m →
  m !! Go.ToLower word = Some de →
  let w := (readFileOutcome cacheFilePath (dialOutcome (world s)).2).2 in
  (if String.eqb (Source de) "offline"
   then (clock w).1 - TS de ≤ offlineRefreshAfter
        ∧ (clock (clock w).2).1 - TS de ≤ cacheTTL
   else (clock w).1 - TS de ≤ cacheTTL) →
  let r := clientSend cfg p word s in
  r.1 = Shown (Title de) (Body de) (Full de)
  ∧ calls r.2 = calls s ∧ files r.2 = files s.
Proof.
  intros Hdial Hread Hfile Hdec Hm w Hfresh. cbv zeta.
  rewrite (clientSend_local cfg p word s Hdial). cbv zeta.
  rewrite loadDiskCache_run. cbn [fst snd world files withMem withWorld].
  rewrite Hread, Hfile, Hdec. cbn [default].
  set (s1 := withDirty false _).
  assert (Hlook : (lookupCached (Go.ToLower word) s1).1
                  = Some (Title de, Body de, Full de, Source de)).
  { apply lookupCached_from_disk; [done | exact Hm | exact Hfresh]. }
  destruct (lookupCached (Go.ToLower word) s1) as [r0 s2] eqn:Hc.
  cbn [fst] in Hlook. subst r0.
  rewrite (resolveDefinition_hit cfg p word s1 _ _ Hc). cbn [fst snd].
  destruct (lookupCached_frame _ _ _ _ Hc) as (_ & Hdirty & Hfiles & Hcalls & _).
  rewrite Hdirty. cbn [diskDirty s1 withDirty fst snd].
  by repeat split.
Qed.

(** X25. A client that cannot reach the daemon panics exactly when
    [cache.json] can be read and holds the JSON value null: the map is
    then [nil], nothing is found in it, the provider chain runs, and the
    assignment of the result to the map fails. *)
Theorem clientSend_panics_on_null cfg p word (s : store) :
  (dialOutcome (world s)).1 = false →
  ((clientSend cfg p word s).1 = Panicked
   ↔ (readFileOutcome cacheFilePath (dialOutcome (world s)).2).1 = true
     ∧ ∃ b, files s !! cacheFilePath = Some b ∧ jsonUnmarshal b = DecodeNil).
Proof.
  intros Hdial. rewrite (clientSend_local cfg p word s Hdial). cbv zeta.
  rewrite loadDiskCache_run. cbn [fst snd world files withMem withWorld].
  split.
  - destruct (readFileOutcome cacheFilePath (dialOutcome (world s)).2).1.
    + destruct (files s !! cacheFilePath) as [b|].
      * destruct (jsonUnmarshal b) eqn:Hdec.
        -- by destruct (diskDirty _).
        -- intros _. split; [done|]. by exists b.
        -- by destruct (diskDirty _).
      * by destruct (diskDirty _).
    + by destruct (diskDirty _).
  - intros [Hread (b & Hb & Hdec)]. rewrite Hread, Hb, Hdec. cbn [default].
    rewrite resolveDefinition_cold by done.
    destruct (resolveFresh_effect cfg p word
                (withDirty false (withDisk ∅
                   (withWorld (readFileOutcome cacheFilePath
                                 (dialOutcome (world s)).2).2
                      (withMem (newLRU 64 (10 * minute))
                         (withWorld (dialOutcome (world s)).2 s))))))
      as (_ & _ & Hdirty & _).
    by rewrite Hdirty.
Qed.

(** X26. A client that cannot reach the daemon, loads a map without the
    word and resolves it, with a file system on which writes and renames
    succeed, shows the entry it adds to the map under the lower-cased
    word, leaves the full text in [last.txt], and, if the map can be
    encoded, leaves the encoding of the whole map in [cache.json]. *)
Theorem clientSend_saves_result cfg p word (s : store) m0 :
  (dialOutcome (world s)).1 = false →
  (∀ name data w, (writeFileOutcome name data w).1 = WriteOk) →
  (∀ old new w, (renameOutcome old new w).1 = true) →
  (loadDiskCache cacheFilePath
     (withMem (newLRU 64 (10 * minute))
              (withWorld (dialOutcome (world s)).2 s))).1 = Some m0 →
  m0 !! Go.ToLower word = None →
  let r := clientSend cfg p word s in
  ∃ e, r.1 = Shown (Title e) (Body e) (Full e)
    ∧ disk r.2 = <[Go.ToLower word := e]> m0
    ∧ (∀ b, jsonMarshal (disk r.2) = Some b →
            files r.2 !! cacheFilePath = Some b)
    ∧ (lastFilePath ≠ cacheFilePath →
       lastFilePath ≠ cacheFilePath +:+ ".tmp" →
       files r.2 !! lastFilePath = Some (Full e)).
Proof.
  intros Hdial Hwrite Hrename Hload Hmiss. cbv zeta.
  rewrite (clientSend_local cfg p word s Hdial). cbv zeta.
  set (s0 := withMem _ _) in *.
  destruct (loadDiskCache cacheFilePath s0) as [m s2] eqn:Hld.
  cbn [fst snd] in *. subst m. change (default ∅ (Some m0)) with m0.
  pose proof (loadDiskCache_run cacheFilePath s0) as Hrun. cbv zeta in Hrun.
  rewrite Hld in Hrun. injection Hrun as _ Hs2.
  set (s1 := withDirty false (withDisk m0 s2)).
  assert (Hcold : resolveDefinition cfg p word s1 = resolveFresh cfg p word s1).
  { apply resolveDefinition_cold; [by subst s2 | exact Hmiss]. }
  rewrite Hcold.
  destruct (resolveFresh_effect cfg p word s1)
    as (_ & [now Hdisk] & Hdirty & _ & _).
  destruct (lookupChain cfg p word s1) as [[[out used] source] s3] eqn:Hch.
  destruct (resolveFresh_run cfg p word s1 out used source s3 Hch)
    as (now1 & now2 & s' & Hfresh & _ & Hd' & _ & _ & Hfiles).
  rewrite Hfresh in *. cbn [fst snd] in *. rewrite Hdirty.
  eexists {| Title := _; Body := _; Full := _; TS := now; Source := _ |}.
  cbn [fst snd Title Body Full].
  destruct (saveDiskCacheAtomic_others cacheFilePath (disk s') s')
    as (Hother & _ & Hdsame & _).
  split_and!; [reflexivity | by rewrite Hdsame, Hdisk | |].
  - intros b Hb. rewrite Hdsame in Hb.
    apply saveDiskCacheAtomic_success; [exact Hb | apply Hwrite | apply Hrename].
  - intros Hne1 Hne2. rewrite (Hother lastFilePath Hne1 Hne2), Hfiles.
    apply writeLast_ok, Hwrite.
Qed.

End ClientFacts.

(* ===================================================================== *)
(** * The text of the two remote services *)
(* ===================================================================== *)

Section TextFacts.

Lemma trimmed_result out :
  String.eqb (Go.TrimSpace out) "" = false →
  Go.TrimSpace out ≠ "" ∧ Go.trimmed (Go.TrimSpace out).
Proof.
  intros Hne. split; [by apply String.eqb_neq | apply GoFacts.TrimSpace_trimmed].
Qed.

(** The loop reads the first three meanings that have a definition, and
    of each the first definition. *)
Lemma primaryMeanings_shown ms added b :
  (added < 3)%nat →
  primaryMeanings ms added b
  = primaryMeanings
      (take (3 - added)
            (map firstDefinition
                 (List.filter (λ m, negb (Nat.eqb (length (Definitions m)) 0)) ms)))
      added b.
Proof.
  revert added b. induction ms as [|m ms IH]; intros added b Hadd.
  - simpl. by rewrite take_nil.
  - cbn [List.filter primaryMeanings].
    destruct (Definitions m) as [|d ds] eqn:Hd.
    + simpl. by apply IH.
    + cbn [length Nat.eqb negb map].
      replace (3 - added)%nat with (S (3 - S added)) by lia.
      cbn [take primaryMeanings firstDefinition Definitions PartOfSpeech].
      rewrite Hd. cbn [take].
      destruct (Nat.leb_spec 3 (S added)) as [|Hlt]; [done|].
      by apply IH.
Qed.

(** X28. The text [lookupPrimary] makes of a decoded answer is never
    empty and has no white space at either end; and it is made of the
    first entry alone, of the first three of its meanings that have a
    definition, and of the first definition of each of these. *)
Theorem primaryText_shape entries :
  (∀ o, primaryText entries = LookupOk o → o ≠ "" ∧ Go.trimmed o)
  ∧ (∀ e es, entries = e :: es →
       primaryText entries
       = primaryText [{| Word := Word e;
                         Meanings := shownMeanings (Meanings e) |}]).
Proof.
  split.
  - intros o. unfold primaryText.
    destruct entries as [|e es]; [done|].
    destruct (Meanings e) as [|m ms]; [done|]. cbv zeta.
    destruct (String.eqb (Go.TrimSpace _) "") eqn:Hne; [done|].
    intros [= <-]. by apply trimmed_result.
  - intros e es ->. unfold primaryText. cbn [Meanings].
    pose proof (primaryMeanings_shown (Meanings e) 0 "") as Hshown.
    change (3 - 0)%nat with 3%nat in Hshown. fold (shownMeanings (Meanings e)) in Hshown.
    specialize (Hshown ltac:(lia)).
    destruct (Meanings e) as [|m ms] eqn:Hm; [done|].
    rewrite Hshown.
    destruct (shownMeanings (m :: ms)) as [|m' ms'] eqn:Hs; [done|].
    reflexivity.
Qed.

Lemma wiktionaryBucket_app ds1 ds2 count b :
  (count < 7)%nat →
  wiktionaryBucket (ds1 ++ ds2) count b
  = let (c, b') := wiktionaryBucket ds1 count b in
    if (7 <=? c)%nat then (c, b') else wiktionaryBucket ds2 c b'.
Proof.
  revert count b. induction ds1 as [|d ds1 IH]; intros count b Hc.
  - assert (E : (7 <=? count)%nat = false) by (apply Nat.leb_gt; lia).
    cbn [app wiktionaryBucket]. by rewrite E.
  - cbn [app wiktionaryBucket].
    destruct (String.eqb (Go.TrimSpace d) ""); [by apply IH|].
    destruct (Nat.leb_spec 7 (S count)) as [Hge|Hlt].
    + by apply Nat.leb_le in Hge as ->.
    + by apply IH.
Qed.

Lemma wiktionaryBuckets_flat defs count b :
  (count < 7)%nat →
  wiktionaryBuckets defs count b
  = (wiktionaryBucket (concat (map WikiDefinitions defs)) count b).2.
Proof.
  revert count b. induction defs as [|bucket defs IH]; intros count b Hc; [done|].
  cbn [map concat wiktionaryBuckets]. rewrite wiktionaryBucket_app by done.
  destruct (wiktionaryBucket (WikiDefinitions bucket) count b) as [c b'].
  destruct (Nat.leb_spec 7 c) as [|Hlt]; [done|]. by apply IH.
Qed.

Lemma wiktionaryBucket_shown ds count b :
  (count < 7)%nat →
  wiktionaryBucket ds count b
  = wiktionaryBucket
      (take (7 - count)
            (List.filter (λ d, negb (String.eqb (Go.TrimSpace d) "")) ds))
      count b.
Proof.
  revert count b. induction ds as [|d ds IH]; intros count b Hc.
  - simpl. by rewrite take_nil.
  - cbn [List.filter wiktionaryBucket].
    destruct (String.eqb (Go.TrimSpace d) "") eqn:Hd; [by apply IH|].
    cbn [negb]. replace (7 - count)%nat with (S (7 - S count)) by lia.
    cbn [take wiktionaryBucket]. rewrite Hd.
    destruct (Nat.leb_spec 7 (S count)) as [|Hlt]; [done|]. by apply IH.
Qed.

Lemma removeByte_gone c s : allBytes (λ b, negb (Ascii.eqb b c)) (removeByte c s) = true.
Proof.
  induction s as [|b s IH]; simpl; [done|].
  destruct (Ascii.eqb b c) eqn:Hb; [done|]. simpl. by rewrite Hb.
Qed.

Lemma removeByte_keeps f c s :
  allBytes f s = true → allBytes f (removeByte c s) = true.
Proof.
  induction s as [|b s IH]; simpl; [done|].
  intros [Hb Hs]%andb_true_iff. destruct (Ascii.eqb b c); [by apply IH|].
  simpl. by rewrite Hb, IH.
Qed.

Lemma noBracket_removed dd :
  allBytes noBracket (removeByte "]" (removeByte "[" dd)) = true.
Proof.
  pose proof (removeByte_gone "]" (removeByte "[" dd)) as H1.
  pose proof (removeByte_keeps (λ b, negb (Ascii.eqb b "[")) "]" _
                (removeByte_gone "[" dd)) as H2.
  revert H1 H2. generalize (removeByte "]" (removeByte "[" dd)). intros s.
  induction s as [|b s IH]; simpl; [done|].
  intros [Ha Hs]%andb_true_iff [Hb Hs']%andb_true_iff.
  rewrite IH by done. unfold noBracket.
  apply negb_true_iff in Ha, Hb. by rewrite Ha, Hb.
Qed.

Lemma wiktionaryBucket_noBracket ds count b :
  allBytes noBracket b = true →
  allBytes noBracket (wiktionaryBucket ds count b).2 = true.
Proof.
  revert count b. induction ds as [|d ds IH]; intros count b Hb; [done|].
  cbn [wiktionaryBucket].
  destruct (String.eqb (Go.TrimSpace d) ""); [by apply IH|].
  assert (Hb' : allBytes noBracket
                  ((if (0 <? count)%nat then b +:+ Go.LF else b) +:+ "• "
                   +:+ removeByte "]" (removeByte "[" (Go.TrimSpace d))) = true).
  { rewrite !allBytes_app, noBracket_removed.
    destruct (0 <? count)%nat; rewrite ?allBytes_app, Hb; reflexivity. }
  destruct (7 <=? S count)%nat; [exact Hb' | by apply IH].
Qed.

(** X29. The text [lookupWiktionary] makes of a decoded answer is never
    empty, has no white space at either end and holds no square bracket;
    and it is made of the first seven definitions that are not blank, in
    the order of the buckets, and of nothing else. *)
Theorem wiktionaryText_shape defs :
  (∀ o, wiktionaryText defs = LookupOk o →
        o ≠ "" ∧ Go.trimmed o ∧ allBytes noBracket o = true)
  ∧ wiktionaryText defs
    = wiktionaryText [{| WikiDefinitions := shownDefinitions defs |}].
Proof.
  assert (Hflat : wiktionaryBuckets defs 0 ""
                  = wiktionaryBuckets [{| WikiDefinitions := shownDefinitions defs |}] 0 "").
  { rewrite !wiktionaryBuckets_flat by lia. cbn [map concat WikiDefinitions].
    rewrite app_nil_r, (wiktionaryBucket_shown (concat _)) by lia.
    reflexivity. }
  split.
  - intros o. unfold wiktionaryText. destruct defs as [|bucket defs]; [done|].
    clear Hflat.
    assert (Hb : allBytes noBracket (wiktionaryBuckets (bucket :: defs) 0 "") = true).
    { rewrite wiktionaryBuckets_flat by lia.
      by apply wiktionaryBucket_noBracket. }
    revert Hb. generalize (wiktionaryBuckets (bucket :: defs) 0 ""). intros out Hb.
    cbv zeta. destruct (String.eqb (Go.TrimSpace out) "") eqn:Hne; [done|].
    intros [= <-]. destruct (trimmed_result _ Hne) as [Hn Ht].
    split_and!; [done | done |].
    destruct (GoFacts.TrimSpace_slice out) as (a & c & Hs).
    rewrite Hs, !allBytes_app in Hb.
    apply andb_true_iff in Hb as [_ Hb]. by apply andb_true_iff in Hb as [Hb _].
  - unfold wiktionaryText. rewrite <- Hflat.
    destruct defs as [|bucket defs]; [|done]. reflexivity.
Qed.

End TextFacts.

(* ===================================================================== *)
(** * Concrete runs *)
(* ===================================================================== *)

#[local] Existing Instance plainUnicode.

Section LegendRuns.
#[local] Existing Instance hostLegend.

Lemma resolveDefinition_idempotent_within_ttl_witness :
  let r1 := resolveDefinition defaultConfig stubPaths "Legends" (freshStore 0) in
  let r2 := resolveDefinition noOfflineConfig stubPaths "legends" r1.2 in
  validWord "Legends" = true
  ∧ Go.ToLower "legends" = Go.ToLower "Legends"
  ∧ 0 < max (mem (freshStore 0))
  ∧ (∀ it, head (ll (mem r1.2)) = Some it →
           (clock (world r1.2)).1 - ts it ≤ ttl (mem r1.2))
  ∧ r2.1 = r1.1 ∧ calls r2.2 = calls r1.2.
Proof.
  intros r1 r2.
  assert (Hkey : Go.ToLower "legends" = Go.ToLower "Legends") by reflexivity.
  assert (Hmax : 0 < max (mem (freshStore 0))) by zcompare.
  assert (Hfresh : ∀ it, head (ll (mem r1.2)) = Some it →
                         (clock (world r1.2)).1 - ts it ≤ ttl (mem r1.2)).
  { intros it Hit. vm_compute in Hit. injection Hit as <-. zcompare. }
  split_and!; [reflexivity | exact Hkey | exact Hmax | exact Hfresh | |];
    apply (@resolveDefinition_idempotent_within_ttl plainUnicode hostLegend
             defaultConfig noOfflineConfig stubPaths stubPaths
             "Legends" "legends" (@freshStore hostLegend 0) Hkey Hmax Hfresh).
Defined.

Lemma resolveDefinition_follows_provider_order_witness :
  let s := freshStore 0 in
  let r := resolveDefinition defaultConfig stubPaths "legends" s in
  lookupCached (Go.ToLower "legends") s = (None, s)
  ∧ resolveDefinition defaultConfig stubPaths "legends" s
    = (("📘 Legends ☁️", r.1.1.1.2, r.1.1.2, "online"), r.2)
  ∧ ∃ evs out used,
      calls r.2 = calls s ++ evs
      ∧ followsPlan (planFor (providerOrder defaultConfig)
                             (lemmaCandidates "legends"))
                    "legends" evs (out, used, "online")
      ∧ r.1.1.2 = Go.TrimSpace out
      ∧ r.1.1.1.2 = "<b><i>" +:+ showWord "legends" used +:+ "</i></b>"
                    +:+ Go.LF +:+ clampBody r.1.1.2
      ∧ "📘 Legends ☁️"
        = "📘 " +:+ cap1 "legends" +:+ " " +:+ sourceEmoji "online".
Proof.
  intros s r.
  assert (Hmiss : lookupCached (Go.ToLower "legends") s = (None, s))
    by (vm_compute; reflexivity).
  assert (Hrun : resolveDefinition defaultConfig stubPaths "legends" s
                 = (("📘 Legends ☁️", r.1.1.1.2, r.1.1.2, "online"), r.2))
    by (vm_compute; reflexivity).
  split_and!; [exact Hmiss | exact Hrun |].
  exact (@resolveDefinition_follows_provider_order plainUnicode hostLegend
           defaultConfig stubPaths "legends" s s r.2
           "📘 Legends ☁️" r.1.1.1.2 r.1.1.2 "online" Hmiss Hrun).
Defined.

Lemma resolveDefinition_legends_witness :
  let s := freshStore 0 in
  let o := "noun: An unrealistic story." in
  let r := resolveDefinition defaultConfig stubPaths "legends" s in
  lookupCached "legends" s = (None, s)
  ∧ (∀ w, failed (primaryService "legends" w).1 = true)
  ∧ (∀ w, (primaryService "legend" w).1 = LookupOk o)
  ∧ o ≠ ""
  ∧ r.1 = ("📘 Legends ☁️",
           "<b><i>Legends → Legend</i></b>" +:+ Go.LF +:+ clampBody (Go.TrimSpace o),
           Go.TrimSpace o, "online")
  ∧ ∃ r0, calls r.2 = calls s ++ [(Primary, "legends", r0);
                                  (Primary, "legend", LookupOk o)].
Proof.
  intros s o r.
  assert (Hmiss : lookupCached "legends" s = (None, s))
    by (vm_compute; reflexivity).
  assert (Hfail : ∀ w, failed (primaryService "legends" w).1 = true)
    by (intros w; reflexivity).
  assert (Hok : ∀ w, (primaryService "legend" w).1 = LookupOk o)
    by (intros w; reflexivity).
  assert (Ho : o ≠ "") by discriminate.
  split_and!; [exact Hmiss | exact Hfail | exact Hok | exact Ho | |];
    apply (@resolveDefinition_legends plainUnicode hostLegend
             defaultConfig stubPaths s s o Hmiss Hfail Hok Ho).
Defined.

(** C7 as stated fails: the title is the requested word and the source
    indicator; "Legends → Legend" is in the body. *)
Lemma title_lacks_requested_and_used :
  let r := resolveDefinition defaultConfig stubPaths "legends" (freshStore 0) in
  r.1.1.1.1 = "📘 Legends ☁️"
  ∧ Go.Contains r.1.1.1.1 "Legends → Legend" = false
  ∧ Go.Contains r.1.1.1.2 "Legends → Legend" = true.
Proof. vm_compute. by repeat split. Qed.

(** "legends" and then "zzqx" are resolved, each by running the provider
    chain; a third request, for "Legends", is then answered from the cache.
    It returns the text for "legends" and leaves [last.txt] with the text
    of the resolution for "zzqx". *)
Lemma cache_hit_writes_only_memory_witness :
  let s0 := freshStore 0 in
  let r1 := resolveDefinition defaultConfig stubPaths "legends" s0 in
  let c1 := lookupChain defaultConfig stubPaths "legends" s0 in
  let s2 := (resolveDefinition defaultConfig stubPaths "zzqx" r1.2).2 in
  let r := resolveDefinition defaultConfig stubPaths "Legends" s2 in
  lookupCached (Go.ToLower "legends") s0 = (None, s0)
  ∧ c1 = (("noun: An unrealistic story.", "legend", "online"), c1.2)
  ∧ (writeFileOutcome lastFilePath (Go.TrimSpace "noun: An unrealistic story.")
       (world c1.2)).1 = WriteOk
  ∧ files r1.2 !! lastFilePath = Some "noun: An unrealistic story."
  ∧ (lookupCached (Go.ToLower "Legends") s2).1
    = Some ("📘 Legends ☁️", r.1.1.1.2, "noun: An unrealistic story.", "online")
  ∧ r.1.1.2 = "noun: An unrealistic story."
  ∧ disk r.2 = disk s2 ∧ diskDirty r.2 = diskDirty s2 ∧ files r.2 = files s2
  ∧ calls r.2 = calls s2
  ∧ files r.2 !! lastFilePath = Some "No definition found.".
Proof.
  intros s0 r1 c1 s2 r.
  assert (Hmiss : lookupCached (Go.ToLower "legends") s0 = (None, s0))
    by (vm_compute; reflexivity).
  assert (Hc1 : c1 = (("noun: An unrealistic story.", "legend", "online"), c1.2))
    by (vm_compute; reflexivity).
  assert (Hw : (writeFileOutcome lastFilePath
                  (Go.TrimSpace "noun: An unrealistic story.") (world c1.2)).1
               = WriteOk) by reflexivity.
  destruct (proj2 (@cache_hit_writes_only_memory plainUnicode hostLegend
                     defaultConfig stubPaths "legends" s0)
              s0 _ _ _ c1.2 Hmiss Hc1 Hw) as [_ Hlast].
  destruct (lookupCached (Go.ToLower "Legends") s2) as [res s3] eqn:Hc.
  assert (Hres : res = Some ("📘 Legends ☁️", r.1.1.1.2,
                            "noun: An unrealistic story.", "online")).
  { apply (f_equal fst) in Hc. vm_compute in Hc. rewrite <- Hc. reflexivity. }
  subst res.
  destruct (proj1 (@cache_hit_writes_only_memory plainUnicode hostLegend
                     defaultConfig stubPaths "Legends" s2) _ _ Hc)
    as (Hrun & Hd & Hdd & Hf & Hcl & _).
  assert (Hr2 : r.2 = s3) by (subst r; by rewrite Hrun).
  rewrite Hr2.
  split_and!; [exact Hmiss | exact Hc1 | exact Hw | exact Hlast | reflexivity
              | vm_compute; reflexivity | exact Hd | exact Hdd | exact Hf
              | exact Hcl |].
  rewrite Hf. vm_compute. reflexivity.
Defined.

End LegendRuns.

Section NothingFound.
#[local] Existing Instance hostNone.



End NothingFound.

Section OfflineCat.
#[local] Existing Instance hostCatOffline.

(** C2 as stated fails when offline look-ups are switched off: both
    remote providers have failed for every candidate, the offline
    dictionary would answer, and it is never asked. *)
Lemma offline_not_asked_when_switched_off :
  let r := resolveDefinition noOfflineConfig stubPaths "cat" (freshStore 0) in
  r.1.2 = "none"
  ∧ calls r.2 = [(Primary, "cat", LookupErr); (Wiktionary, "cat", LookupErr)]
  ∧ (dictProcess (dict stubPaths) "cat" (world r.2)).1
    = LookupOk "A small domesticated feline."
  ∧ ¬ followsPlan (planFor [Primary; Wiktionary; Offline] (lemmaCandidates "cat"))
                  "cat" (calls r.2) ("No definition found.", "cat", "none").
Proof.
  split_and!; [vm_compute; reflexivity | vm_compute; reflexivity
              | vm_compute; reflexivity |].
  intros [(evs0 & pr & cand & o & rest & He & _)|(_ & Hmap & _)].
  - vm_compute in He.
    destruct evs0 as [|e0 [|e1 [|e2 evs0]]]; simpl in He; discriminate He.
  - vm_compute in Hmap. discriminate Hmap.
Qed.

(** C5 as stated fails for the memory tier: an offline-sourced entry that
    is thirteen hours old is returned from the memory cache and no provider
    is asked. *)
Lemma old_offline_entry_served_from_memory :
  let r1 := resolveDefinition defaultConfig stubPaths "cat" (freshStore 0) in
  let later := withWorld (13 * hour) r1.2 in
  let r2 := resolveDefinition defaultConfig stubPaths "cat" later in
  r1.1.2 = "offline"
  ∧ (∃ it, lruFind "cat" (ll (mem later)) = Some it ∧ src it = "offline"
           ∧ (clock (world later)).1 - ts it > offlineRefreshAfter)
  ∧ r2.1 = r1.1
  ∧ calls r2.2 = calls r1.2.
Proof.
  split_and!; [vm_compute; reflexivity | | vm_compute; reflexivity
              | vm_compute; reflexivity].
  exists {| key := "cat"; title := "📘 Cat 🗄️";
            body := "<b><i>Cat</i></b>" +:+ Go.LF +:+ "A small domesticated feline.";
            full := "A small domesticated feline."; ts := 0; src := "offline" |}.
  split_and!; [vm_compute; reflexivity | reflexivity | zcompare].
Qed.

Lemma freshness_rule_by_tier_witness :
  let r1 := resolveDefinition defaultConfig stubPaths "cat" (freshStore 0) in
  let later := withWorld (13 * hour) r1.2 in
  let stale := restartedStore (catEntry "offline" 0) (13 * hour) in
  let kept := restartedStore (catEntry "online" 0) (13 * hour) in
  (resolveDefinition defaultConfig stubPaths "cat" later).1 = r1.1
  ∧ calls (resolveDefinition defaultConfig stubPaths "cat" later).2 = calls later
  ∧ (∃ r evs, calls (resolveDefinition defaultConfig stubPaths "cat" stale).2
              = calls stale ++ (Primary, "cat", r) :: evs)
  ∧ (resolveDefinition defaultConfig stubPaths "cat" kept).1
    = ("📘 Cat", "<b><i>Cat</i></b>", "A small domesticated feline.", "online")
  ∧ calls (resolveDefinition defaultConfig stubPaths "cat" kept).2 = calls kept.
Proof.
  intros r1 later stale kept.
  destruct (@freshness_rule_by_tier plainUnicode hostCatOffline
              defaultConfig stubPaths "cat" later) as (Hmem & _ & _).
  destruct (@freshness_rule_by_tier plainUnicode hostCatOffline
              defaultConfig stubPaths "cat" stale) as (_ & Hstale & _).
  destruct (@freshness_rule_by_tier plainUnicode hostCatOffline
              defaultConfig stubPaths "cat" kept) as (_ & _ & Hkept).
  destruct (Hmem {| key := "cat"; title := r1.1.1.1.1; body := r1.1.1.1.2;
                    full := r1.1.1.2; ts := 0; src := "offline" |})
    as [Hm1 Hm2]; [vm_compute; reflexivity | zcompare |].
  destruct (Hstale stale (catEntry "offline" 0))
    as [_ Hs2]; [vm_compute; reflexivity | vm_compute; reflexivity
                | reflexivity | zcompare |].
  destruct (Hkept kept (catEntry "online" 0))
    as (Hk1 & Hk2 & _); [vm_compute; reflexivity | vm_compute; reflexivity
                        | discriminate | zcompare |].
  split_and!; [exact Hm1 | exact Hm2 | exact Hs2 | exact Hk1 | exact Hk2].
Defined.

End OfflineCat.

Section LongAnswer.
#[local] Existing Instance hostLong.

Lemma full_text_never_truncated_witness :
  let s := freshStore 0 in
  let c := lookupChain defaultConfig stubPaths "word" s in
  let r := resolveDefinition defaultConfig stubPaths "word" s in
  lookupCached (Go.ToLower "word") s = (None, s)
  ∧ c = ((longText, "word", "online"), c.2)
  ∧ r = ((r.1.1.1.1, r.1.1.1.2, r.1.1.2, r.1.2), r.2)
  ∧ Go.len longText = 1500
  ∧ r.1.1.2 = Go.TrimSpace longText
  ∧ Go.len r.1.1.2 = 1499
  ∧ (∃ de, disk r.2 !! Go.ToLower "word" = Some de ∧ Full de = r.1.1.2
           ∧ Body de = r.1.1.1.2)
  ∧ clampBody r.1.1.2
    = Go.TrimSpace (Go.sliceTo r.1.1.2 1320)
      +:+ Go.LF +:+ Go.LF +:+ "… (click to open full)"
  ∧ Go.HasSuffix r.1.1.1.2 "… (click to open full)" = true
  ∧ Go.len (clampBody r.1.1.2) ≤ 1400
  ∧ charCount (clampBody r.1.1.2) ≤ 1400.
Proof.
  intros s c r.
  assert (Hmiss : lookupCached (Go.ToLower "word") s = (None, s))
    by (vm_compute; reflexivity).
  assert (Hc : c = ((longText, "word", "online"), c.2))
    by (vm_compute; reflexivity).
  assert (Hr : r = ((r.1.1.1.1, r.1.1.1.2, r.1.1.2, r.1.2), r.2))
    by (by destruct r as [[[[t b] f] so] s']).
  assert (Hlen : Go.len r.1.1.2 = 1499) by (vm_compute; reflexivity).
  destruct (@full_text_never_truncated plainUnicode hostLong
              defaultConfig stubPaths "word" s s c.2 r.2
              longText "word" "online" r.1.1.1.1 r.1.1.1.2 r.1.1.2 r.1.2
              Hmiss Hc Hr) as (Hfull & Hdisk & _ & _ & _ & Hlong & Hcap & Hchars).
  destruct Hlong as (Hclamp & _).
  { rewrite Hlen. zcompare. }
  split_and!; [exact Hmiss | exact Hc | exact Hr | vm_compute; reflexivity
              | exact Hfull | exact Hlen | exact Hdisk | exact Hclamp
              | vm_compute; reflexivity | exact Hcap | exact Hchars].
Defined.

End LongAnswer.

Section AccentedAnswer.
#[local] Existing Instance hostAccents.

(** C9 as stated fails for a cap in characters: a text of 701 characters,
    each of two bytes, is under a cap of 1400 characters and is clamped
    all the same, because it is 1402 bytes long. [full] holds the whole
    text; the rendering in [body] is its first 1320 bytes and the
    marker. *)
Lemma accented_text_under_cap_is_clamped :
  let r := resolveDefinition defaultConfig stubPaths "word" (freshStore 0) in
  r.1.1.2 = accentText
  ∧ charCount r.1.1.2 = 701
  ∧ charCount r.1.1.2 ≤ 1400
  ∧ Go.len r.1.1.2 = 1402
  ∧ r.1.1.1.2 = "<b><i>Word</i></b>" +:+ Go.LF +:+ clampBody r.1.1.2
  ∧ clampBody r.1.1.2 ≠ r.1.1.2
  ∧ clampBody r.1.1.2
    = Go.sliceTo accentText 1320 +:+ Go.LF +:+ Go.LF +:+ "… (click to open full)"
  ∧ charCount (clampBody r.1.1.2) = 684.
Proof.
  vm_compute. split_and!; first [reflexivity | discriminate].
Qed.

End AccentedAnswer.

Section DiskFull.
#[local] Existing Instance hostDiskFull.

Lemma flushTick_clears_dirty_flag_witness :
  let s := dirtyStore 0 in
  let s' := (flushTick s).2 in
  let tmp := cacheFilePath +:+ ".tmp" in
  diskDirty s = true
  ∧ (∃ b, jsonMarshal (disk s) = Some b
          ∧ (writeFileOutcome tmp b (world s)).1 ≠ WriteOk)
  ∧ diskDirty s' = false
  ∧ disk s' = disk s
  ∧ files s' !! cacheFilePath = files s !! cacheFilePath
  ∧ flushTick s' = (tt, s').
Proof.
  intros s s' tmp.
  assert (Hdirty : diskDirty s = true) by reflexivity.
  assert (Hb : jsonMarshal (disk s) = Some "cat=A small domesticated feline.;")
    by (vm_compute; reflexivity).
  assert (Hw : (writeFileOutcome tmp "cat=A small domesticated feline.;"
                  (world s)).1 ≠ WriteOk) by discriminate.
  destruct (@flushTick_clears_dirty_flag hostDiskFull s Hdirty)
    as (Hflag & Hdisk & Hkeep & _ & Hnext).
  split_and!; [exact Hdirty
              | exists "cat=A small domesticated feline.;"; exact (conj Hb Hw)
              | exact Hflag | exact Hdisk
              | exact (Hkeep _ Hb (or_introl Hw)) | exact Hnext].
Defined.

(** C4 as stated fails: the write of the temporary file stops short, and
    the tick still clears the dirty flag. The old snapshot stays on disk,
    the entry for "cat" is in the map and not in the file, and the next
    tick, with no resolution in between, writes nothing. *)
Lemma failed_flush_is_not_retried :
  let s := dirtyStore 0 in
  let s1 := (flushTick s).2 in
  let s2 := (flushTick s1).2 in
  (writeFileOutcome (cacheFilePath +:+ ".tmp")
     "cat=A small domesticated feline.;" (world s)).1 = WriteShort 3
  ∧ diskDirty s1 = false
  ∧ files s1 !! cacheFilePath = Some "old snapshot"
  ∧ jsonMarshal (disk s1) = Some "cat=A small domesticated feline.;"
  ∧ s2 = s1
  ∧ files s2 !! cacheFilePath = Some "old snapshot".
Proof. vm_compute. by repeat split. Qed.

End DiskFull.

(* ===================================================================== *)
(** * More concrete runs *)
(* ===================================================================== *)

Section CacheRuns.

Lemma lruCache_history_invariant_witness :
  0 ≤ 2
  ∧ (let c := lruRun sampleOps (newLRU 2 100) in
     lruWf c ∧ Z.of_nat (length (ll c)) ≤ 2 ∧ max c = 2).
Proof.
  assert (Hcap : 0 ≤ 2) by lia.
  split; [exact Hcap|].
  exact (lruCache_history_invariant 2 100 sampleOps Hcap).
Defined.

Lemma lruCache_get_after_set_witness :
  lruWf twoItems ∧ 0 < max twoItems
  ∧ (let c' := lruCache_set 5 "c" "C" "body c" "full c" "offline" twoItems in
     let it := {| key := "c"; title := "C"; body := "body c"; full := "full c";
                  ts := 5; src := "offline" |} in
     (50 - 5 ≤ ttl twoItems → lruCache_get 50 "c" c' = (Some it, c'))
     ∧ (ttl twoItems < 50 - 5 →
          (lruCache_get 50 "c" c').1 = None
          ∧ "c" ∉ keysOf (lruCache_get 50 "c" c').2)).
Proof.
  assert (Hwf : lruWf twoItems).
  { apply (bool_decide_unpack (NoDup (keysOf twoItems))). vm_compute. exact I. }
  assert (Hmax : 0 < max twoItems) by zcompare.
  split_and!; [exact Hwf | exact Hmax |].
  exact (lruCache_get_after_set 5 50 "c" "C" "body c" "full c" "offline"
           twoItems Hwf Hmax).
Defined.

Lemma lruCache_get_miss_witness :
  lruWf twoItems
  ∧ ("a" ∉ keysOf twoItems → lruCache_get 500 "a" twoItems = (None, twoItems))
  ∧ (∀ it, lruFind "a" (ll twoItems) = Some it → ttl twoItems < 500 - ts it →
       (lruCache_get 500 "a" twoItems).1 = None
       ∧ ll (lruCache_get 500 "a" twoItems).2
         = filter (λ x, key x ≠ "a") (ll twoItems))
  ∧ (∀ k', k' ≠ "a" →
       lruFind k' (ll (lruCache_get 500 "a" twoItems).2)
       = lruFind k' (ll twoItems)).
Proof.
  assert (Hwf : lruWf twoItems).
  { apply (bool_decide_unpack (NoDup (keysOf twoItems))). vm_compute. exact I. }
  split; [exact Hwf|].
  exact (lruCache_get_miss 500 "a" twoItems Hwf).
Defined.

Lemma lruCache_set_keeps_others_witness :
  lruWf twoItems
  ∧ (let it := {| key := "a"; title := "A2"; body := "body"; full := "full";
                  ts := 7; src := "none" |} in
     ("a" ∈ keysOf twoItems →
        ll (lruCache_set 7 "a" "A2" "body" "full" "none" twoItems)
        = it :: filter (λ x, key x ≠ "a") (ll twoItems)
        ∧ length (ll (lruCache_set 7 "a" "A2" "body" "full" "none" twoItems))
          = length (ll twoItems))
     ∧ ("a" ∉ keysOf twoItems → Z.of_nat (length (ll twoItems)) < max twoItems →
        ll (lruCache_set 7 "a" "A2" "body" "full" "none" twoItems)
        = it :: ll twoItems)).
Proof.
  assert (Hwf : lruWf twoItems).
  { apply (bool_decide_unpack (NoDup (keysOf twoItems))). vm_compute. exact I. }
  split; [exact Hwf|].
  exact (lruCache_set_keeps_others 7 "a" "A2" "body" "full" "none" twoItems Hwf).
Defined.

Lemma deduper_burst_witness :
  (deduper_allow 0 "cat" newDeduper).1 = true
  ∧ Forall (λ now, now - 0 < dedupeWindow) [100; 200000000; 249999999]
  ∧ dedupeWindow ≤ 250000000 - 0
  ∧ (let d1 := (deduper_allow 0 "cat" newDeduper).2 in
     allowEach [100; 200000000; 249999999] "cat" d1
     = (replicate (length [100; 200000000; 249999999]) false, d1)
     ∧ (deduper_allow 250000000 "cat" d1).1 = true).
Proof.
  assert (Hfirst : (deduper_allow 0 "cat" newDeduper).1 = true)
    by (vm_compute; reflexivity).
  assert (Hall : Forall (λ now, now - 0 < dedupeWindow)
                        [100; 200000000; 249999999])
    by (repeat constructor).
  assert (Hlate : dedupeWindow ≤ 250000000 - 0) by zcompare.
  split_and!; [exact Hfirst | exact Hall | exact Hlate |].
  exact (deduper_burst 0 [100; 200000000; 249999999] 250000000 "cat" newDeduper
           Hfirst Hall Hlate).
Defined.

Lemma lemmaCandidates_valid_witness :
  validWord "puppies" = true
  ∧ Forall (λ c, validWord c = true) (lemmaCandidates "puppies")
  ∧ (length (lemmaCandidates "puppies") ≤ 4)%nat.
Proof.
  assert (Hw : validWord "puppies" = true) by reflexivity.
  split; [exact Hw|].
  exact (@lemmaCandidates_valid plainUnicode "puppies" Hw).
Defined.

Lemma pickWord_valid_word_witness :
  validWord "mother-in-law's" = true
  ∧ pickWord "mother-in-law's" = "mother-in-law's"
  ∧ pickWord (Go.TrimSpace "mother-in-law's") = "mother-in-law's"
  ∧ pickWord ("mother-in-law's" +:+ " " +:+ "(noun), see: family.")
    = "mother-in-law's".
Proof.
  assert (Hw : validWord "mother-in-law's" = true) by reflexivity.
  split; [exact Hw|].
  exact (pickWord_valid_word "mother-in-law's" "(noun), see: family." Hw).
Defined.

Lemma mainAction_sends_first_argument_witness :
  let args := ["--debug"; "cat"; "--no-offline"; "dog."] in
  fullView (parseArgs args) = false
  ∧ daemon (parseArgs args) = false
  ∧ filterOutFlags args = "cat" :: ["dog."]
  ∧ validWord "cat" = true
  ∧ mainAction args "selected text" = Send "cat".
Proof.
  intros args.
  assert (Hfull : fullView (parseArgs args) = false) by reflexivity.
  assert (Hdaemon : daemon (parseArgs args) = false) by reflexivity.
  assert (Hrest : filterOutFlags args = "cat" :: ["dog."]) by reflexivity.
  assert (Hw : validWord "cat" = true) by reflexivity.
  split_and!; [exact Hfull | exact Hdaemon | exact Hrest | exact Hw |].
  exact (mainAction_sends_first_argument args "cat" ["dog."] "selected text"
           Hfull Hdaemon Hrest Hw).
Defined.

End CacheRuns.

Section LegendRunsMore.
#[local] Existing Instance hostLegend.
#[local] Existing Instance loaderLegend.

Lemma resolveDefinition_keeps_cache_invariant_witness :
  let s := freshStore 0 in
  let r := resolveDefinition defaultConfig stubPaths "legends" s in
  lruWf (mem s) ∧ Z.of_nat (length (ll (mem s))) ≤ max (mem s)
  ∧ lruWf (mem r.2) ∧ Z.of_nat (length (ll (mem r.2))) ≤ max (mem r.2).
Proof.
  intros s r.
  assert (Hwf : lruWf (mem s)) by apply NoDup_nil_2.
  assert (Hlen : Z.of_nat (length (ll (mem s))) ≤ max (mem s)) by zcompare.
  split_and!; [exact Hwf | exact Hlen | |];
    apply (@resolveDefinition_keeps_cache_invariant plainUnicode hostLegend
             defaultConfig stubPaths "legends" s Hwf Hlen).
Defined.

Lemma resolveDefinition_reads_two_settings_witness :
  noOffline defaultConfig = noOffline forceOnlineConfig
  ∧ dict stubPaths = dict otherPaths
  ∧ resolveDefinition defaultConfig stubPaths "legends" (freshStore 0)
    = resolveDefinition forceOnlineConfig otherPaths "legends" (freshStore 0).
Proof.
  assert (Hno : noOffline defaultConfig = noOffline forceOnlineConfig)
    by reflexivity.
  assert (Hdict : dict stubPaths = dict otherPaths) by reflexivity.
  split_and!; [exact Hno | exact Hdict |].
  exact (@resolveDefinition_reads_two_settings plainUnicode hostLegend
           defaultConfig forceOnlineConfig stubPaths otherPaths "legends"
           (@freshStore hostLegend 0) Hno Hdict).
Defined.

Lemma flushTick_saves_snapshot_witness :
  let s := dirtyStore 0 in
  let b := "cat=A small domesticated feline.;" in
  diskDirty s = true
  ∧ jsonMarshal (disk s) = Some b
  ∧ (writeFileOutcome (cacheFilePath +:+ ".tmp") b (world s)).1 = WriteOk
  ∧ (renameOutcome (cacheFilePath +:+ ".tmp") cacheFilePath
       (writeFileOutcome (cacheFilePath +:+ ".tmp") b (world s)).2).1 = true
  ∧ (let s' := (flushTick s).2 in
     files s' !! cacheFilePath = Some b
     ∧ files s' !! (cacheFilePath +:+ ".tmp") = None
     ∧ diskDirty s' = false ∧ disk s' = disk s ∧ mem s' = mem s).
Proof.
  intros s b.
  assert (Hdirty : diskDirty s = true) by reflexivity.
  assert (Hb : jsonMarshal (disk s) = Some b) by (vm_compute; reflexivity).
  assert (Hw : (writeFileOutcome (cacheFilePath +:+ ".tmp") b (world s)).1
               = WriteOk) by reflexivity.
  assert (Hr : (renameOutcome (cacheFilePath +:+ ".tmp") cacheFilePath
                  (writeFileOutcome (cacheFilePath +:+ ".tmp") b (world s)).2).1
               = true) by reflexivity.
  split_and!; [exact Hdirty | exact Hb | exact Hw | exact Hr |].
  exact (@flushTick_saves_snapshot hostLegend s b Hdirty Hb Hw Hr).
Defined.

Lemma handleConn_drops_invalid_witness :
  let d := daemonStart 0 in
  let r := handleConn defaultConfig stubPaths "hello, world" d in
  validWord (pickWord (Go.TrimSpace "hello, world")) = false
  ∧ r.1 = None ∧ dlast r.2 = dlast d ∧ keeps (dstore d) (dstore r.2)
  ∧ calls (dstore r.2) = calls (dstore d).
Proof.
  intros d r.
  assert (Hbad : validWord (pickWord (Go.TrimSpace "hello, world")) = false)
    by (vm_compute; reflexivity).
  split; [exact Hbad|].
  exact (@handleConn_drops_invalid plainUnicode hostLegend defaultConfig
           stubPaths "hello, world" d Hbad).
Defined.

Lemma handleConn_drops_repeat_witness :
  let d := daemonAfterCat 10 in
  let r := handleConn defaultConfig stubPaths " Cat " d in
  validWord (pickWord (Go.TrimSpace " Cat ")) = true
  ∧ dlast d !! Go.ToLower (pickWord (Go.TrimSpace " Cat ")) = Some 0
  ∧ (clock (clock (world (dstore d))).2).1 - 0 < dedupeWindow
  ∧ r.1 = None ∧ dlast r.2 = dlast d ∧ keeps (dstore d) (dstore r.2)
  ∧ calls (dstore r.2) = calls (dstore d).
Proof.
  intros d r.
  assert (Hok : validWord (pickWord (Go.TrimSpace " Cat ")) = true)
    by (vm_compute; reflexivity).
  assert (Hlast : dlast d !! Go.ToLower (pickWord (Go.TrimSpace " Cat "))
                  = Some 0) by (vm_compute; reflexivity).
  assert (Hage : (clock (clock (world (dstore d))).2).1 - 0 < dedupeWindow)
    by (vm_compute; reflexivity).
  split_and!; [exact Hok | exact Hlast | exact Hage | ..];
    apply (@handleConn_drops_repeat plainUnicode hostLegend defaultConfig
             stubPaths " Cat " d 0 Hok Hlast Hage).
Defined.

Lemma handleConn_resolves_witness :
  let d := daemonStart 0 in
  let now := (clock (clock (world (dstore d))).2).1 in
  let s1 := withWorld (clock (clock (world (dstore d))).2).2 (dstore d) in
  let res := resolveDefinition defaultConfig stubPaths "legend" s1 in
  let r := handleConn defaultConfig stubPaths "legend" d in
  validWord "legend" = true
  ∧ (∀ t0, dlast d !! Go.ToLower "legend" = Some t0 → dedupeWindow ≤ now - t0)
  ∧ r.1 = Some (res.1.1.1.1, res.1.1.1.2, res.1.1.2)
  ∧ dstore r.2 = res.2
  ∧ dlast r.2 = <[Go.ToLower "legend" := now]> (dlast d).
Proof.
  intros d now s1 res r.
  assert (Hw : validWord "legend" = true) by reflexivity.
  assert (Hlast : ∀ t0, dlast d !! Go.ToLower "legend" = Some t0 →
                        dedupeWindow ≤ now - t0).
  { intros t0 Ht. vm_compute in Ht. discriminate Ht. }
  split_and!; [exact Hw | exact Hlast | ..];
    apply (@handleConn_resolves plainUnicode hostLegend defaultConfig
             stubPaths "legend" d Hw Hlast).
Defined.

Lemma clientSend_panics_on_null_witness :
  let s := clientStore (Some "null") 0 in
  (dialOutcome (world s)).1 = false
  ∧ ((clientSend defaultConfig stubPaths "legend" s).1 = Panicked
     ↔ (readFileOutcome cacheFilePath (dialOutcome (world s)).2).1 = true
       ∧ ∃ b, files s !! cacheFilePath = Some b ∧ jsonUnmarshal b = DecodeNil).
Proof.
  intros s.
  assert (Hdial : (dialOutcome (world s)).1 = false) by reflexivity.
  split; [exact Hdial|].
  exact (@clientSend_panics_on_null plainUnicode hostLegend loaderLegend
           defaultConfig stubPaths "legend" s Hdial).
Defined.

Lemma clientSend_saves_result_witness :
  let s := clientStore None 0 in
  let r := clientSend defaultConfig stubPaths "legends" s in
  (dialOutcome (world s)).1 = false
  ∧ (∀ name data w, (writeFileOutcome name data w).1 = WriteOk)
  ∧ (∀ old new w, (renameOutcome old new w).1 = true)
  ∧ (loadDiskCache cacheFilePath
       (withMem (newLRU 64 (10 * minute))
                (withWorld (dialOutcome (world s)).2 s))).1 = Some ∅
  ∧ (∅ : gmap string diskEntry) !! Go.ToLower "legends" = None
  ∧ ∃ e, r.1 = Shown (Title e) (Body e) (Full e)
      ∧ disk r.2 = <[Go.ToLower "legends" := e]> ∅
      ∧ (∀ b, jsonMarshal (disk r.2) = Some b →
              files r.2 !! cacheFilePath = Some b)
      ∧ (lastFilePath ≠ cacheFilePath →
         lastFilePath ≠ cacheFilePath +:+ ".tmp" →
         files r.2 !! lastFilePath = Some (Full e)).
Proof.
  intros s r.
  assert (Hdial : (dialOutcome (world s)).1 = false) by reflexivity.
  assert (Hwrite : ∀ name data w, (writeFileOutcome name data w).1 = WriteOk)
    by (intros; reflexivity).
  assert (Hrename : ∀ old new w, (renameOutcome old new w).1 = true)
    by (intros; reflexivity).
  assert (Hload : (loadDiskCache cacheFilePath
                     (withMem (newLRU 64 (10 * minute))
                        (withWorld (dialOutcome (world s)).2 s))).1 = Some ∅)
    by (vm_compute; reflexivity).
  assert (Hmiss : (∅ : gmap string diskEntry) !! Go.ToLower "legends" = None)
    by (vm_compute; reflexivity).
  split_and!; [exact Hdial | exact Hwrite | exact Hrename | exact Hload
              | exact Hmiss |].
  exact (@clientSend_saves_result plainUnicode hostLegend loaderLegend
           defaultConfig stubPaths "legends" s ∅
           Hdial Hwrite Hrename Hload Hmiss).
Defined.

End LegendRunsMore.

Section NothingFoundMore.
#[local] Existing Instance hostNone.
#[local] Existing Instance loaderNone.

Lemma clientSend_serves_from_file_witness :
  let s := clientStore (Some "cat snapshot") 5 in
  let de := catEntry "online" 0 in
  let w := (readFileOutcome cacheFilePath (dialOutcome (world s)).2).2 in
  let r := clientSend defaultConfig stubPaths "Cat" s in
  (dialOutcome (world s)).1 = false
  ∧ (readFileOutcome cacheFilePath (dialOutcome (world s)).2).1 = true
  ∧ files s !! cacheFilePath = Some "cat snapshot"
  ∧ jsonUnmarshal "cat snapshot" = DecodeMap {[ "cat" := de ]}
  ∧ ({[ "cat" := de ]} : gmap string diskEntry) !! Go.ToLower "Cat" = Some de
  ∧ (if String.eqb (Source de) "offline"
     then (clock w).1 - TS de ≤ offlineRefreshAfter
          ∧ (clock (clock w).2).1 - TS de ≤ cacheTTL
     else (clock w).1 - TS de ≤ cacheTTL)
  ∧ r.1 = Shown (Title de) (Body de) (Full de)
  ∧ calls r.2 = calls s ∧ files r.2 = files s.
Proof.
  intros s de w r.
  assert (Hdial : (dialOutcome (world s)).1 = false) by reflexivity.
  assert (Hread : (readFileOutcome cacheFilePath (dialOutcome (world s)).2).1
                  = true) by reflexivity.
  assert (Hfile : files s !! cacheFilePath = Some "cat snapshot")
    by (vm_compute; reflexivity).
  assert (Hdec : jsonUnmarshal "cat snapshot" = DecodeMap {[ "cat" := de ]})
    by reflexivity.
  assert (Hm : ({[ "cat" := de ]} : gmap string diskEntry) !! Go.ToLower "Cat"
               = Some de) by (vm_compute; reflexivity).
  assert (Hfresh : if String.eqb (Source de) "offline"
                   then (clock w).1 - TS de ≤ offlineRefreshAfter
                        ∧ (clock (clock w).2).1 - TS de ≤ cacheTTL
                   else (clock w).1 - TS de ≤ cacheTTL) by zcompare.
  split_and!; [exact Hdial | exact Hread | exact Hfile | exact Hdec | exact Hm
              | exact Hfresh | ..];
    apply (@clientSend_serves_from_file plainUnicode hostNone loaderNone
             defaultConfig stubPaths "Cat" s "cat snapshot" {[ "cat" := de ]} de
             Hdial Hread Hfile Hdec Hm Hfresh).
Defined.

End NothingFoundMore.
